(** * go-libp2p-nym: wire codec, reordering queue, gateway framing,
      transport index and substreams

    A shallow embedding of the Go packages [message] (types, recipient,
    encoding), [queue], [mixnet] (the request codec) and [transport]
    (transport, conn, substream), with the properties the specification
    states about them.

    Conventions.  A Go [[]byte] and a fixed array [[n]byte] are a
    [list byte]; the length of an array is a well-formedness predicate.
    A Go [uint64] is a [Z] in [0, 2^64) and [++] on it wraps around.
    A Go map is a [gmap]; a function that can return an error returns
    an [option]; a function that can panic returns [None] there. *)

From Stdlib Require Import ZArith List Lia Ascii String.
From Stdlib Require Import Strings.Byte.
From stdpp Require Import gmap strings list fin_maps sorting.

Local Open Scope Z_scope.
Set Warnings "-clear-no-such-hyp".

(** ** Bytes and slices *)

Abbreviation bytes := (list byte).

Definition byte_to_Z (b : byte) : Z := Z.of_N (Byte.to_N b).

(** [byte(v)]: the conversion of an integer to a byte keeps the low 8 bits. *)
Definition byte_of_Z (v : Z) : byte :=
  match Byte.of_N (Z.to_N (v mod 256)) with
  | Some b => b
  | None => x00
  end.

(** [make([]byte, n)]: [n] zero bytes. *)
Definition make (n : nat) : bytes := replicate n x00.

(** [copy(dst[off:lim], src)] with [off <= lim <= len dst]: overwrites
    [min (lim - off) (len src)] elements of [dst] from offset [off]; the
    length of [dst] is unchanged.  The source is read before the
    destination is written (Go's [copy] allows overlap). *)
Definition copy_range {A} (dst : list A) (off lim : nat) (src : list A) : list A :=
  take off dst ++ take (lim - off) src
    ++ drop (off + Nat.min (lim - off) (length src)) dst.

(** [copy(dst[off:], src)]. *)
Definition copy_at {A} (dst : list A) (off : nat) (src : list A) : list A :=
  copy_range dst off (length dst) src.

(** [b[lo:hi]]. *)
Definition slice (b : bytes) (lo hi : nat) : bytes := take (hi - lo) (drop lo b).

Definition uint64_max : Z := 2 ^ 64.

(** [x++] on a [uint64]. *)
Definition uint64_incr (x : Z) : Z := (x + 1) mod uint64_max.

(** [binary.BigEndian.PutUint64(b, v)] as the eight bytes written. *)
Definition PutUint64 (v : Z) : bytes :=
  [ byte_of_Z (Z.shiftr v 56); byte_of_Z (Z.shiftr v 48);
    byte_of_Z (Z.shiftr v 40); byte_of_Z (Z.shiftr v 32);
    byte_of_Z (Z.shiftr v 24); byte_of_Z (Z.shiftr v 16);
    byte_of_Z (Z.shiftr v 8);  byte_of_Z v ].

(** [binary.BigEndian.Uint64(b)] on the first eight bytes of [b]. *)
Definition Uint64 (b : bytes) : Z :=
  match b with
  | b0 :: b1 :: b2 :: b3 :: b4 :: b5 :: b6 :: b7 :: _ =>
      Z.lor (byte_to_Z b7)
        (Z.lor (Z.shiftl (byte_to_Z b6) 8)
        (Z.lor (Z.shiftl (byte_to_Z b5) 16)
        (Z.lor (Z.shiftl (byte_to_Z b4) 24)
        (Z.lor (Z.shiftl (byte_to_Z b3) 32)
        (Z.lor (Z.shiftl (byte_to_Z b2) 40)
        (Z.lor (Z.shiftl (byte_to_Z b1) 48)
               (Z.shiftl (byte_to_Z b0) 56)))))))
  | _ => 0
  end.

(** ** Positional numerals

    The digits of a number in base [B], most significant first, as both
    base58 and the byte strings it encodes are read. *)

Local Open Scope N_scope.

Definition of_digits (B : N) (ds : list N) : N :=
  fold_left (λ acc d, acc * B + d) ds 0.

(** Division by [B >= 2] shortens the binary size of [n], which bounds
    the number of steps. *)
Fixpoint to_digits_aux (fuel : nat) (B n : N) (acc : list N) : list N :=
  match fuel with
  | O => acc
  | S fuel' =>
      if n =? 0 then acc
      else to_digits_aux fuel' B (n / B) (n mod B :: acc)
  end.

Definition to_digits (B n : N) : list N :=
  to_digits_aux (N.to_nat (N.size n)) B n [].

(** A numeral without a leading zero, all digits below the base. *)
Definition canonical (B : N) (ds : list N) : Prop :=
  Forall (λ d, d < B) ds ∧ head ds ≠ Some 0.

Definition byte_of_N (n : N) : byte :=
  match Byte.of_N n with
  | Some b => b
  | None => x00
  end.

(** ** github.com/mr-tron/base58

    The library is outside the repository.  [Encode] and [Decode] are
    modelled by what they compute: the base-58 numeral of the big-endian
    number the bytes spell, over the Bitcoin alphabet, preceded by one
    ['1'] for every leading zero byte.  [Decode] fails on the empty
    string and on a character outside the alphabet. *)

Module Base58.

Definition alphabet : list ascii :=
  list_ascii_of_string
    "123456789ABCDEFGHJKLMNPQRSTUVWXYZabcdefghijkmnopqrstuvwxyz".

Definition zero_char : ascii := "1"%char.

Definition encode_digit (d : N) : ascii := nth (N.to_nat d) alphabet zero_char.

Fixpoint index_of (c : ascii) (l : list ascii) (i : N) : option N :=
  match l with
  | [] => None
  | x :: l' => if Ascii.eqb c x then Some i else index_of c l' (i + 1)
  end.

Definition decode_digit (c : ascii) : option N := index_of c alphabet 0.

Fixpoint decode_digits (str : list ascii) : option (list N) :=
  match str with
  | [] => Some []
  | c :: str' =>
      match decode_digit c, decode_digits str' with
      | Some d, Some ds => Some (d :: ds)
      | _, _ => None
      end
  end.

Fixpoint count_leading {A} (p : A → bool) (l : list A) : nat :=
  match l with
  | [] => O
  | x :: l' => if p x then S (count_leading p l') else O
  end.

Definition is_zero_byte (b : byte) : bool := (Byte.to_N b =? 0).

Definition Encode (bin : bytes) : list ascii :=
  let zcount := count_leading is_zero_byte bin in
  replicate zcount zero_char
    ++ map encode_digit (to_digits 58 (of_digits 256 (map Byte.to_N bin))).

Definition Decode (str : list ascii) : option bytes :=
  match str with
  | [] => None
  | _ =>
      match decode_digits str with
      | None => None
      | Some ds =>
          let zcount := count_leading (Ascii.eqb zero_char) str in
          Some (replicate zcount x00
                  ++ map byte_of_N (to_digits 256 (of_digits 58 ds)))
      end
  end.

End Base58.

Local Close Scope N_scope.

(** ** github.com/libp2p/go-libp2p/core/peer

    [peer.IDFromBytes] is outside the repository: it returns the bytes
    as an ID when [mh.Cast] accepts them as a multihash, that is an
    unsigned varint code, an unsigned varint digest length and a digest
    of exactly that length, in a buffer of at least two bytes. *)

Module Peer.

(** The loop of [varint.FromUvarint]: at most nine bytes, the last one
    below [0x80] and not a padding zero. *)
Fixpoint uvarint_loop (buf : bytes) (i : nat) (x s : Z) : option (Z * bytes) :=
  match buf with
  | [] => None
  | b :: rest =>
      let v := byte_to_Z b in
      if ((i =? 8)%nat && (128 <=? v)) || (9 <=? i)%nat then None
      else if v <? 128 then
        if (v =? 0) && (0 <? s) then None
        else Some (Z.lor x (Z.shiftl v s), rest)
      else uvarint_loop rest (S i) (Z.lor x (Z.shiftl (Z.land v 127) s)) (s + 7)
  end.

Definition uvarint (buf : bytes) : option (Z * bytes) := uvarint_loop buf 0 0 0.

Definition multihash_ok (buf : bytes) : bool :=
  if (length buf <? 2)%nat then false
  else
    match uvarint buf with
    | None => false
    | Some (_, buf1) =>
        match uvarint buf1 with
        | None => false
        | Some (len, buf2) =>
            (len <=? 2147483647) && (Z.of_nat (length buf2) =? len)
        end
    end.

Definition IDFromBytes (b : bytes) : option bytes :=
  if multihash_ok b then Some b else None.

End Peer.

(** ** Package message: types, recipient.go, encoding.go *)

Module Message.

Definition ConnectionIDLength : nat := 32.
Definition SubstreamIDLength : nat := 32.
Definition RecipientLength : nat := 96.

(** [type MessageType byte], with [iota] discriminants. *)
Definition MessageTypeConnectionRequest : byte := x00.
Definition MessageTypeConnectionResponse : byte := x01.
Definition MessageTypeTransport : byte := x02.

Definition SubstreamMessageOpenRequest : byte := x00.
Definition SubstreamMessageOpenResponse : byte := x01.
Definition SubstreamMessageClose : byte := x02.
Definition SubstreamMessageData : byte := x03.

(** [ConnectionID] and [SubstreamID] are [[32]byte]. *)
Abbreviation ConnectionID := bytes.
Abbreviation SubstreamID := bytes.

(** [peer.ID] is a Go string holding the bytes of a multihash. *)
Abbreviation PeerID := bytes.

Record Recipient := mkRecipient {
  ClientIdentity : bytes;
  ClientEncryptionKey : bytes;
  Gateway : bytes
}.

Record SubstreamMessage := mkSubstreamMessage {
  sm_ID : SubstreamID;
  sm_Type : byte;
  sm_Data : bytes
}.

Record TransportMessage := mkTransportMessage {
  Nonce : Z;
  tm_Message : SubstreamMessage;
  tm_ID : ConnectionID
}.

Record ConnectionMessage := mkConnectionMessage {
  cm_PeerID : PeerID;
  cm_Recipient : option Recipient;
  cm_ID : ConnectionID
}.

(** The two payload pointers of [Message] may be nil. *)
Record Message := mkMessage {
  Type_ : byte;
  Connection : option ConnectionMessage;
  Transport : option TransportMessage
}.

(** Go zero values. *)
Definition zeroSubstreamMessage : SubstreamMessage :=
  mkSubstreamMessage (make SubstreamIDLength) x00 [].
Definition zeroTransportMessage : TransportMessage :=
  mkTransportMessage 0 zeroSubstreamMessage (make ConnectionIDLength).

(** *** recipient.go *)

Definition RecipientFromBytes (b : bytes) : option Recipient :=
  if negb (length b =? RecipientLength)%nat then None
  else
    Some (mkRecipient (copy_at (make 32) 0 (slice b 0 32))
                      (copy_at (make 32) 0 (slice b 32 64))
                      (copy_at (make 32) 0 (drop 64 b))).

Definition Bytes (r : Recipient) : bytes :=
  let out := make RecipientLength in
  let out := copy_range out 0 32 (ClientIdentity r) in
  let out := copy_range out 32 64 (ClientEncryptionKey r) in
  copy_at out 64 (Gateway r).

(** [Recipient.String]. *)
Definition String_ (r : Recipient) : list ascii :=
  Base58.Encode (ClientIdentity r) ++ ["."%char]
    ++ Base58.Encode (ClientEncryptionKey r) ++ ["@"%char]
    ++ Base58.Encode (Gateway r).

(** [strings.Split(s, sep)] for a separator of one character: the
    pieces between the occurrences of [sep], one more than there are
    occurrences. *)
Fixpoint Split (s : list ascii) (sep : ascii) : list (list ascii) :=
  match s with
  | [] => [[]]
  | c :: s' =>
      if Ascii.eqb c sep then [] :: Split s' sep
      else
        match Split s' sep with
        | p :: ps => (c :: p) :: ps
        | [] => [[c]]
        end
  end.

Definition decodeBase58To32 (s : list ascii) : option bytes :=
  match Base58.Decode s with
  | None => None
  | Some decoded =>
      if negb (length decoded =? 32)%nat then None
      else Some (copy_at (make 32) 0 decoded)
  end.

Definition ParseRecipient (s : list ascii) : option Recipient :=
  match Split s "@"%char with
  | [part0; part1] =>
      match Split part0 "."%char with
      | [client0; client1] =>
          match decodeBase58To32 client0 with
          | None => None
          | Some ident =>
              match decodeBase58To32 client1 with
              | None => None
              | Some enc =>
                  match decodeBase58To32 part1 with
                  | None => None
                  | Some gateway => Some (mkRecipient ident enc gateway)
                  end
              end
          end
      | _ => None
      end
  | _ => None
  end.

(** *** encoding.go *)

Definition encodeSubstreamMessage (sm : SubstreamMessage) : bytes :=
  let out := make (SubstreamIDLength + 1 + length (sm_Data sm)) in
  let out := copy_range out 0 SubstreamIDLength (sm_ID sm) in
  let out := <[SubstreamIDLength := sm_Type sm]> out in
  copy_at out (SubstreamIDLength + 1) (sm_Data sm).

Definition decodeSubstreamMessage (data : bytes) : option SubstreamMessage :=
  if (length data <? SubstreamIDLength + 1)%nat then None
  else
    let id := copy_at (make SubstreamIDLength) 0 (take SubstreamIDLength data) in
    let msgType := default x00 (data !! SubstreamIDLength) in
    let payload := drop (SubstreamIDLength + 1) data in
    match msgType with
    | x00 | x01 | x02 =>
        if negb (length payload =? 0)%nat then None
        else Some (mkSubstreamMessage id msgType [])
    | x03 =>
        let buf := copy_at (make (length payload)) 0 payload in
        Some (mkSubstreamMessage id msgType buf)
    | _ => None
    end.

Definition encodeTransportMessage (tm : TransportMessage) : bytes :=
  let substreamBytes := encodeSubstreamMessage (tm_Message tm) in
  let out := make (8 + ConnectionIDLength + length substreamBytes) in
  let out := copy_range out 0 8 (PutUint64 (Nonce tm)) in
  let out := copy_range out 8 (8 + ConnectionIDLength) (tm_ID tm) in
  copy_at out (8 + ConnectionIDLength) substreamBytes.

Definition decodeTransportMessage (data : bytes) : option TransportMessage :=
  let minLen := (8 + ConnectionIDLength + SubstreamIDLength + 1)%nat in
  if (length data <? minLen)%nat then None
  else
    let nonce := Uint64 (take 8 data) in
    let id := copy_at (make ConnectionIDLength) 0
                      (slice data 8 (8 + ConnectionIDLength)) in
    match decodeSubstreamMessage (drop (8 + ConnectionIDLength) data) with
    | None => None
    | Some substream => Some (mkTransportMessage nonce substream id)
    end.

(** The flag and the bytes [encodeConnectionMessage] writes for the
    optional recipient. *)
Definition recipient_flag (rec : option Recipient) : byte :=
  match rec with Some _ => x01 | None => x00 end.

Definition recipient_bytes (rec : option Recipient) : bytes :=
  match rec with Some r => Bytes r | None => [] end.

Definition encodeConnectionMessage (cm : ConnectionMessage) : bytes :=
  let peerBytes := cm_PeerID cm in
  let flag := recipient_flag (cm_Recipient cm) in
  let recipientBytes := recipient_bytes (cm_Recipient cm) in
  let out := make (ConnectionIDLength + 1 + length recipientBytes
                   + length peerBytes) in
  let out := copy_range out 0 ConnectionIDLength (cm_ID cm) in
  let out := <[ConnectionIDLength := flag]> out in
  let offset := (ConnectionIDLength + 1)%nat in
  let out := copy_at out offset recipientBytes in
  let offset := (offset + length recipientBytes)%nat in
  copy_at out offset peerBytes.

Definition Encode (msg : option Message) : option bytes :=
  match msg with
  | None => None
  | Some msg =>
      let payload :=
        match Type_ msg with
        | x00 | x01 =>
            match Connection msg with
            | None => None
            | Some cm => Some (encodeConnectionMessage cm)
            end
        | x02 =>
            match Transport msg with
            | None => None
            | Some tm => Some (encodeTransportMessage tm)
            end
        | _ => None
        end in
      match payload with
      | None => None
      | Some payload =>
          let out := make (1 + length payload) in
          let out := <[0%nat := Type_ msg]> out in
          Some (copy_at out 1 payload)
      end
  end.

Section Decode.

(** [peer.IDFromBytes], whatever it accepts. *)
Variable IDFromBytes : bytes → option PeerID.

Definition decodeConnectionMessage (data : bytes) : option ConnectionMessage :=
  let minLen := (ConnectionIDLength + 1)%nat in
  if (length data <? minLen)%nat then None
  else
    let id := copy_at (make ConnectionIDLength) 0 (take ConnectionIDLength data) in
    let flag := default x00 (data !! ConnectionIDLength) in
    let cursor := (ConnectionIDLength + 1)%nat in
    let parsed : option (option Recipient * nat) :=
      match flag with
      | x01 =>
          if (length data <? cursor + RecipientLength)%nat then None
          else
            match RecipientFromBytes (slice data cursor (cursor + RecipientLength)) with
            | None => None
            | Some rec => Some (Some rec, (cursor + RecipientLength)%nat)
            end
      | x00 => Some (None, cursor)
      | _ => None
      end in
    match parsed with
    | None => None
    | Some (recipient, cursor) =>
        if (length data <=? cursor)%nat then None
        else
          match IDFromBytes (drop cursor data) with
          | None => None
          | Some peerID => Some (mkConnectionMessage peerID recipient id)
          end
    end.

Definition Decode (data : bytes) : option Message :=
  if (length data <? 1)%nat then None
  else
    let msgType := default x00 (data !! 0%nat) in
    let payload := drop 1 data in
    match msgType with
    | x00 | x01 =>
        match decodeConnectionMessage payload with
        | None => None
        | Some cm => Some (mkMessage msgType (Some cm) None)
        end
    | x02 =>
        match decodeTransportMessage payload with
        | None => None
        | Some tm => Some (mkMessage msgType None (Some tm))
        end
    | _ => None
    end.

(** Well-formed values: arrays have their length, a nonce is a
    [uint64], only the message of the tag is present, a control
    substream message has no payload, and the peer identity is one
    [peer.IDFromBytes] returns unchanged. *)
Definition wf_recipient (r : Recipient) : Prop :=
  length (ClientIdentity r) = 32%nat
  ∧ length (ClientEncryptionKey r) = 32%nat
  ∧ length (Gateway r) = 32%nat.

Definition wf_substream (sm : SubstreamMessage) : Prop :=
  length (sm_ID sm) = SubstreamIDLength
  ∧ match sm_Type sm with
    | x00 | x01 | x02 => sm_Data sm = []
    | x03 => True
    | _ => False
    end.

Definition wf_transport (tm : TransportMessage) : Prop :=
  0 ≤ Nonce tm < uint64_max
  ∧ length (tm_ID tm) = ConnectionIDLength
  ∧ wf_substream (tm_Message tm).

Definition wf_connection (cm : ConnectionMessage) : Prop :=
  length (cm_ID cm) = ConnectionIDLength
  ∧ match cm_Recipient cm with Some r => wf_recipient r | None => True end
  ∧ cm_PeerID cm ≠ []
  ∧ IDFromBytes (cm_PeerID cm) = Some (cm_PeerID cm).

Definition wf_message (msg : Message) : Prop :=
  match Type_ msg with
  | x00 | x01 =>
      ∃ cm, Connection msg = Some cm ∧ wf_connection cm ∧ Transport msg = None
  | x02 =>
      ∃ tm, Transport msg = Some tm ∧ wf_transport tm ∧ Connection msg = None
  | _ => False
  end.

End Decode.

(** Sample values: a sha2-256 multihash as peer identity, keys and
    identifiers of 32 bytes. *)
Definition sample_peer : PeerID := [x12; x20] ++ replicate 32 xab.
Definition sample_recipient : Recipient :=
  mkRecipient (replicate 32 x11) (replicate 32 x22) (replicate 32 x33).
Definition sample_request : Message :=
  mkMessage MessageTypeConnectionRequest
    (Some (mkConnectionMessage sample_peer (Some sample_recipient)
                               (replicate 32 x44)))
    None.

(** A transport frame on the wire: tag, nonce 5, connection,
    substream, the data type and two bytes of data; and the message it
    carries. *)
Definition sample_transport_frame : bytes :=
  [x02] ++ PutUint64 5 ++ replicate 32 x44 ++ replicate 32 x22 ++ [x03; x68; x69].
Definition sample_transport : Message :=
  mkMessage MessageTypeTransport None
    (Some (mkTransportMessage 5
             (mkSubstreamMessage (replicate 32 x22) SubstreamMessageData [x68; x69])
             (replicate 32 x44))).

End Message.

(** ** queue/queue.go *)

Module Queue.
Import Message.

Record MessageQueue := mkQueue {
  nextExpectedNonce : Z;
  pending : gmap Z TransportMessage;
  nonces : list Z
}.

Definition New : MessageQueue := mkQueue 0 ∅ [].

(** Panics (here [None]) when the queue is armed already. *)
Definition SetConnectionMessageReceived (mq : MessageQueue) : option MessageQueue :=
  if negb (nextExpectedNonce mq =? 0) then None
  else Some (mkQueue 1 (pending mq) (nonces mq)).

(** The loop of Go's [sort.Search]: [i, j := 0, n; for i < j { h := (i+j)/2;
    if !f(h) { i = h + 1 } else { j = h } }; return i]. *)
Fixpoint search_loop (fuel : nat) (f : nat → bool) (i j : nat) : nat :=
  match fuel with
  | O => i
  | S fuel' =>
      if (i <? j)%nat then
        let h := ((i + j) / 2)%nat in
        if negb (f h) then search_loop fuel' f (h + 1)%nat j
        else search_loop fuel' f i h
      else i
  end.

Definition sort_Search (n : nat) (f : nat → bool) : nat := search_loop n f 0%nat n.

(** [mq.nonces[i]]; the index is in range wherever the source reads it. *)
Definition nonce_at (l : list Z) (i : nat) : Z := default 0 (l !! i).

Definition insertLocked (mq : MessageQueue) (msg : TransportMessage) : MessageQueue :=
  let nonce := Nonce msg in
  let pending' := <[nonce := msg]> (pending mq) in
  let ns := nonces mq in
  let idx := sort_Search (length ns) (λ i, nonce <=? nonce_at ns i) in
  if (idx =? length ns)%nat then
    mkQueue (nextExpectedNonce mq) pending' (ns ++ [nonce])
  else if nonce_at ns idx =? nonce then
    mkQueue (nextExpectedNonce mq) pending' ns
  else
    (* append(ns, 0); copy(ns[idx+1:], ns[idx:]); ns[idx] = nonce *)
    mkQueue (nextExpectedNonce mq) pending'
      (let ns1 := ns ++ [0] in
       <[idx := nonce]> (copy_at ns1 (idx + 1) (drop idx ns1))).

(** The two results (a frame pointer, possibly nil, and a flag) with the
    queue after the call. *)
Definition TryPush (mq : MessageQueue) (msg : TransportMessage)
  : option TransportMessage * bool * MessageQueue :=
  let nonce := Nonce msg in
  if nextExpectedNonce mq =? 0 then
    (* handshake not completed yet, buffer everything *)
    (None, false, insertLocked mq msg)
  else if nonce =? nextExpectedNonce mq then
    (Some msg, true,
     mkQueue (uint64_incr (nextExpectedNonce mq)) (pending mq) (nonces mq))
  else if nonce <? nextExpectedNonce mq then
    (None, false, mq)
  else
    match pending mq !! nonce with
    | Some _ => (None, false, mq)
    | None => (None, false, insertLocked mq msg)
    end.

Definition Pop (mq : MessageQueue)
  : option TransportMessage * bool * MessageQueue :=
  if nextExpectedNonce mq =? 0 then (None, false, mq)
  else
    match nonces mq with
    | [] => (None, false, mq)
    | smallest :: rest =>
        if negb (smallest =? nextExpectedNonce mq) then (None, false, mq)
        else
          let msg := default zeroTransportMessage (pending mq !! smallest) in
          (Some msg, true,
           mkQueue (uint64_incr (nextExpectedNonce mq))
                   (delete smallest (pending mq)) rest)
    end.

Definition PendingNonces (mq : MessageQueue) : list Z := nonces mq.

Definition Reset (mq : MessageQueue) : MessageQueue := mkQueue 0 ∅ [].

(** The frame a call hands to its caller: the callers test
    [ok && ready != nil]. *)
Definition released (r : option TransportMessage * bool * MessageQueue)
  : list TransportMessage :=
  match r with
  | (Some m, true, _) => [m]
  | _ => []
  end.

(** [for { next, ok := Pop(); if !ok || next == nil { break }; ... }]:
    the frames of the successive calls of [Pop] up to the first one that
    returns none.  Every successful [Pop] shortens [nonces], so
    [length nonces + 1] calls are enough ([drain_complete]). *)
Fixpoint pop_loop (fuel : nat) (mq : MessageQueue)
  : list TransportMessage * MessageQueue :=
  match fuel with
  | O => ([], mq)
  | S fuel' =>
      match Pop mq with
      | (Some m, true, mq') =>
          let '(ms, mq'') := pop_loop fuel' mq' in (m :: ms, mq'')
      | _ => ([], mq)
      end
  end.

Definition drain (mq : MessageQueue) : list TransportMessage * MessageQueue :=
  pop_loop (S (length (nonces mq))) mq.

(** One arrival: [TryPush], then [Pop] until it returns none
    (the body of [Conn.handleTransportMessage]). *)
Definition push_then_drain (mq : MessageQueue) (msg : TransportMessage)
  : list TransportMessage * MessageQueue :=
  let r := TryPush mq msg in
  let '(ms, mq') := drain (snd r) in
  (released r ++ ms, mq').

(** The arrivals of a whole sequence, with everything they release. *)
Fixpoint feed (mq : MessageQueue) (msgs : list TransportMessage)
  : list TransportMessage * MessageQueue :=
  match msgs with
  | [] => ([], mq)
  | msg :: rest =>
      let '(out1, mq1) := push_then_drain mq msg in
      let '(out2, mq2) := feed mq1 rest in
      (out1 ++ out2, mq2)
  end.

(** Pushes without any [Pop] in between, keeping every result. *)
Fixpoint push_all (mq : MessageQueue) (msgs : list TransportMessage)
  : list (option TransportMessage * bool) * MessageQueue :=
  match msgs with
  | [] => ([], mq)
  | msg :: rest =>
      let r := TryPush mq msg in
      let '(rs, mq') := push_all (snd r) rest in
      (fst r :: rs, mq')
  end.

Definition frame (n : Z) : TransportMessage :=
  mkTransportMessage n zeroSubstreamMessage (make ConnectionIDLength).

Definition armed : MessageQueue := mkQueue 1 ∅ [].

(** The states of a queue: what the exported operations make of a new
    queue.  A second [SetConnectionMessageReceived] panics and leads
    nowhere. *)
Inductive reachable : MessageQueue → Prop :=
| reach_New : reachable New
| reach_TryPush mq msg : reachable mq → reachable (snd (TryPush mq msg))
| reach_Pop mq : reachable mq → reachable (snd (Pop mq))
| reach_arm mq mq' :
    reachable mq → SetConnectionMessageReceived mq = Some mq' → reachable mq'
| reach_Reset mq : reachable mq → reachable (Reset mq).

End Queue.

(** ** Package mixnet: the gateway request codec *)

Module Mixnet.
Import Message.

Definition requestTagSend : byte := x00.
Definition requestTagSelfAddress : byte := x03.

Definition serializeSelfAddressRequest : bytes := [requestTagSelfAddress].

Definition serializeSendRequest (recipient : Recipient) (payload : bytes) : bytes :=
  let size := (1 + RecipientLength + 8 + 8 + length payload)%nat in
  let buf := make size in
  let buf := <[0%nat := requestTagSend]> buf in
  let buf := copy_range buf 1 (1 + RecipientLength) (Bytes recipient) in
  (* connection id is currently unused, set to zero (already zeroed by make) *)
  let offset := (1 + RecipientLength)%nat in
  let offset := (offset + 8)%nat in
  let buf := copy_range buf offset (offset + 8)
                        (PutUint64 (Z.of_nat (length payload))) in
  let offset := (offset + 8)%nat in
  copy_at buf offset payload.

Definition responseTagError : byte := x00.
Definition responseTagReceived : byte := x01.
Definition responseTagSelfAddress : byte := x02.

Definition senderTagSize : nat := 32.

(** The errors of the response decoder, one for each [fmt.Errorf] and
    for [errUnsupportedSenderTag]. *)
Inductive decode_error :=
| ErrEmptyResponse
| ErrReceivedTooShort
| ErrMissingSenderTag
| ErrUnsupportedSenderTag
| ErrInvalidSenderTagMarker
| ErrMissingLength
| ErrMalformedLength
| ErrSelfAddressLength
| ErrSelfAddressDecode
| ErrErrorTooShort
| ErrErrorLength
| ErrUnknownTag.

Inductive result (A : Type) :=
| Ok (a : A)
| Err (e : decode_error).
Arguments Ok {A} a.
Arguments Err {A} e.

(** [int(v)] for a [uint64] [v], with [int] of 64 bits. *)
Definition int_of_uint64 (v : Z) : Z := if v <? 2 ^ 63 then v else v - 2 ^ 64.

Definition decodeReceivedPayload (data : bytes) : result bytes :=
  if (length data <? 2 + 8)%nat then Err ErrReceivedTooShort
  else
    let hasTag := default x00 (data !! 1%nat) in
    let offset := 2%nat in
    match hasTag with
    | x01 =>
        if (length data <? offset + senderTagSize + 8)%nat
        then Err ErrMissingSenderTag
        else Err ErrUnsupportedSenderTag
    | x00 =>
        if (length data <? offset + 8)%nat then Err ErrMissingLength
        else
          let length_ := Uint64 (slice data offset (offset + 8)) in
          let offset := (offset + 8)%nat in
          if negb (int_of_uint64 length_ =? Z.of_nat (length data - offset))
          then Err ErrMalformedLength
          else Ok (copy_at (make (Z.to_nat length_)) 0 (drop offset data))
    | _ => Err ErrInvalidSenderTagMarker
    end.

(** [serverResponse]: the kind with the payload of its type. *)
Inductive serverResponse :=
| RespReceived (payload : bytes)
| RespSelfAddress (recipient : Recipient)
| RespError (text : bytes).

(** [%d] of a byte. *)
Definition decimal (n : N) : bytes :=
  if (n =? 0)%N then [x30]
  else map (λ d, byte_of_N (48 + d)) (to_digits 10 n).

(** [fmt.Sprintf("remote error code=%d msg=%s", code, string(msg))]. *)
Definition error_text (code : byte) (msg : bytes) : bytes :=
  list_byte_of_string "remote error code=" ++ decimal (Byte.to_N code)
    ++ list_byte_of_string " msg=" ++ msg.

Definition decodeServerResponse (data : bytes) : result serverResponse :=
  match data with
  | [] => Err ErrEmptyResponse
  | tag :: _ =>
      match tag with
      | x01 =>
          match decodeReceivedPayload data with
          | Err e => Err e
          | Ok payload => Ok (RespReceived payload)
          end
      | x02 =>
          if negb (length data =? 1 + RecipientLength)%nat
          then Err ErrSelfAddressLength
          else
            match RecipientFromBytes (drop 1 data) with
            | None => Err ErrSelfAddressDecode
            | Some recipient => Ok (RespSelfAddress recipient)
            end
      | x00 =>
          if (length data <? 2 + 8)%nat then Err ErrErrorTooShort
          else
            let code := default x00 (data !! 1%nat) in
            let msgLen := Uint64 (slice data 2 (2 + 8)) in
            if negb (int_of_uint64 msgLen =? Z.of_nat (length data - (2 + 8)))
            then Err ErrErrorLength
            else Ok (RespError (error_text code (drop 10 data)))
      | _ => Err ErrUnknownTag
      end
  end.

Definition encodeMessagePayload (msg : option Message) : option bytes :=
  match msg with
  | None => None
  | Some _ => Encode msg
  end.

Definition decodeMessagePayload (IDFromBytes : bytes → option PeerID)
    (data : bytes) : option Message :=
  Decode IDFromBytes data.

(** What the writer of the session puts on the wire for one outbound
    message; [None] when the message does not encode (logged, skipped). *)
Definition writer_frame (recipient : Recipient) (msg : option Message)
  : option bytes :=
  match encodeMessagePayload msg with
  | None => None
  | Some payload => Some (serializeSendRequest recipient payload)
  end.

(** The reader goroutine.  Its state is what the [inbound] channel
    holds, [make(chan InboundMessage, 32)], and the number of signals
    it has put on [notifyInbound]. *)
Definition inbound_queue_size : nat := 32.

Record ReaderState := mkReader {
  r_inbound : list Message;
  r_notified : nat
}.

(** One turn of the loop of the reader, for a frame [conn.ReadMessage]
    returned without error while the context is not done.  [binary]
    says whether the frame is a [websocket.BinaryMessage]; [notify] is
    [None] when [notifyInbound] is nil, and otherwise says whether the
    send on it can proceed.  A frame that is not binary, that does not
    decode, or that is no [Received] response is skipped; a decoded
    message is sent on [inbound] when the channel has room and dropped
    when it is full ([select] with [default]). *)
Definition reader_step (IDFromBytes : bytes → option PeerID)
    (notify : option bool) (st : ReaderState) (binary : bool) (data : bytes)
  : ReaderState :=
  if negb binary then st
  else
    match decodeServerResponse data with
    | Ok (RespReceived payload) =>
        match decodeMessagePayload IDFromBytes payload with
        | None => st
        | Some m =>
            if (length (r_inbound st) <? inbound_queue_size)%nat
            then mkReader (r_inbound st ++ [m])
                          (match notify with
                           | Some true => S (r_notified st)
                           | _ => r_notified st
                           end)
            else st    (* inbound queue full, dropping message *)
        end
    | _ => st
    end.

End Mixnet.

(** ** Package transport: substream, conn.go, transport.go

    Go channels are lists of the values buffered in them together with
    a closed flag; a call that would block returns no state.  The
    [Substream] objects are shared between the connection, which indexes
    them, and their readers and writers: they live in a store, by
    address.  So do the byte slices that outbound frames carry. *)

Module Transport.
Import Message Queue.

Definition hex_digit (n : N) : ascii :=
  nth (N.to_nat n) (list_ascii_of_string "0123456789abcdef") "0"%char.

(** [hex.EncodeToString]. *)
Definition hex_EncodeToString (b : bytes) : string :=
  string_of_list_ascii
    (flat_map (λ x, [hex_digit (Byte.to_N x / 16); hex_digit (Byte.to_N x mod 16)])
              b).

Definition connKey (id : ConnectionID) : string := hex_EncodeToString id.
Definition substreamKey (id : SubstreamID) : string := hex_EncodeToString id.

(** *** substream.go *)

Record Substream := mkSubstream {
  s_id : SubstreamID;
  inbound : list bytes;        (* chunks buffered in the channel *)
  inbound_closed : bool;       (* close(s.inbound) was called *)
  buffer : bytes;
  localClosed : bool;
  remoteClosed : bool;
  channelOnce : bool           (* the sync.Once has run *)
}.

(** [make(chan []byte, 32)]. *)
Definition inbound_capacity : nat := 32.

Definition newSubstream (id : SubstreamID) : Substream :=
  mkSubstream id [] false [] false false false.

Definition set_inbound (s : Substream) (q : list bytes) : Substream :=
  mkSubstream (s_id s) q (inbound_closed s) (buffer s)
              (localClosed s) (remoteClosed s) (channelOnce s).

Definition set_buffer (s : Substream) (b : bytes) : Substream :=
  mkSubstream (s_id s) (inbound s) (inbound_closed s) b
              (localClosed s) (remoteClosed s) (channelOnce s).

Definition set_localClosed (s : Substream) : Substream :=
  mkSubstream (s_id s) (inbound s) (inbound_closed s) (buffer s)
              true (remoteClosed s) (channelOnce s).

Definition set_remoteClosed (s : Substream) : Substream :=
  mkSubstream (s_id s) (inbound s) (inbound_closed s) (buffer s)
              (localClosed s) true (channelOnce s).

(** [s.channelOnce.Do(func() { close(s.inbound) })]. *)
Definition close_inbound_once (s : Substream) : Substream :=
  if channelOnce s then s
  else mkSubstream (s_id s) (inbound s) true (buffer s)
                   (localClosed s) (remoteClosed s) true.

(** The result of [Read(p)]: the bytes copied into [p] with a nil error,
    [io.EOF], or the call blocks on the empty channel. *)
Inductive ReadOutcome :=
| ReadOk (data : bytes)
| ReadEOF
| ReadBlocks.

(** [Read(p)] for a [p] of [n] bytes. *)
Definition Read (s : Substream) (n : nat) : ReadOutcome * Substream :=
  if (n =? 0)%nat then (ReadOk [], s)
  else if (length (buffer s) =? 0)%nat then
    match inbound s with
    | data :: rest =>
        let s1 := set_inbound s rest in
        if (length data =? 0)%nat then (ReadOk [], s1)
        else
          let buf := buffer s1 ++ data in
          let k := Nat.min n (length buf) in
          (ReadOk (take k buf), set_buffer s1 (drop k buf))
    | [] =>
        if inbound_closed s then (ReadEOF, s) else (ReadBlocks, s)
    end
  else
    let k := Nat.min n (length (buffer s)) in
    (ReadOk (take k (buffer s)), set_buffer s (drop k (buffer s))).

(** [pushData]: [None] when the call blocks.  [conn_closed] says whether
    [s.conn.closeCh] is closed; when both cases of the [select] are
    ready, [take_close] says which one runs. *)
Definition pushData (conn_closed take_close : bool) (s : Substream) (data : bytes)
  : option Substream :=
  if remoteClosed s || localClosed s then Some s
  else
    let buf := copy_at (make (length data)) 0 data in
    let room := inbound_closed s || (length (inbound s) <? inbound_capacity)%nat in
    if conn_closed && (take_close || negb room) then Some s
    else if inbound_closed s then Some s    (* the send panics; recovered *)
    else if (length (inbound s) <? inbound_capacity)%nat then
      Some (set_inbound s (inbound s ++ [buf]))
    else None.

Definition remoteClose (s : Substream) : Substream :=
  if remoteClosed s then s
  else close_inbound_once (set_remoteClosed s).

(** *** conn.go *)

(** An outbound transport frame; its data is a slice, held by address
    ([None] is nil). *)
Record Frame := mkFrame {
  f_Nonce : Z;
  f_ID : ConnectionID;
  f_Stream : SubstreamID;
  f_Type : byte;
  f_Data : option nat
}.

Record Conn := mkConn {
  c_id : ConnectionID;
  remotePeer : PeerID;
  remoteRecipient : Recipient;
  queue : MessageQueue;
  closed : bool;
  streams : gmap string nat;          (* key -> address of the Substream *)
  pendingOutbound : gmap string nat;
  nonce : Z;
  sent : list (Recipient * Frame);    (* handed to transport.sendMixnetMessage *)
  substreams : gmap nat Substream;    (* the Substream objects, by address *)
  slices : gmap nat bytes             (* byte slices, by address *)
}.

(** The top-level message a frame stands for, with the bytes its slice
    holds in the given store when it is encoded. *)
Definition frame_message (store : gmap nat bytes) (f : Frame) : Message :=
  let data := match f_Data f with
              | Some a => default [] (store !! a)
              | None => []
              end in
  mkMessage MessageTypeTransport None
    (Some (mkTransportMessage (f_Nonce f)
             (mkSubstreamMessage (f_Stream f) (f_Type f) data) (f_ID f))).

Definition newConn (connID : ConnectionID) (remotePeer : PeerID)
    (remoteRecipient : Recipient) (q : MessageQueue) : Conn :=
  mkConn connID remotePeer remoteRecipient q false ∅ ∅ 0 [] ∅ ∅.

Definition set_conn (c : Conn) (streams' pending' : gmap string nat) (nonce' : Z)
    (sent' : list (Recipient * Frame)) (subs' : gmap nat Substream)
    (slices' : gmap nat bytes) : Conn :=
  mkConn (c_id c) (remotePeer c) (remoteRecipient c) (queue c) (closed c)
         streams' pending' nonce' sent' subs' slices'.

Inductive error := ErrSubstreamClosed | ErrCanceled.

(** [sendSubstreamMessage]: the nonce is taken first; then
    [transport.sendMixnetMessage] either hands the message to the
    outbound channel ([delivered]) or returns [context.Canceled]. *)
Definition sendSubstreamMessage (c : Conn) (id : SubstreamID) (typ : byte)
    (data : option nat) (delivered : bool) : option error * Conn :=
  let nonce' := uint64_incr (nonce c) in
  let f := mkFrame nonce' (c_id c) id typ data in
  if delivered then
    (None, set_conn c (streams c) (pendingOutbound c) nonce'
                    (sent c ++ [(remoteRecipient c, f)]) (substreams c) (slices c))
  else
    (Some ErrCanceled,
     set_conn c (streams c) (pendingOutbound c) nonce' (sent c)
              (substreams c) (slices c)).

Definition sendControl (c : Conn) (id : SubstreamID) (typ : byte)
    (delivered : bool) : option error * Conn :=
  sendSubstreamMessage c id typ None delivered.

Definition sendData (c : Conn) (id : SubstreamID) (data : nat)
    (delivered : bool) : option error * Conn :=
  sendSubstreamMessage c id SubstreamMessageData (Some data) delivered.

Definition getStream (c : Conn) (id : SubstreamID) : option nat :=
  streams c !! substreamKey id.

Definition removeStream (c : Conn) (id : SubstreamID) : Conn :=
  let key := substreamKey id in
  set_conn c (delete key (streams c)) (delete key (pendingOutbound c))
           (nonce c) (sent c) (substreams c) (slices c).

Definition closeLocalStream (c : Conn) (id : SubstreamID) (delivered : bool) : Conn :=
  if closed c then c
  else removeStream (snd (sendControl c id SubstreamMessageClose delivered)) id.

Definition update_substream (c : Conn) (a : nat) (s : Substream) : Conn :=
  set_conn c (streams c) (pendingOutbound c) (nonce c) (sent c)
           (<[a := s]> (substreams c)) (slices c).

(** [closeWithControl] on the substream at address [a]. *)
Definition closeWithControl (c : Conn) (a : nat) (sendCtl delivered : bool) : Conn :=
  match substreams c !! a with
  | None => c
  | Some s =>
      if localClosed s then c
      else
        let s1 := set_localClosed s in
        let c1 := update_substream c a s1 in
        let c2 := if sendCtl then closeLocalStream c1 (s_id s1) delivered else c1 in
        update_substream c2 a (close_inbound_once (set_remoteClosed s1))
  end.

Definition Close (c : Conn) (a : nat) (delivered : bool) : Conn :=
  closeWithControl c a true delivered.
Definition CloseWrite (c : Conn) (a : nat) (delivered : bool) : Conn :=
  closeWithControl c a true delivered.
Definition CloseRead (c : Conn) (a : nat) (delivered : bool) : Conn :=
  closeWithControl c a false delivered.
Definition Reset_ (c : Conn) (a : nat) (delivered : bool) : Conn :=
  closeWithControl c a true delivered.

(** [Substream.Read] on the object at address [a]. *)
Definition Substream_Read (c : Conn) (a : nat) (n : nat) : option (ReadOutcome * Conn) :=
  match substreams c !! a with
  | None => None
  | Some s => let '(r, s') := Read s n in Some (r, update_substream c a s')
  end.

Inductive WriteOutcome :=
| WriteOk (n : nat)
| WriteErr (e : error).

(** [Substream.Write(p)]: [p] is the address of the caller's slice. *)
Definition Write (c : Conn) (a : nat) (p : nat) (delivered : bool)
  : option (WriteOutcome * Conn) :=
  match substreams c !! a, slices c !! p with
  | Some s, Some content =>
      if localClosed s then Some (WriteErr ErrSubstreamClosed, c)
      else
        let buf := fresh (dom (slices c)) in
        let c1 := set_conn c (streams c) (pendingOutbound c) (nonce c) (sent c)
                    (substreams c)
                    (<[buf := copy_at (make (length content)) 0 content]> (slices c)) in
        match sendData c1 (s_id s) buf delivered with
        | (Some e, c2) => Some (WriteErr e, c2)
        | (None, c2) => Some (WriteOk (length content), c2)
        end
  | _, _ => None
  end.

(** [handleData]: [None] when [pushData] blocks. *)
Definition handleData (c : Conn) (id : SubstreamID) (data : bytes)
    (take_close : bool) : option Conn :=
  match getStream c id with
  | None => Some c
  | Some a =>
      match substreams c !! a with
      | None => Some c
      | Some s =>
          match pushData (closed c) take_close s data with
          | None => None
          | Some s' => Some (update_substream c a s')
          end
      end
  end.

(** *** transport.go: the two indices *)

Record dialState := mkDialState {
  ds_remoteRecipient : Recipient;
  resultCh : list Conn            (* [make(chan *Conn, 1)] *)
}.

Record TransportState := mkTransport {
  connections : gmap string Conn;
  pendingDials : gmap string dialState
}.

Definition newTransport : TransportState := mkTransport ∅ ∅.

(** The registration of [Dial], under the lock: [None] is the error
    "connection id collision". *)
Definition Dial_register (t : TransportState) (connID : ConnectionID)
    (recipient : Recipient) : option TransportState :=
  let key := connKey connID in
  match pendingDials t !! key with
  | Some _ => None
  | None =>
      Some (mkTransport (connections t)
              (<[key := mkDialState recipient []]> (pendingDials t)))
  end.

Definition removePendingDial (t : TransportState) (key : string) : TransportState :=
  match pendingDials t !! key with
  | Some _ => mkTransport (connections t) (delete key (pendingDials t))
  | None => t
  end.

Definition removeConnection (t : TransportState) (id : ConnectionID) : TransportState :=
  mkTransport (delete (connKey id) (connections t)) (pendingDials t).

(** [handleConnectionRequest]: [addr_ok] says whether [newConn] could
    build the remote address, [delivered] whether the response went out;
    the flag returned is [true] for a nil error. *)
Definition handleConnectionRequest (t : TransportState) (connMsg : ConnectionMessage)
    (addr_ok delivered : bool) : bool * TransportState :=
  match cm_Recipient connMsg with
  | None => (false, t)
  | Some recipient =>
      let key := connKey (cm_ID connMsg) in
      match connections t !! key with
      | Some _ => (false, t)
      | None =>
          if negb addr_ok then (false, t)
          else
            let conn := newConn (cm_ID connMsg) (cm_PeerID connMsg) recipient armed in
            let t1 := mkTransport (<[key := conn]> (connections t)) (pendingDials t) in
            if delivered then (true, t1)
            else (false, removeConnection t1 (cm_ID connMsg))   (* conn.Close() *)
      end
  end.

Definition handleConnectionResponse (t : TransportState) (connMsg : ConnectionMessage)
    (addr_ok : bool) : bool * TransportState :=
  let key := connKey (cm_ID connMsg) in
  match pendingDials t !! key with
  | None => (false, t)
  | Some state =>
      let t1 := mkTransport (connections t) (delete key (pendingDials t)) in
      if negb addr_ok then (false, t1)
      else
        let conn := newConn (cm_ID connMsg) (cm_PeerID connMsg)
                            (ds_remoteRecipient state) armed in
        let t2 := mkTransport (<[key := conn]> (connections t1)) (pendingDials t1) in
        if (length (resultCh state) <? 1)%nat then (true, t2)
        else (true, removeConnection t2 (cm_ID connMsg))   (* conn.Close() *)
  end.

(** [Transport.Close] empties both indices. *)
Definition Transport_Close (t : TransportState) : TransportState := mkTransport ∅ ∅.

(** The steps that touch the indices, each atomic. *)
Inductive Event :=
| EvDial (connID : ConnectionID) (recipient : Recipient)
| EvDialRemove (connID : ConnectionID)
| EvRequest (connMsg : ConnectionMessage) (addr_ok delivered : bool)
| EvResponse (connMsg : ConnectionMessage) (addr_ok : bool)
| EvConnClose (connID : ConnectionID)
| EvClose.

Definition step (t : TransportState) (e : Event) : TransportState :=
  match e with
  | EvDial connID recipient => default t (Dial_register t connID recipient)
  | EvDialRemove connID => removePendingDial t (connKey connID)
  | EvRequest connMsg addr_ok delivered =>
      snd (handleConnectionRequest t connMsg addr_ok delivered)
  | EvResponse connMsg addr_ok => snd (handleConnectionResponse t connMsg addr_ok)
  | EvConnClose connID => removeConnection t connID
  | EvClose => Transport_Close t
  end.

Definition run (t : TransportState) (es : list Event) : TransportState :=
  fold_left step es t.

(** A dial does not draw the ID of a live connection, and no request
    arrives under the ID of a pending dial. *)
Definition no_clash (t : TransportState) (e : Event) : Prop :=
  match e with
  | EvDial connID _ => connections t !! connKey connID = None
  | EvRequest connMsg _ _ => pendingDials t !! connKey (cm_ID connMsg) = None
  | _ => True
  end.

Fixpoint no_clashes (t : TransportState) (es : list Event) : Prop :=
  match es with
  | [] => True
  | e :: es' => no_clash t e ∧ no_clashes (step t e) es'
  end.

Definition indices_disjoint (t : TransportState) : Prop :=
  ∀ key, ¬ (is_Some (pendingDials t !! key) ∧ is_Some (connections t !! key)).

(** Sample values. *)
Definition sample_id : ConnectionID := replicate 32 x44.
Definition sample_stream_id : SubstreamID := replicate 32 x22.
Definition sample_conn_request : ConnectionMessage :=
  mkConnectionMessage sample_peer (Some sample_recipient) sample_id.
Definition sample_conn_response : ConnectionMessage :=
  mkConnectionMessage sample_peer None sample_id.

(** A connection with one open substream at address 0, holding the
    given chunks and residual buffer, and the caller's slice "hi" at
    address 7. *)
Definition sample_substream (chunks : list bytes) (residual : bytes) : Substream :=
  mkSubstream sample_stream_id chunks false residual false false false.
Definition sample_conn (chunks : list bytes) (residual : bytes) : Conn :=
  mkConn sample_id sample_peer sample_recipient armed false
         {[substreamKey sample_stream_id := 0%nat]} ∅ 0 []
         {[0%nat := sample_substream chunks residual]}
         {[7%nat := [x68; x69]]}.

(** *** More of conn.go and substream.go *)

Definition handleOpenResponse (c : Conn) (id : SubstreamID) : Conn :=
  let key := substreamKey id in
  match pendingOutbound c !! key with
  | None => c
  | Some a =>
      set_conn c (<[key := a]> (streams c)) (delete key (pendingOutbound c))
               (nonce c) (sent c) (substreams c) (slices c)
  end.

Definition handleClose (c : Conn) (id : SubstreamID) : Conn :=
  let c1 := removeStream c id in
  match getStream c id with
  | None => c1
  | Some a =>
      match substreams c !! a with
      | None => c1
      | Some s => update_substream c1 a (remoteClose s)
      end
  end.

(** [OpenStream] up to its wait for the response; [id] is the
    identifier [GenerateSubstreamID] drew.  The new [Substream] object
    is put at a fresh address.  No error means that the call now waits
    on [pending.ready]. *)
Inductive OpenError := OpenErrReset | OpenErrSend (e : error).

Definition OpenStream_request (c : Conn) (id : SubstreamID) (delivered : bool)
  : option OpenError * Conn :=
  if closed c then (Some OpenErrReset, c)
  else
    let a := fresh (dom (substreams c)) in
    let key := substreamKey id in
    let c1 := set_conn c (streams c) (<[key := a]> (pendingOutbound c))
                (nonce c) (sent c) (<[a := newSubstream id]> (substreams c))
                (slices c) in
    match sendControl c1 id SubstreamMessageOpenRequest delivered with
    | (Some e, c2) =>
        (Some (OpenErrSend e),
         set_conn c2 (streams c2) (delete key (pendingOutbound c2))
                  (nonce c2) (sent c2) (substreams c2) (slices c2))
    | (None, c2) => (None, c2)
    end.

(** The wait of [OpenStream] ends with [ctx.Done()]: the pending entry
    is deleted. *)
Definition OpenStream_cancel (c : Conn) (id : SubstreamID) : Conn :=
  set_conn c (streams c) (delete (substreamKey id) (pendingOutbound c))
           (nonce c) (sent c) (substreams c) (slices c).


(** Successive calls of [sendSubstreamMessage], each with the stream,
    the type, the data and whether the send went through. *)
Definition send_all (c : Conn) (ops : list (SubstreamID * byte * option nat * bool))
  : Conn :=
  fold_left (λ c '(id, typ, data, delivered),
               snd (sendSubstreamMessage c id typ data delivered)) ops c.

(** A reader that calls [Read] with a buffer of [n] bytes until it gets
    [io.EOF] or would block, and gathers what it read.  The outcome is
    [None] when the bound on the number of calls ran out. *)
Fixpoint read_all (fuel : nat) (s : Substream) (n : nat)
  : bytes * option ReadOutcome * Substream :=
  match fuel with
  | O => ([], None, s)
  | S fuel' =>
      match Read s n with
      | (ReadOk data, s') =>
          let '(rest, r, s'') := read_all fuel' s' n in (data ++ rest, r, s'')
      | (r, s') => ([], Some r, s')
      end
  end.

(** Successive calls of [Read] with buffers of the given sizes, and
    the bytes an outcome carries. *)
Fixpoint read_seq (s : Substream) (ns : list nat) : list ReadOutcome * Substream :=
  match ns with
  | [] => ([], s)
  | n :: ns' =>
      let '(r, s1) := Read s n in
      let '(rs, s2) := read_seq s1 ns' in
      (r :: rs, s2)
  end.

Definition outcome_data (r : ReadOutcome) : bytes :=
  match r with
  | ReadOk data => data
  | _ => []
  end.

(** The bytes a substream holds for its reader, and a bound on the
    number of successful reads they allow. *)
Definition unread (s : Substream) : bytes := buffer s ++ concat (inbound s).
Definition read_budget (s : Substream) : nat :=
  (length (buffer s) + length (concat (inbound s)) + length (inbound s))%nat.

(** Every connection is indexed under the key of its own ID. *)
Definition keyed_by_id (t : TransportState) : Prop :=
  ∀ key conn, connections t !! key = Some conn → key = connKey (c_id conn).

(** The channel of a substream is closed by its [sync.Once] only, and
    exactly when the substream is remote-closed; it never holds more
    chunks than its capacity. *)
Definition substream_inv (s : Substream) : Prop :=
  channelOnce s = inbound_closed s
  ∧ inbound_closed s = remoteClosed s
  ∧ (length (inbound s) ≤ inbound_capacity)%nat.

End Transport.

(** * Properties *)

(** ** The reordering queue *)

Module QueueFacts.
Import Message Queue.

(** [sort.Search] on a monotone predicate returns the least index at
    which it holds, or [n] when there is none. *)
Lemma search_loop_least (f : nat → bool) (n : nat) :
  (∀ a b, (a ≤ b < n)%nat → f a = true → f b = true) →
  ∀ fuel i j,
    (j - i ≤ fuel)%nat → (i ≤ j ≤ n)%nat →
    (∀ k, (k < i)%nat → f k = false) →
    (∀ k, (j ≤ k < n)%nat → f k = true) →
    let r := search_loop fuel f i j in
    (i ≤ r ≤ j)%nat ∧ (∀ k, (k < r)%nat → f k = false)
    ∧ (∀ k, (r ≤ k < n)%nat → f k = true).
Proof.
  intros Hmono fuel. induction fuel as [|fuel IH]; intros i j Hfuel Hij Hlo Hhi;
    cbn [search_loop].
  - assert (i = j) by lia. subst. repeat split; auto; lia.
  - destruct (Nat.ltb_spec i j) as [Hlt|Hge].
    + pose proof (Nat.div_mod_eq (i + j) 2) as Hdm.
      pose proof (Nat.mod_upper_bound (i + j) 2 ltac:(lia)) as Hmb.
      set (h := ((i + j) / 2)%nat) in *.
      destruct (f h) eqn:Hfh; cbn [negb].
      * destruct (IH i h) as (H1 & H2 & H3); try lia; auto.
        { intros k Hk. apply (Hmono h k); [lia | done]. }
        repeat split; auto; lia.
      * destruct (IH (h + 1)%nat j) as (H1 & H2 & H3); try lia; auto.
        { intros k Hk. destruct (f k) eqn:Hfk; [|done].
          rewrite <- Hfh. symmetry. apply (Hmono k h); [lia | done]. }
        repeat split; auto; lia.
    + assert (i = j) by lia. subst. repeat split; auto; lia.
Qed.

Lemma sort_Search_least (f : nat → bool) (n : nat) :
  (∀ a b, (a ≤ b < n)%nat → f a = true → f b = true) →
  let r := sort_Search n f in
  (r ≤ n)%nat ∧ (∀ k, (k < r)%nat → f k = false)
  ∧ (∀ k, (r ≤ k < n)%nat → f k = true).
Proof.
  intros Hmono. unfold sort_Search.
  destruct (search_loop_least f n Hmono n 0%nat n) as (H1 & H2 & H3);
    try lia; [intros; lia..|].
  repeat split; auto; lia.
Qed.

Lemma sorted_lookup_lt (l : list Z) (a b : nat) (x y : Z) :
  StronglySorted Z.lt l → (a < b)%nat →
  l !! a = Some x → l !! b = Some y → x < y.
Proof.
  intros Hs. revert a b. induction Hs as [|z l Hs IH Hall]; intros a b Hab Ha Hb.
  - by rewrite lookup_nil in Ha.
  - destruct b as [|b]; [lia|]. simpl in Hb. destruct a as [|a]; simpl in Ha.
    + simplify_eq. rewrite Forall_forall in Hall. apply Hall.
      by eapply list_elem_of_lookup_2.
    + eapply IH; [|done..]. lia.
Qed.

(** The index [sort.Search] finds in a sorted [nonces] splits it into the
    nonces below the new one and those from it on. *)
Lemma search_nonces_split (ns : list Z) (nonce : Z) :
  StronglySorted Z.lt ns →
  let idx := sort_Search (length ns) (λ i, nonce <=? nonce_at ns i) in
  (idx ≤ length ns)%nat
  ∧ Forall (λ x, x < nonce) (take idx ns)
  ∧ Forall (λ x, nonce ≤ x) (drop idx ns).
Proof.
  intros Hs idx.
  destruct (sort_Search_least (λ i, nonce <=? nonce_at ns i) (length ns))
    as (Hle & Hlo & Hhi).
  { intros a b [Hab Hb] Ha. apply Z.leb_le in Ha. apply Z.leb_le.
    destruct (decide (a = b)) as [->|Hne]; [done|].
    destruct (lookup_lt_is_Some_2 ns a ltac:(lia)) as [x Hx].
    destruct (lookup_lt_is_Some_2 ns b ltac:(lia)) as [y Hy].
    unfold nonce_at in *. rewrite Hx in Ha. rewrite Hy. simpl in *.
    pose proof (sorted_lookup_lt ns a b x y Hs ltac:(lia) Hx Hy). lia. }
  fold idx in Hle, Hlo, Hhi. split; [done|]. split.
  - apply Forall_lookup_2. intros k x Hk.
    apply lookup_take_Some in Hk as [Hk Hki].
    specialize (Hlo k Hki). unfold nonce_at in Hlo. rewrite Hk in Hlo.
    simpl in Hlo. apply Z.leb_gt in Hlo. done.
  - apply Forall_lookup_2. intros k x Hk. rewrite lookup_drop in Hk.
    pose proof (lookup_lt_Some _ _ _ Hk).
    specialize (Hhi (idx + k)%nat ltac:(lia)). unfold nonce_at in Hhi.
    rewrite Hk in Hhi. simpl in Hhi. by apply Z.leb_le.
Qed.

(** [append(ns, 0); copy(ns[idx+1:], ns[idx:]); ns[idx] = nonce] opens a
    slot at [idx] and puts the nonce there. *)
Lemma shift_insert (ns : list Z) (idx : nat) (nonce : Z) :
  (idx < length ns)%nat →
  <[idx := nonce]> (copy_at (ns ++ [0]) (idx + 1) (drop idx (ns ++ [0])))
  = take idx ns ++ nonce :: drop idx ns.
Proof.
  intros Hidx. unfold copy_at, copy_range.
  rewrite !length_app, length_drop, length_app. simpl.
  rewrite (take_app_le ns [0]) by lia.
  rewrite (drop_app_le ns [0]) by lia.
  replace (length ns + 1 - (idx + 1))%nat with (length (drop idx ns))
    by (rewrite length_drop; lia).
  rewrite take_app_length.
  rewrite (drop_ge (ns ++ [0]))
    by (rewrite length_app, length_drop; simpl; lia).
  rewrite app_nil_r.
  destruct (lookup_lt_is_Some_2 ns idx Hidx) as [x Hx].
  replace (idx + 1)%nat with (S idx) by lia.
  rewrite (take_S_r ns idx x Hx), <- app_assoc. simpl.
  rewrite insert_app_r_alt by (rewrite length_take; lia).
  rewrite length_take. replace (idx - idx `min` length ns)%nat with 0%nat by lia.
  done.
Qed.

(** What [insertLocked] does to the sorted index: the nonce takes its
    place between the smaller and the larger ones, and a nonce that is
    there already is not entered twice. *)
Lemma insertLocked_shape (mq : MessageQueue) (msg : TransportMessage) :
  StronglySorted Z.lt (nonces mq) →
  ∃ l1 l2,
    (nonces mq = l1 ++ l2 ∨ nonces mq = l1 ++ Nonce msg :: l2)
    ∧ nonces (insertLocked mq msg) = l1 ++ Nonce msg :: l2
    ∧ Forall (λ x, x < Nonce msg) l1
    ∧ Forall (λ x, Nonce msg < x) l2.
Proof.
  intros Hs. unfold insertLocked.
  destruct (search_nonces_split (nonces mq) (Nonce msg) Hs) as (Hle & Hlo & Hhi).
  set (idx := sort_Search _ _) in *.
  destruct (Nat.eqb_spec idx (length (nonces mq))) as [Heq|Hne].
  - exists (nonces mq), []. cbn [nonces]. rewrite app_nil_r.
    rewrite Heq, firstn_all in Hlo. auto.
  - assert (Hlt : (idx < length (nonces mq))%nat) by lia.
    destruct (lookup_lt_is_Some_2 _ _ Hlt) as [x Hx].
    pose proof (take_drop_middle _ _ _ Hx) as Hmid.
    rewrite (drop_S _ _ _ Hx) in Hhi. apply Forall_cons in Hhi as [Hx' Hhi].
    assert (Hgt : Forall (λ y, x < y) (drop (S idx) (nonces mq))).
    { rewrite <- Hmid in Hs. apply StronglySorted_app_1_r in Hs.
      by apply StronglySorted_cons in Hs as [? _]. }
    unfold nonce_at. rewrite Hx. cbn [default from_option id].
    destruct (Z.eqb_spec x (Nonce msg)) as [Hxn|Hxn]; cbn [nonces].
    + exists (take idx (nonces mq)), (drop (S idx) (nonces mq)).
      subst x. repeat split; auto.
    + exists (take idx (nonces mq)), (x :: drop (S idx) (nonces mq)).
      rewrite shift_insert by done. rewrite (drop_S _ _ _ Hx).
      repeat split; auto. constructor; [lia|].
      eapply Forall_impl; [exact Hgt|]. intros; simpl in *; lia.
Qed.

(** The state invariant of the queue: the index is strictly increasing,
    it lists exactly the keys of the pending map, and every frame is
    stored under its own nonce. *)
Record queue_inv (mq : MessageQueue) : Prop := mkQueueInv {
  inv_sorted : StronglySorted Z.lt (nonces mq);
  inv_dom : ∀ n, n ∈ nonces mq ↔ is_Some (pending mq !! n);
  inv_key : ∀ n m, pending mq !! n = Some m → Nonce m = n
}.

Lemma New_inv : queue_inv New.
Proof.
  split; cbn.
  - constructor.
  - intros n. rewrite lookup_empty, elem_of_nil. split; [done|]. by intros [? ?].
  - intros n m. by rewrite lookup_empty.
Qed.

Lemma insertLocked_elem (mq : MessageQueue) (msg : TransportMessage) (n : Z) :
  StronglySorted Z.lt (nonces mq) →
  n ∈ nonces (insertLocked mq msg) ↔ n = Nonce msg ∨ n ∈ nonces mq.
Proof.
  intros Hs. destruct (insertLocked_shape mq msg Hs) as (l1 & l2 & [H|H] & -> & _);
    rewrite H; set_solver.
Qed.

Lemma insertLocked_pending (mq : MessageQueue) (msg : TransportMessage) :
  pending (insertLocked mq msg) = <[Nonce msg := msg]> (pending mq).
Proof. unfold insertLocked. by repeat case_match. Qed.

Lemma insertLocked_next (mq : MessageQueue) (msg : TransportMessage) :
  nextExpectedNonce (insertLocked mq msg) = nextExpectedNonce mq.
Proof. unfold insertLocked. by repeat case_match. Qed.

Lemma insertLocked_inv (mq : MessageQueue) (msg : TransportMessage) :
  queue_inv mq → queue_inv (insertLocked mq msg).
Proof.
  intros [Hs Hd Hk]. split.
  - destruct (insertLocked_shape mq msg Hs) as (l1 & l2 & Hold & -> & Hlo & Hhi).
    assert (Hs12 : StronglySorted Z.lt l1 ∧ StronglySorted Z.lt l2).
    { destruct Hold as [H|H]; rewrite H in Hs;
        apply StronglySorted_app in Hs as (_ & ? & Hs2); [done|].
      apply StronglySorted_cons in Hs2 as [_ ?]. done. }
    destruct Hs12 as [Hs1 Hs2]. apply StronglySorted_app_2; [|done|].
    + rewrite Forall_forall in Hlo, Hhi. intros x1 x2 H1 H2.
      apply elem_of_cons in H2 as [->|H2]; [by apply Hlo|].
      specialize (Hlo _ H1). specialize (Hhi _ H2). simpl in *. lia.
    + by constructor.
  - intros n. rewrite insertLocked_elem, insertLocked_pending by done.
    rewrite lookup_insert. case_decide; subst.
    + split; [eauto|auto].
    + rewrite <- Hd. split; [intros [?|?]; [congruence|done]|auto].
  - intros n m. rewrite insertLocked_pending, lookup_insert.
    case_decide; subst; [congruence|apply Hk].
Qed.

Lemma uint64_mod_small (e : Z) : 0 ≤ e < uint64_max → e mod uint64_max = e.
Proof. intros. by apply Z.mod_small. Qed.

Lemma uint64_mod_top : uint64_max mod uint64_max = 0.
Proof. reflexivity. Qed.

(** [Pop] on a queue whose smallest nonce is not the expected one. *)
Lemma Pop_blocked (mq : MessageQueue) :
  match nonces mq with
  | [] => True
  | n :: _ => n ≠ nextExpectedNonce mq
  end →
  Pop mq = (None, false, mq).
Proof.
  unfold Pop. intros H. destruct (nextExpectedNonce mq =? 0); [done|].
  destruct (nonces mq) as [|n rest]; [done|].
  destruct (Z.eqb_spec n (nextExpectedNonce mq)); [done|]. done.
Qed.

(** [Pop] on an armed queue whose smallest nonce is the expected one. *)
Lemma Pop_fire (mq : MessageQueue) (n : Z) (rest : list Z) :
  nextExpectedNonce mq ≠ 0 → nonces mq = n :: rest →
  n = nextExpectedNonce mq →
  Pop mq = (Some (default zeroTransportMessage (pending mq !! n)), true,
            mkQueue (uint64_incr n) (delete n (pending mq)) rest).
Proof.
  intros Hz Hn ->. unfold Pop. rewrite Hn.
  destruct (Z.eqb_spec (nextExpectedNonce mq) 0); [done|].
  by rewrite Z.eqb_refl.
Qed.

Lemma Pop_fire_inv (mq : MessageQueue) (n : Z) (rest : list Z) :
  queue_inv mq → nonces mq = n :: rest →
  queue_inv (mkQueue (uint64_incr n) (delete n (pending mq)) rest)
  ∧ Forall (λ x, n < x) rest
  ∧ ∃ m, pending mq !! n = Some m ∧ Nonce m = n.
Proof.
  intros [Hs Hd Hk] Hn. rewrite Hn in Hs, Hd.
  apply StronglySorted_cons in Hs as [Hall Hs].
  assert (Hnot : n ∉ rest).
  { intros Hin. rewrite Forall_forall in Hall. specialize (Hall _ Hin). lia. }
  split; [split; cbn|split; [done|]].
  - done.
  - intros x. rewrite lookup_delete. case_decide; subst.
    + split; [done|]. by intros [? ?].
    + rewrite <- Hd, elem_of_cons. naive_solver.
  - intros x m. rewrite lookup_delete. case_decide; [done|apply Hk].
  - destruct (proj1 (Hd n)) as [m Hm]; [left|]. eauto.
Qed.

(** The loop of [Pop] on an armed queue whose pending nonces are all at
    least the expected one [e]: it returns the frames [e], [e+1], ...,
    [e+j-1] that are pending, stops at the first missing nonce [e+j],
    and its last call of [Pop] returned none. *)
Lemma pop_loop_run (fuel : nat) :
  ∀ (mq : MessageQueue) (e : Z),
    queue_inv mq → 1 ≤ e ≤ uint64_max →
    nextExpectedNonce mq = e mod uint64_max →
    Forall (λ n, e ≤ n < uint64_max) (nonces mq) →
    (length (nonces mq) < fuel)%nat →
    ∃ j out mq',
      pop_loop fuel mq = (out, mq')
      ∧ 0 ≤ j ∧ e + j ≤ uint64_max
      ∧ Nonce <$> out = seqZ e j
      ∧ (∀ m, m ∈ out → pending mq !! Nonce m = Some m)
      ∧ nextExpectedNonce mq' = (e + j) mod uint64_max
      ∧ queue_inv mq'
      ∧ Forall (λ n, e + j < n < uint64_max) (nonces mq')
      ∧ (∀ n, n ∈ nonces mq ↔ e ≤ n < e + j ∨ n ∈ nonces mq')
      ∧ (∀ n m, pending mq' !! n = Some m → pending mq !! n = Some m)
      ∧ Pop mq' = (None, false, mq').
Proof.
  induction fuel as [|fuel IH]; intros mq e Hinv He Hnext Hall Hfuel; [lia|].
  assert (Hstop : match nonces mq with
                  | [] => True | n :: _ => n ≠ nextExpectedNonce mq end →
    ∃ j out mq', pop_loop (S fuel) mq = (out, mq')
      ∧ 0 ≤ j ∧ e + j ≤ uint64_max
      ∧ Nonce <$> out = seqZ e j
      ∧ (∀ m, m ∈ out → pending mq !! Nonce m = Some m)
      ∧ nextExpectedNonce mq' = (e + j) mod uint64_max
      ∧ queue_inv mq'
      ∧ Forall (λ n, e + j < n < uint64_max) (nonces mq')
      ∧ (∀ n, n ∈ nonces mq ↔ e ≤ n < e + j ∨ n ∈ nonces mq')
      ∧ (∀ n m, pending mq' !! n = Some m → pending mq !! n = Some m)
      ∧ Pop mq' = (None, false, mq')).
  { intros Hb. pose proof (Pop_blocked mq Hb) as HP.
    exists 0, [], mq. cbn [pop_loop]. rewrite HP, Z.add_0_r.
    split_and!; try done; try lia.
    - intros m Hm. by apply elem_of_nil in Hm.
    - destruct (nonces mq) as [|n rest] eqn:Hn; [constructor|].
      pose proof Hall as Hall'. apply Forall_cons in Hall' as [Hn1 _].
      cbv beta in Hn1. assert (e < uint64_max) by lia.
      rewrite Hnext, uint64_mod_small in Hb by lia.
      destruct (Pop_fire_inv mq n rest Hinv Hn) as (_ & Hgt & _).
      constructor; [cbv beta; lia|].
      rewrite Forall_forall in Hgt, Hall. apply Forall_forall. intros x Hx.
      specialize (Hgt x Hx). specialize (Hall x ltac:(by right)).
      simpl in *. lia.
    - intros n. split; [by right|]. intros [?|?]; [lia|done]. }
  destruct (nonces mq) as [|n rest] eqn:Hn; [by apply Hstop|].
  destruct (decide (n = nextExpectedNonce mq)) as [Heq|Hne]; [|by apply Hstop].
  clear Hstop. pose proof Hall as Hall'. apply Forall_cons in Hall' as [Hn1 Hrest].
  cbv beta in Hn1. assert (Hlt : e < uint64_max) by lia.
  rewrite uint64_mod_small in Hnext by lia.
  rewrite Hnext in Heq. subst n.
  destruct (Pop_fire_inv mq e rest Hinv Hn) as (Hinv' & Hgt & m & Hm & Hmn).
  assert (Hnz : nextExpectedNonce mq ≠ 0) by lia.
  pose proof (Pop_fire mq e rest Hnz Hn (eq_sym Hnext)) as HP.
  rewrite Hm in HP. cbn [default from_option id] in HP.
  set (mq1 := mkQueue (uint64_incr e) (delete e (pending mq)) rest) in *.
  destruct (IH mq1 (e + 1)) as (j & out & mq' & Hrun & Hj & Hej & Hout & Hfrom
                               & Hnext' & Hinv'' & Hall'' & Hmem & Hsub & Hlast).
  - done.
  - lia.
  - done.
  - cbn. rewrite Forall_forall in Hgt, Hrest. apply Forall_forall.
    intros x Hx. specialize (Hgt x Hx). specialize (Hrest x Hx). simpl in *. lia.
  - cbn. simpl in Hfuel. lia.
  - exists (j + 1), (m :: out), mq'. cbn [pop_loop]. rewrite HP, Hrun.
    replace (e + (j + 1)) with (e + 1 + j) by lia.
    split_and!; try done; try lia.
    + rewrite fmap_cons, Hmn, Hout.
      rewrite (seqZ_cons e (j + 1)) by lia.
      by replace (Z.succ e) with (e + 1) by lia;
         replace (Z.pred (j + 1)) with j by lia.
    + intros m' Hm'. apply elem_of_cons in Hm' as [->|Hm']; [by rewrite Hmn|].
      specialize (Hfrom m' Hm'). cbn in Hfrom.
      by apply lookup_delete_Some in Hfrom as [_ ?].
    + intros n. split.
      * intros Hx. apply elem_of_cons in Hx as [->|Hx]; [left; lia|].
        apply Hmem in Hx as [?|?]; [left; lia|by right].
      * intros [Hx|Hx].
        -- destruct (decide (n = e)) as [->|?]; [by left|].
           right. apply Hmem. left. lia.
        -- right. apply Hmem. by right.
    + intros x m' Hx. apply Hsub in Hx. cbn in Hx.
      by apply lookup_delete_Some in Hx as [_ ?].
Qed.

Lemma drain_run (mq : MessageQueue) (e : Z) :
  queue_inv mq → 1 ≤ e ≤ uint64_max →
  nextExpectedNonce mq = e mod uint64_max →
  Forall (λ n, e ≤ n < uint64_max) (nonces mq) →
  ∃ j out mq',
    drain mq = (out, mq')
    ∧ 0 ≤ j ∧ e + j ≤ uint64_max
    ∧ Nonce <$> out = seqZ e j
    ∧ (∀ m, m ∈ out → pending mq !! Nonce m = Some m)
    ∧ nextExpectedNonce mq' = (e + j) mod uint64_max
    ∧ queue_inv mq'
    ∧ Forall (λ n, e + j < n < uint64_max) (nonces mq')
    ∧ (∀ n, n ∈ nonces mq ↔ e ≤ n < e + j ∨ n ∈ nonces mq')
    ∧ (∀ n m, pending mq' !! n = Some m → pending mq !! n = Some m)
    ∧ Pop mq' = (None, false, mq').
Proof. intros. apply pop_loop_run; auto. Qed.

Lemma Pop_cases (mq : MessageQueue) :
  Pop mq = (None, false, mq)
  ∨ ∃ n rest m mq', nonces mq = n :: rest ∧ nonces mq' = rest
                    ∧ Pop mq = (Some m, true, mq').
Proof.
  unfold Pop. destruct (nextExpectedNonce mq =? 0); [by left|].
  destruct (nonces mq) as [|n rest]; [by left|].
  destruct (n =? nextExpectedNonce mq); [|by left].
  right. cbn [negb]. eexists _, _, _, (mkQueue _ _ _). by split_and!.
Qed.

(** The loop of [Pop] ends because [Pop] returned none, whatever the
    queue: the bound on the number of calls is never what stops it. *)
Lemma pop_loop_complete (fuel : nat) :
  ∀ mq, (length (nonces mq) < fuel)%nat →
    Pop (snd (pop_loop fuel mq)) = (None, false, snd (pop_loop fuel mq)).
Proof.
  induction fuel as [|fuel IH]; intros mq Hlen; [lia|]. cbn [pop_loop].
  destruct (Pop_cases mq) as [HP|(n & rest & m & mq' & Hn & Hn' & HP)];
    rewrite HP; [done|].
  specialize (IH mq'). destruct (pop_loop fuel mq') as [ms mq''].
  cbn [snd] in *. apply IH. rewrite Hn', (f_equal length Hn) in *.
  cbn [length] in Hlen. lia.
Qed.

Lemma drain_complete (mq : MessageQueue) :
  Pop (snd (drain mq)) = (None, false, snd (drain mq)).
Proof. apply pop_loop_complete. lia. Qed.

(** The invariant of a run of arrivals with pairwise different nonces
    on an armed queue: what was released so far are the nonces
    [1..k], the queue expects [k+1], and what is buffered lies beyond
    [k+1]. *)
Record feed_inv (pushed out : list TransportMessage) (mq : MessageQueue)
  : Prop := mkFeedInv {
  fi_out : Nonce <$> out = seqZ 1 (Z.of_nat (length out));
  fi_next : nextExpectedNonce mq = (1 + Z.of_nat (length out)) mod uint64_max;
  fi_bound : 1 + Z.of_nat (length out) ≤ uint64_max;
  fi_inv : queue_inv mq;
  fi_above : Forall (λ n, 1 + Z.of_nat (length out) < n < uint64_max) (nonces mq);
  fi_pushed : ∀ n, n ∈ Nonce <$> pushed
                   ↔ 1 ≤ n ≤ Z.of_nat (length out) ∨ n ∈ nonces mq;
  fi_out_in : ∀ m, m ∈ out → m ∈ pushed;
  fi_pend_in : ∀ n m, pending mq !! n = Some m → m ∈ pushed
}.

Lemma armed_feed_inv : feed_inv [] [] armed.
Proof.
  split; cbn; try done.
  - split; [constructor| |]; cbn.
    + intros n. rewrite lookup_empty, elem_of_nil. split; [done|]. by intros [? ?].
    + intros n m. by rewrite lookup_empty.
  - intros n. rewrite elem_of_nil. split; [done|]. intros [?|?]; [lia|done].
Qed.

Lemma fmap_seqZ_length (out : list TransportMessage) (e j : Z) :
  0 ≤ j → Nonce <$> out = seqZ e j → Z.of_nat (length out) = j.
Proof.
  intros Hj H. apply (f_equal length) in H.
  rewrite length_fmap, length_seqZ in H. lia.
Qed.

Lemma push_then_drain_inv (pushed out : list TransportMessage)
    (mq : MessageQueue) (msg : TransportMessage) :
  feed_inv pushed out mq →
  1 ≤ Nonce msg < uint64_max →
  Nonce msg ∉ Nonce <$> pushed →
  ∃ out1 mq1,
    push_then_drain mq msg = (out1, mq1)
    ∧ feed_inv (pushed ++ [msg]) (out ++ out1) mq1
    ∧ Pop mq1 = (None, false, mq1).
Proof.
  intros [Hout Hnext Hbound Hinv Habove Hpushed Hoin Hpin] Hn Hfresh.
  set (k := Z.of_nat (length out)) in *.
  assert (Hnk : ¬ (1 ≤ Nonce msg ≤ k) ∧ Nonce msg ∉ nonces mq).
  { rewrite Hpushed in Hfresh. tauto. }
  destruct Hnk as [Hnk Hnin].
  assert (Hk : 0 ≤ k) by (unfold k; lia).
  rewrite uint64_mod_small in Hnext by lia.
  unfold push_then_drain, TryPush.
  destruct (Z.eqb_spec (nextExpectedNonce mq) 0) as [?|_]; [lia|].
  destruct (Z.eqb_spec (Nonce msg) (nextExpectedNonce mq)) as [Heq|Hne].
  - (* the expected nonce: released at once, then the loop of Pop *)
    cbn [snd released].
    set (mq0 := mkQueue _ _ _).
    destruct (drain_run mq0 (k + 2)) as (j & out' & mq' & Hrun & Hj & Hej & Hout'
        & Hfrom & Hnext' & Hinv' & Hall' & Hmem & Hsub & Hlast).
    { destruct Hinv. by split. }
    { lia. }
    { cbn. unfold uint64_incr. f_equal. lia. }
    { cbn. eapply Forall_impl; [exact Habove|]. intros x Hx. cbv beta in *. lia. }
    exists ([msg] ++ out'), mq'. rewrite Hrun. split; [done|]. split; [|done].
    pose proof (fmap_seqZ_length _ _ _ Hj Hout') as Hlen'.
    assert (Hlen : Z.of_nat (length (out ++ [msg] ++ out')) = k + 1 + j).
    { rewrite !length_app. cbn [length]. unfold k. lia. }
    split; rewrite ?Hlen.
    + rewrite !fmap_app, Hout, Hout'. cbn [fmap list_fmap]. fold k.
      replace (k + 1 + j) with (k + (1 + j)) by lia.
      rewrite (seqZ_app 1 k (1 + j)) by lia.
      rewrite (seqZ_cons (1 + k)) by lia. cbn [app]. f_equal. f_equal.
      * lia.
      * f_equal; lia.
    + rewrite Hnext'. f_equal. lia.
    + lia.
    + done.
    + eapply Forall_impl; [exact Hall'|]. intros x Hx. cbv beta in *. lia.
    + intros n. rewrite fmap_app, elem_of_app, Hpushed. cbn [fmap list_fmap].
      rewrite list_elem_of_singleton.
      specialize (Hmem n). cbn [nonces mq0] in Hmem. rewrite Hmem.
      split; [intros [[?|[?|?]]|?]|intros [?|?]]; try (left; lia); auto.
      destruct (decide (n ≤ k)); [left; left; lia|].
      destruct (decide (n = k + 1)); [right; lia|]. left. right. left. lia.
    + intros m. rewrite !elem_of_app, list_elem_of_singleton.
      intros [?|[->|Hm]]; auto. left. eapply Hpin. apply (Hfrom m Hm).
    + intros n m Hm. apply elem_of_app. left. eapply Hpin. apply (Hsub _ _ Hm).
  - (* a later nonce: buffered; the loop of Pop finds nothing to return *)
    destruct (Z.ltb_spec (Nonce msg) (nextExpectedNonce mq)) as [?|Hge]; [lia|].
    assert (Hnone : pending mq !! Nonce msg = None).
    { destruct (pending mq !! Nonce msg) eqn:E; [|done].
      exfalso. apply Hnin. apply (inv_dom _ Hinv). eauto. }
    rewrite Hnone. cbn [snd released].
    pose proof (insertLocked_inv mq msg Hinv) as Hinv1.
    pose proof (insertLocked_elem mq msg) as Helem.
    pose proof (insertLocked_pending mq msg) as Hpend.
    pose proof (insertLocked_next mq msg) as Hnx.
    set (mq0 := insertLocked mq msg) in *.
    assert (Hall0 : Forall (λ n, 1 + k < n < uint64_max) (nonces mq0)).
    { apply Forall_forall. intros x Hx. apply Helem in Hx; [|apply Hinv].
      destruct Hx as [->|Hx]; [lia|]. rewrite Forall_forall in Habove.
      by apply Habove. }
    destruct (drain_run mq0 (k + 1)) as (j & out' & mq' & Hrun & Hj & Hej & Hout'
        & Hfrom & Hnext' & Hinv' & Hall' & Hmem & Hsub & Hlast).
    { done. }
    { lia. }
    { rewrite Hnx, Hnext, uint64_mod_small; lia. }
    { eapply Forall_impl; [exact Hall0|]. intros x Hx. cbv beta in *. lia. }
    assert (j = 0).
    { destruct (decide (j = 0)) as [|Hj0]; [done|]. exfalso.
      assert (Hin : k + 1 ∈ nonces mq0) by (apply Hmem; left; lia).
      rewrite Forall_forall in Hall0. specialize (Hall0 _ Hin). cbv beta in *. lia. }
    subst j. rewrite seqZ_nil in Hout' by lia. apply fmap_nil_inv in Hout'.
    subst out'. exists [], mq'. rewrite Hrun. split; [done|]. split; [|done].
    rewrite app_nil_r. fold k. rewrite Z.add_0_r in *.
    split; fold k.
    + done.
    + rewrite Hnext'. f_equal. lia.
    + lia.
    + done.
    + eapply Forall_impl; [exact Hall'|]. intros x Hx. cbv beta in *. lia.
    + intros n. rewrite fmap_app, elem_of_app, Hpushed. cbn [fmap list_fmap].
      rewrite list_elem_of_singleton.
      assert (Hn0 : n ∈ nonces mq0 ↔ n ∈ nonces mq').
      { rewrite Hmem. split; [intros [?|?]; [lia|done]|auto]. }
      rewrite <- Hn0, Helem by apply Hinv. tauto.
    + intros m Hm. apply elem_of_app. left; auto.
    + intros n m Hm. apply Hsub in Hm. rewrite Hpend, lookup_insert in Hm.
      apply elem_of_app. case_decide; simplify_eq.
      * right. by apply list_elem_of_singleton.
      * left. eauto.
Qed.

Lemma feed_inv_blocked (pushed out : list TransportMessage) (mq : MessageQueue) :
  feed_inv pushed out mq → Pop mq = (None, false, mq).
Proof.
  intros [_ Hnext Hbound _ Habove _ _ _]. apply Pop_blocked.
  destruct (nonces mq) as [|n rest]; [done|].
  apply Forall_cons in Habove as [Hn _]. cbv beta in Hn.
  rewrite Hnext, uint64_mod_small; lia.
Qed.

Lemma feed_run (msgs : list TransportMessage) :
  ∀ pushed out mq,
    feed_inv pushed out mq →
    Forall (λ m, 1 ≤ Nonce m < uint64_max) msgs →
    NoDup (Nonce <$> (pushed ++ msgs)) →
    ∃ out' mq',
      feed mq msgs = (out', mq') ∧ feed_inv (pushed ++ msgs) (out ++ out') mq'.
Proof.
  induction msgs as [|msg msgs IH]; intros pushed out mq Hinv Hall Hnd.
  - exists [], mq. by rewrite !app_nil_r.
  - apply Forall_cons in Hall as [Hmsg Hall].
    assert (Hfresh : Nonce msg ∉ Nonce <$> pushed).
    { rewrite fmap_app, fmap_cons in Hnd. apply NoDup_app in Hnd as (_ & Hd & _).
      intros Hin. apply (Hd _ Hin). by left. }
    destruct (push_then_drain_inv pushed out mq msg Hinv Hmsg Hfresh)
      as (out1 & mq1 & Hstep & Hinv1 & _).
    destruct (IH (pushed ++ [msg]) (out ++ out1) mq1 Hinv1 Hall)
      as (out2 & mq2 & Hrun & Hinv2).
    { by rewrite <- app_assoc. }
    exists (out1 ++ out2), mq2. cbn [feed]. rewrite Hstep, Hrun.
    split; [done|]. by rewrite <- !app_assoc in Hinv2.
Qed.

(** When the nonces pushed were exactly [1..N], everything is out. *)
Lemma feed_inv_total (frames out : list TransportMessage) (mq : MessageQueue) :
  feed_inv frames out mq →
  Nonce <$> frames ≡ₚ seqZ 1 (Z.of_nat (length frames)) →
  Nonce <$> out = seqZ 1 (Z.of_nat (length frames))
  ∧ out ≡ₚ frames ∧ nonces mq = [] ∧ pending mq = ∅.
Proof.
  intros Hinv Hperm. pose proof Hinv as [Hout Hnext Hbound Hq Habove Hpushed Hoin Hpin].
  set (k := Z.of_nat (length out)) in *. set (N := Z.of_nat (length frames)) in *.
  assert (Hmem : ∀ n, 1 ≤ n < 1 + N ↔ 1 ≤ n ≤ k ∨ n ∈ nonces mq).
  { intros n. rewrite <- Hpushed, Hperm, elem_of_seqZ. done. }
  rewrite Forall_forall in Habove.
  assert (HkN : k = N).
  { destruct (Z.lt_trichotomy k N) as [Hlt|[?|Hgt]]; [|done|].
    - destruct (proj1 (Hmem (k + 1))) as [?|Hin]; [lia..|].
      specialize (Habove _ Hin). cbv beta in Habove. lia.
    - pose proof (proj2 (Hmem k)). lia. }
  assert (Hnil : nonces mq = []).
  { destruct (nonces mq) as [|n rest] eqn:E; [done|]. exfalso.
    assert (Hin : n ∈ n :: rest) by left.
    specialize (Habove _ Hin). cbv beta in Habove.
    pose proof (proj2 (Hmem n) (or_intror Hin)). lia. }
  split_and!.
  - by rewrite Hout, HkN.
  - apply submseteq_length_Permutation; [|unfold k, N in HkN; lia].
    apply NoDup_submseteq; [|done].
    apply (NoDup_fmap_1 Nonce). rewrite Hout. apply NoDup_seqZ.
  - done.
  - apply map_eq. intros n. rewrite lookup_empty.
    destruct (pending mq !! n) eqn:E; [|done].
    assert (Hin : n ∈ nonces mq) by (apply (inv_dom _ Hq); eauto).
    rewrite Hnil in Hin. by apply elem_of_nil in Hin.
Qed.

Lemma perm_seqZ_bounds (frames : list TransportMessage) :
  Forall (λ m, 0 ≤ Nonce m < uint64_max) frames →
  Nonce <$> frames ≡ₚ seqZ 1 (Z.of_nat (length frames)) →
  Forall (λ m, 1 ≤ Nonce m < uint64_max) frames
  ∧ NoDup (Nonce <$> frames).
Proof.
  intros Hall Hperm. split.
  - rewrite Forall_forall in Hall. apply Forall_forall. intros m Hm.
    specialize (Hall m Hm). cbv beta in *.
    assert (Hin : Nonce m ∈ Nonce <$> frames) by (apply list_elem_of_fmap; eauto).
    rewrite Hperm, elem_of_seqZ in Hin. lia.
  - rewrite Hperm. apply NoDup_seqZ.
Qed.

(** C1. Reorder totality: the frames of any permutation of the nonces
    [1..N], pushed one at a time into a fresh queue armed by
    [SetConnectionMessageReceived], each push followed by calls of [Pop]
    until it returns none, come out as the nonces [1, 2, ..., N] in this
    order: each frame once, none missing, and the queue ends empty. *)
Theorem reorder_totality (frames : list TransportMessage) :
  Forall (λ m, 0 ≤ Nonce m < uint64_max) frames →
  Nonce <$> frames ≡ₚ seqZ 1 (Z.of_nat (length frames)) →
  ∃ mq0 out mq,
    SetConnectionMessageReceived New = Some mq0
    ∧ feed mq0 frames = (out, mq)
    ∧ Nonce <$> out = seqZ 1 (Z.of_nat (length frames))
    ∧ out ≡ₚ frames
    ∧ nonces mq = [] ∧ pending mq = ∅
    ∧ Pop mq = (None, false, mq).
Proof.
  intros Hall Hperm. destruct (perm_seqZ_bounds frames Hall Hperm) as [Hall1 Hnd].
  destruct (feed_run frames [] [] armed armed_feed_inv Hall1 Hnd)
    as (out & mq & Hrun & Hinv). cbn [app] in Hinv.
  destruct (feed_inv_total frames out mq Hinv Hperm) as (Ho & Hp & Hn & Hm).
  exists armed, out, mq. split_and!; try done.
  eapply feed_inv_blocked, Hinv.
Qed.

Lemma reorder_totality_witness :
  let frames := frame <$> [3; 5; 1; 4; 2] in
  ∃ mq0 out mq,
    SetConnectionMessageReceived New = Some mq0
    ∧ feed mq0 frames = (out, mq)
    ∧ Nonce <$> out = seqZ 1 (Z.of_nat (length frames))
    ∧ out ≡ₚ frames
    ∧ nonces mq = [] ∧ pending mq = ∅
    ∧ Pop mq = (None, false, mq).
Proof.
  apply (reorder_totality (frame <$> [3; 5; 1; 4; 2])).
  - repeat constructor; cbn; unfold uint64_max; lia.
  - compute_done.
Defined.

(** *** Before the handshake *)

Lemma TryPush_unarmed (mq : MessageQueue) (msg : TransportMessage) :
  nextExpectedNonce mq = 0 →
  TryPush mq msg = (None, false, insertLocked mq msg).
Proof. intros H. unfold TryPush. by rewrite H. Qed.

Lemma Pop_unarmed (mq : MessageQueue) :
  nextExpectedNonce mq = 0 → Pop mq = (None, false, mq).
Proof. intros H. unfold Pop. by rewrite H. Qed.

(** Pushes into a queue that is not armed: every call returns
    [(nil, false)], and the queue holds exactly the nonces pushed. *)
Lemma push_all_unarmed (msgs : list TransportMessage) :
  ∀ mq pushed,
    nextExpectedNonce mq = 0 → queue_inv mq →
    (∀ n, n ∈ nonces mq ↔ n ∈ Nonce <$> pushed) →
    (∀ n m, pending mq !! n = Some m → m ∈ pushed) →
    ∃ mq',
      push_all mq msgs = (replicate (length msgs) (None, false), mq')
      ∧ nextExpectedNonce mq' = 0 ∧ queue_inv mq'
      ∧ (∀ n, n ∈ nonces mq' ↔ n ∈ Nonce <$> (pushed ++ msgs))
      ∧ (∀ n m, pending mq' !! n = Some m → m ∈ pushed ++ msgs).
Proof.
  induction msgs as [|msg msgs IH]; intros mq pushed Hz Hinv Hmem Hpin.
  - exists mq. rewrite app_nil_r. by split_and!.
  - cbn [push_all]. rewrite (TryPush_unarmed mq msg Hz). cbn [fst snd].
    destruct (IH (insertLocked mq msg) (pushed ++ [msg]))
      as (mq' & Hrun & Hz' & Hinv' & Hmem' & Hpin').
    + by rewrite insertLocked_next.
    + by apply insertLocked_inv.
    + intros n. rewrite insertLocked_elem by apply Hinv.
      rewrite fmap_app, elem_of_app, Hmem. cbn [fmap list_fmap].
      rewrite list_elem_of_singleton. tauto.
    + intros n m. rewrite insertLocked_pending, lookup_insert, elem_of_app.
      case_decide; intros Hm; simplify_eq.
      * right. by apply list_elem_of_singleton.
      * left. eauto.
    + exists mq'. rewrite Hrun. rewrite <- app_assoc in Hmem', Hpin'.
      by split_and!.
Qed.

(** Arming keeps what was buffered. *)
Lemma arm_unarmed (mq : MessageQueue) :
  nextExpectedNonce mq = 0 →
  SetConnectionMessageReceived mq = Some (mkQueue 1 (pending mq) (nonces mq)).
Proof. intros H. unfold SetConnectionMessageReceived. by rewrite H. Qed.

(** The loop of [Pop] on a queue armed after buffering: nothing when
    nonce 0 is buffered; otherwise the buffered frames with the nonces
    [1..j], where [1 + j] is the first nonce that is not buffered. *)
Lemma drain_after_arm (frames : list TransportMessage) (mq : MessageQueue) :
  Forall (λ m, 0 ≤ Nonce m < uint64_max) frames →
  nextExpectedNonce mq = 1 → queue_inv mq →
  (∀ n, n ∈ nonces mq ↔ n ∈ Nonce <$> frames) →
  (∀ n m, pending mq !! n = Some m → m ∈ frames) →
  ∃ j out mq',
    drain mq = (out, mq')
    ∧ 0 ≤ j
    ∧ Nonce <$> out = seqZ 1 j
    ∧ (∀ m, m ∈ out → pending mq !! Nonce m = Some m ∧ m ∈ frames)
    ∧ (0 ∈ Nonce <$> frames → out = [])
    ∧ (0 ∉ Nonce <$> frames → 1 + j ∉ Nonce <$> frames)
    ∧ (∀ n, n ∈ nonces mq' ↔ n ∈ Nonce <$> frames ∧ ¬ 1 ≤ n ≤ j)
    ∧ (∀ n, n ∈ nonces mq' ↔ is_Some (pending mq' !! n))
    ∧ (∀ n m, pending mq' !! n = Some m → pending mq !! n = Some m)
    ∧ Pop mq' = (None, false, mq')
    ∧ (Nonce <$> frames ≡ₚ seqZ 1 (Z.of_nat (length frames)) → out ≡ₚ frames).
Proof.
  intros Hall Hnext Hinv Hmem Hpin.
  assert (Hrange : Forall (λ n, 0 ≤ n < uint64_max) (nonces mq)).
  { apply Forall_forall. intros n Hn. apply Hmem, list_elem_of_fmap in Hn
      as (m & -> & Hm). rewrite Forall_forall in Hall. by apply Hall. }
  destruct (decide (0 ∈ nonces mq)) as [H0|H0].
  - (* a buffered nonce 0 is the smallest one and is never expected *)
    assert (Hb : Pop mq = (None, false, mq)).
    { apply Pop_blocked. destruct (nonces mq) as [|n rest] eqn:E; [done|].
      rewrite Hnext. intros ->.
      pose proof (inv_sorted _ Hinv) as Hs. rewrite E in Hs.
      apply StronglySorted_cons in Hs as [Hgt _]. rewrite Forall_forall in Hgt.
      apply elem_of_cons in H0 as [?|H0]; [done|]. specialize (Hgt _ H0). lia. }
    exists 0, [], mq. unfold drain. cbn [pop_loop]. rewrite Hb.
    split_and!; try done.
    + intros m Hm. by apply elem_of_nil in Hm.
    + intros Hno. exfalso. by apply Hno, Hmem.
    + intros n. rewrite Hmem. split; [|by intros [? _]]. intros Hn. split; [done|lia].
    + apply Hinv.
    + intros Hperm. exfalso. apply Hmem in H0. rewrite Hperm, elem_of_seqZ in H0. lia.
  - destruct (drain_run mq 1) as (j & out & mq' & Hrun & Hj & Hej & Hout
        & Hfrom & Hnext' & Hinv' & Hall' & Hmem' & Hsub & Hlast).
    { done. }
    { unfold uint64_max. lia. }
    { by rewrite Hnext. }
    { rewrite Forall_forall in Hrange. apply Forall_forall. intros n Hn.
      specialize (Hrange n Hn). cbv beta in *.
      destruct (decide (n = 0)); [by subst|lia]. }
    rewrite Forall_forall in Hall'.
    exists j, out, mq'. split_and!; try done.
    + intros m Hm. split; [by apply Hfrom|]. eapply Hpin, Hfrom, Hm.
    + intros H0'. exfalso. by apply H0, Hmem.
    + intros _ Hin. apply Hmem, Hmem' in Hin as [?|Hin]; [lia|].
      specialize (Hall' _ Hin). cbv beta in Hall'. lia.
    + intros n. rewrite <- Hmem, Hmem'. split.
      * intros Hin. split; [by right|]. specialize (Hall' _ Hin).
        cbv beta in Hall'. lia.
      * intros [[?|?] Hn]; [lia|done].
    + apply Hinv'.
    + intros Hperm. pose proof (fmap_seqZ_length _ _ _ Hj Hout) as Hlen.
      eapply (feed_inv_total frames out mq'); [|done].
      split; rewrite ?Hlen; try done; try lia.
      * apply Forall_forall. intros n Hn. specialize (Hall' _ Hn). done.
      * intros n. rewrite <- Hmem, Hmem'. split; (intros [?|?]; [left; lia|by right]).
      * intros m Hm. eapply Hpin, Hfrom, Hm.
      * intros n m Hm. eapply Hpin, Hsub, Hm.
Qed.

(** C4, as the code has it.  Before [SetConnectionMessageReceived] every
    [TryPush] buffers its frame and returns [(nil, false)], and [Pop]
    returns none.  After arming, the calls of [Pop] return nothing when
    a frame with nonce 0 was buffered; otherwise they return the
    buffered frames with the nonces [1, 2, ..., j] in this order, where
    [1 + j] is the first nonce that is not buffered, and then none.
    The frames under the other nonces stay buffered.  All buffered
    frames are returned when their nonces are exactly [1..N]. *)
Theorem prehandshake_buffering (frames : list TransportMessage) :
  Forall (λ m, 0 ≤ Nonce m < uint64_max) frames →
  ∃ mq,
    push_all New frames = (replicate (length frames) (None, false), mq)
    ∧ (∀ n, n ∈ nonces mq ↔ n ∈ Nonce <$> frames)
    ∧ (∀ n, n ∈ nonces mq ↔ is_Some (pending mq !! n))
    ∧ Pop mq = (None, false, mq)
    ∧ ∃ mqa j out mq',
        SetConnectionMessageReceived mq = Some mqa
        ∧ drain mqa = (out, mq')
        ∧ 0 ≤ j
        ∧ Nonce <$> out = seqZ 1 j
        ∧ (∀ m, m ∈ out → pending mq !! Nonce m = Some m ∧ m ∈ frames)
        ∧ (0 ∈ Nonce <$> frames → out = [])
        ∧ (0 ∉ Nonce <$> frames → 1 + j ∉ Nonce <$> frames)
        ∧ (∀ n, n ∈ nonces mq' ↔ n ∈ Nonce <$> frames ∧ ¬ 1 ≤ n ≤ j)
        ∧ (∀ n, n ∈ nonces mq' ↔ is_Some (pending mq' !! n))
        ∧ (∀ n m, pending mq' !! n = Some m → pending mq !! n = Some m)
        ∧ Pop mq' = (None, false, mq')
        ∧ (Nonce <$> frames ≡ₚ seqZ 1 (Z.of_nat (length frames)) →
           out ≡ₚ frames).
Proof.
  intros Hall.
  destruct (push_all_unarmed frames New []) as (mq & Hrun & Hz & Hinv & Hmem & Hpin);
    [done|apply New_inv|..].
  { intros n. cbn. done. }
  { intros n m. cbn. by rewrite lookup_empty. }
  cbn [app] in Hmem, Hpin.
  exists mq. split_and!; try done.
  - apply Hinv.
  - by apply Pop_unarmed.
  - destruct (drain_after_arm frames (mkQueue 1 (pending mq) (nonces mq)))
      as (j & out & mq' & H); try done.
    { destruct Hinv. by split. }
    exists (mkQueue 1 (pending mq) (nonces mq)), j, out, mq'.
    split; [by apply arm_unarmed|done].
Qed.

Lemma prehandshake_buffering_witness :
  let frames := frame <$> [2; 5; 1] in
  ∃ mq,
    push_all New frames = (replicate (length frames) (None, false), mq)
    ∧ (∀ n, n ∈ nonces mq ↔ n ∈ Nonce <$> frames)
    ∧ (∀ n, n ∈ nonces mq ↔ is_Some (pending mq !! n))
    ∧ Pop mq = (None, false, mq)
    ∧ ∃ mqa j out mq',
        SetConnectionMessageReceived mq = Some mqa
        ∧ drain mqa = (out, mq')
        ∧ 0 ≤ j
        ∧ Nonce <$> out = seqZ 1 j
        ∧ (∀ m, m ∈ out → pending mq !! Nonce m = Some m ∧ m ∈ frames)
        ∧ (0 ∈ Nonce <$> frames → out = [])
        ∧ (0 ∉ Nonce <$> frames → 1 + j ∉ Nonce <$> frames)
        ∧ (∀ n, n ∈ nonces mq' ↔ n ∈ Nonce <$> frames ∧ ¬ 1 ≤ n ≤ j)
        ∧ (∀ n, n ∈ nonces mq' ↔ is_Some (pending mq' !! n))
        ∧ (∀ n m, pending mq' !! n = Some m → pending mq !! n = Some m)
        ∧ Pop mq' = (None, false, mq')
        ∧ (Nonce <$> frames ≡ₚ seqZ 1 (Z.of_nat (length frames)) →
           out ≡ₚ frames).
Proof.
  apply (prehandshake_buffering (frame <$> [2; 5; 1])).
  repeat constructor; cbn; unfold uint64_max; lia.
Defined.

(** C4 as stated fails: a frame with nonce 2 buffered before the
    handshake is not returned by [Pop] after arming, because nonce 1 is
    missing; it stays in the queue. *)
Lemma prehandshake_gap_counterexample :
  ¬ (∀ frames rs mq mqa out mq',
       Forall (λ m, 0 ≤ Nonce m < uint64_max) frames →
       push_all New frames = (rs, mq) →
       SetConnectionMessageReceived mq = Some mqa →
       drain mqa = (out, mq') →
       out ≡ₚ frames).
Proof.
  intros H.
  specialize (H [frame 2] [(None, false)]
                (mkQueue 0 {[2 := frame 2]} [2]) (mkQueue 1 {[2 := frame 2]} [2])
                [] (mkQueue 1 {[2 := frame 2]} [2])).
  apply Permutation_nil_l in H; [done|..]; try done.
  repeat constructor; cbn; unfold uint64_max; lia.
Qed.

End QueueFacts.

(** ** Bytes, slices and big-endian integers *)

Module ByteFacts.

Lemma byte_of_N_to_N (b : byte) : byte_of_N (Byte.to_N b) = b.
Proof. unfold byte_of_N. by rewrite Byte.of_to_N. Qed.

Lemma to_N_byte_of_N (n : N) : (n ≤ 255)%N → Byte.to_N (byte_of_N n) = n.
Proof.
  intros Hn. unfold byte_of_N.
  pose proof (Byte.to_of_N_option_map n) as H.
  destruct (Byte.of_N n) as [b|] eqn:E.
  - by apply Byte.to_of_N.
  - cbn in H. destruct (N.leb_spec n 255); [done|lia].
Qed.

Lemma byte_to_Z_range (b : byte) : 0 ≤ byte_to_Z b < 256.
Proof. unfold byte_to_Z. pose proof (Byte.to_N_bounded b). lia. Qed.

Lemma byte_to_Z_of_Z (v : Z) : byte_to_Z (byte_of_Z v) = v mod 256.
Proof.
  unfold byte_to_Z, byte_of_Z. pose proof (Z.mod_pos_bound v 256 ltac:(lia)) as Hb.
  fold (byte_of_N (Z.to_N (v mod 256))). rewrite to_N_byte_of_N by lia. lia.
Qed.

Lemma byte_of_Z_to_Z (b : byte) : byte_of_Z (byte_to_Z b) = b.
Proof.
  pose proof (byte_to_Z_range b). unfold byte_of_Z.
  rewrite Z.mod_small by done. unfold byte_to_Z. rewrite N2Z.id.
  by rewrite Byte.of_to_N.
Qed.

(** The bits of one byte of [PutUint64] at its place in [Uint64]. *)
Lemma put_byte_bit (v k n : Z) :
  0 ≤ k → 0 ≤ n →
  Z.testbit (Z.shiftl (byte_to_Z (byte_of_Z (Z.shiftr v k))) k) n
  = (k <=? n) && (n <? k + 8) && Z.testbit v n.
Proof.
  intros Hk Hn. rewrite byte_to_Z_of_Z, Z.shiftl_spec by done.
  change 256 with (2 ^ 8).
  destruct (Z.leb_spec k n) as [Hkn|Hkn]; cbn [andb].
  - destruct (Z.ltb_spec n (k + 8)) as [Hn8|Hn8]; cbn [andb].
    + rewrite Z.mod_pow2_bits_low by lia. rewrite Z.shiftr_spec by lia.
      f_equal. lia.
    + by rewrite Z.mod_pow2_bits_high by lia.
  - by rewrite Z.testbit_neg_r by lia.
Qed.

Lemma put_low_byte_bit (v n : Z) :
  0 ≤ n →
  Z.testbit (byte_to_Z (byte_of_Z v)) n = (n <? 8) && Z.testbit v n.
Proof.
  intros Hn. pose proof (put_byte_bit v 0 n ltac:(lia) Hn) as H.
  rewrite Z.shiftl_0_r, Z.shiftr_0_r in H. rewrite H.
  destruct (Z.leb_spec 0 n); [done|lia].
Qed.

Lemma uint64_bits_high (v n : Z) :
  0 ≤ v < uint64_max → 64 ≤ n → Z.testbit v n = false.
Proof.
  intros Hv Hn. rewrite <- (Z.mod_small v (2 ^ 64)) by done.
  by rewrite Z.mod_pow2_bits_high by lia.
Qed.

Lemma Uint64_PutUint64 (v : Z) (rest : bytes) :
  0 ≤ v < uint64_max → Uint64 (PutUint64 v ++ rest) = v.
Proof.
  intros Hv. unfold PutUint64, Uint64. cbn [app].
  apply Z.bits_inj'. intros n Hn.
  rewrite !Z.lor_spec, !put_byte_bit, put_low_byte_bit by lia.
  destruct (Z.ltb_spec n 64) as [Hlt|Hge].
  - destruct (Z.testbit v n); rewrite ?andb_false_r, ?andb_true_r; [|done].
    repeat match goal with
           | |- context [(?a <=? ?b)] => destruct (Z.leb_spec a b); try lia
           | |- context [(?a <? ?b)] => destruct (Z.ltb_spec a b); try lia
           end; reflexivity.
  - rewrite (uint64_bits_high v n) by done. by rewrite !andb_false_r.
Qed.

Lemma Uint64_PutUint64_exact (v : Z) :
  0 ≤ v < uint64_max → Uint64 (PutUint64 v) = v.
Proof.
  intros Hv. rewrite <- (app_nil_r (PutUint64 v)). by apply Uint64_PutUint64.
Qed.

Lemma PutUint64_length (v : Z) : length (PutUint64 v) = 8%nat.
Proof. reflexivity. Qed.

Lemma make_add (n m : nat) : make (n + m) = make n ++ make m.
Proof. apply replicate_add. Qed.

Lemma make_length (n : nat) : length (make n) = n.
Proof. apply length_replicate. Qed.

Section Copy.
Context {A : Type}.
Implicit Types pre mid post src dst : list A.

Lemma copy_range_mid pre mid post src (off lim : nat) :
  off = length pre → (off + length mid ≤ lim)%nat →
  length src = length mid →
  copy_range (pre ++ mid ++ post) off lim src = pre ++ src ++ post.
Proof.
  intros -> Hlim Hlen. unfold copy_range.
  rewrite take_app_length, take_ge by lia.
  rewrite Nat.min_r by lia. rewrite Hlen.
  rewrite drop_app_add', drop_app_length; done.
Qed.

Lemma copy_range_head mid post src (lim : nat) :
  lim = length mid → length src = length mid →
  copy_range (mid ++ post) 0 lim src = src ++ post.
Proof. intros -> H. by apply (copy_range_mid [] mid post src). Qed.

Lemma copy_at_tail pre mid src (off : nat) :
  off = length pre → length src = length mid →
  copy_at (pre ++ mid) off src = pre ++ src.
Proof.
  intros Hoff Hlen. unfold copy_at.
  rewrite <- (app_nil_r mid) at 1.
  rewrite (copy_range_mid pre mid [] src); rewrite ?app_nil_r; try done.
  rewrite length_app. lia.
Qed.

Lemma copy_at_whole dst src :
  length src = length dst → copy_at dst 0 src = src.
Proof. intros H. by apply (copy_at_tail [] dst src). Qed.

Lemma insert_mid pre post (x y : A) (i : nat) :
  i = length pre → <[i := y]> (pre ++ x :: post) = pre ++ y :: post.
Proof.
  intros ->. rewrite insert_app_r_alt by lia. by rewrite Nat.sub_diag.
Qed.

End Copy.

End ByteFacts.

(** ** The wire codec *)

Module CodecFacts.
Import Message ByteFacts.

Lemma Bytes_layout (r : Recipient) :
  wf_recipient r →
  Bytes r = ClientIdentity r ++ ClientEncryptionKey r ++ Gateway r.
Proof.
  intros (H1 & H2 & H3). unfold Bytes, RecipientLength.
  change 96%nat with (32 + (32 + 32))%nat. rewrite !make_add.
  rewrite (copy_range_head (make 32) _ (ClientIdentity r)); try done.
  cbn [app].
  rewrite (copy_range_mid (ClientIdentity r) (make 32) (make 32)
             (ClientEncryptionKey r)); try done.
  rewrite app_assoc.
  rewrite (copy_at_tail _ (make 32) (Gateway r)); try done.
  - by rewrite <- app_assoc.
  - rewrite length_app. lia.
Qed.

Lemma Bytes_length (r : Recipient) :
  wf_recipient r → length (Bytes r) = RecipientLength.
Proof.
  intros Hr. rewrite Bytes_layout by done. destruct Hr as (H1 & H2 & H3).
  rewrite !length_app, H1, H2, H3. done.
Qed.

Lemma RecipientFromBytes_Bytes (r : Recipient) :
  wf_recipient r → RecipientFromBytes (Bytes r) = Some r.
Proof.
  intros Hr. unfold RecipientFromBytes. rewrite Bytes_length by done.
  cbn [Nat.eqb negb RecipientLength]. rewrite Bytes_layout by done.
  destruct Hr as (H1 & H2 & H3). destruct r as [k1 k2 k3].
  cbn [ClientIdentity ClientEncryptionKey Gateway] in *.
  unfold slice. f_equal. f_equal.
  - rewrite drop_0, (take_app_length' k1) by done. by apply copy_at_whole.
  - rewrite (drop_app_length' k1), (take_app_length' k2) by done.
    by apply copy_at_whole.
  - rewrite app_assoc, (drop_app_length' (k1 ++ k2))
      by (rewrite length_app; lia).
    by apply copy_at_whole.
Qed.

Lemma encodeSubstreamMessage_layout (sm : SubstreamMessage) :
  length (sm_ID sm) = SubstreamIDLength →
  encodeSubstreamMessage sm = sm_ID sm ++ sm_Type sm :: sm_Data sm.
Proof.
  intros Hid. unfold encodeSubstreamMessage, SubstreamIDLength in *.
  rewrite <- Nat.add_assoc, !make_add. change (make 1) with [x00]. cbn [app].
  rewrite (copy_range_head (make 32) _ (sm_ID sm)); try done. cbn [app].
  rewrite insert_mid by done.
  change (sm_ID sm ++ sm_Type sm :: make (length (sm_Data sm)))
    with (sm_ID sm ++ [sm_Type sm] ++ make (length (sm_Data sm))).
  rewrite app_assoc.
  rewrite (copy_at_tail _ (make (length (sm_Data sm))) (sm_Data sm)).
  - by rewrite <- app_assoc.
  - rewrite length_app. cbn. lia.
  - by rewrite make_length.
Qed.

Lemma decode_encode_substream (sm : SubstreamMessage) :
  wf_substream sm →
  decodeSubstreamMessage (encodeSubstreamMessage sm) = Some sm.
Proof.
  intros [Hid Hty]. rewrite encodeSubstreamMessage_layout by done.
  unfold decodeSubstreamMessage, SubstreamIDLength in *.
  destruct sm as [sid ty data]; cbn [sm_ID sm_Type sm_Data] in *.
  rewrite length_app. cbn [length].
  destruct (Nat.ltb_spec (length sid + S (length data)) (32 + 1)) as [?|_]; [lia|].
  rewrite (take_app_length' sid) by done.
  rewrite (copy_at_whole (make 32) sid) by done.
  rewrite list_lookup_middle by done. cbn [default from_option id].
  change (sid ++ ty :: data) with (sid ++ [ty] ++ data). rewrite app_assoc.
  rewrite (drop_app_length' (sid ++ [ty])) by (rewrite length_app; cbn; lia).
  destruct ty; try done; subst; try done.
  rewrite copy_at_whole by (by rewrite make_length). done.
Qed.

Lemma encodeTransportMessage_layout (tm : TransportMessage) :
  length (tm_ID tm) = ConnectionIDLength →
  encodeTransportMessage tm
  = PutUint64 (Nonce tm) ++ tm_ID tm ++ encodeSubstreamMessage (tm_Message tm).
Proof.
  intros Hid. unfold encodeTransportMessage, ConnectionIDLength in *.
  rewrite <- Nat.add_assoc, !make_add.
  rewrite (copy_range_head (make 8) _ (PutUint64 (Nonce tm))); try done.
  cbn [app].
  rewrite (copy_range_mid (PutUint64 (Nonce tm)) (make 32) _ (tm_ID tm)); try done.
  rewrite app_assoc. rewrite (copy_at_tail _ (make _) (encodeSubstreamMessage _)).
  - by rewrite <- app_assoc.
  - rewrite length_app, Hid. done.
  - by rewrite make_length.
Qed.

Lemma decode_encode_transport (tm : TransportMessage) :
  wf_transport tm →
  decodeTransportMessage (encodeTransportMessage tm) = Some tm.
Proof.
  intros (Hn & Hid & Hsm). rewrite encodeTransportMessage_layout by done.
  unfold decodeTransportMessage, ConnectionIDLength, SubstreamIDLength in *.
  pose proof (decode_encode_substream _ Hsm) as Hdec.
  pose proof Hsm as [Hsid _].
  rewrite encodeSubstreamMessage_layout in * by done.
  set (sub := sm_ID (tm_Message tm) ++ _) in *.
  assert (Hsub : (33 ≤ length sub)%nat).
  { unfold sub. rewrite length_app. cbn [length]. unfold SubstreamIDLength in *. lia. }
  rewrite !length_app, PutUint64_length, Hid.
  destruct (Nat.ltb_spec (8 + (32 + length sub)) (8 + 32 + 32 + 1)) as [?|_]; [lia|].
  rewrite (take_app_length' (PutUint64 (Nonce tm))) by done.
  rewrite Uint64_PutUint64_exact by done.
  unfold slice. rewrite (drop_app_length' (PutUint64 _) _ 8) by done.
  rewrite (take_app_length' (tm_ID tm)), (copy_at_whole (make 32)) by done.
  rewrite app_assoc, drop_app_length' by (rewrite length_app, Hid; done).
  rewrite Hdec. by destruct tm.
Qed.

Section Connection.

Variable IDFromBytes : bytes → option PeerID.

Lemma encodeConnectionMessage_layout (cm : ConnectionMessage) :
  length (cm_ID cm) = ConnectionIDLength →
  encodeConnectionMessage cm
  = cm_ID cm ++ recipient_flag (cm_Recipient cm)
      :: recipient_bytes (cm_Recipient cm) ++ cm_PeerID cm.
Proof.
  intros Hid. unfold encodeConnectionMessage, ConnectionIDLength in *.
  set (flag := recipient_flag _). set (rb := recipient_bytes _).
  rewrite <- !Nat.add_assoc, !make_add. change (make 1) with [x00]. cbn [app].
  rewrite (copy_range_head (make 32) _ (cm_ID cm)); try done.
  rewrite insert_mid by done.
  change (cm_ID cm ++ flag :: ?t) with (cm_ID cm ++ [flag] ++ t).
  rewrite (app_assoc (cm_ID cm) [flag]).
  unfold copy_at at 2. rewrite !length_app, !make_length.
  rewrite (copy_range_mid _ (make (length rb)) _ rb);
    rewrite ?length_app, ?make_length; try done; [|cbn; lia..].
  rewrite (app_assoc _ rb).
  rewrite (copy_at_tail _ (make (length (cm_PeerID cm))) (cm_PeerID cm));
    rewrite ?length_app, ?make_length; try done; [|cbn; lia].
  by rewrite <- !app_assoc.
Qed.

(** What [decodeConnectionMessage] does with the trailing bytes of a
    payload whose fixed fields are in order: it hands them to
    [peer.IDFromBytes] and fails when that fails. *)
Lemma decodeConnectionMessage_layout (cid : ConnectionID)
    (rec : option Recipient) (trailing : bytes) :
  length cid = ConnectionIDLength →
  match rec with Some r => wf_recipient r | None => True end →
  trailing ≠ [] →
  decodeConnectionMessage IDFromBytes
    (cid ++ recipient_flag rec :: recipient_bytes rec ++ trailing)
  = match IDFromBytes trailing with
    | Some peerID => Some (mkConnectionMessage peerID rec cid)
    | None => None
    end.
Proof.
  intros Hid Hrec Htr. unfold decodeConnectionMessage, ConnectionIDLength in *.
  assert (Hlen : (0 < length trailing)%nat) by (destruct trailing; [done|cbn; lia]).
  rewrite !length_app. cbn [length]. rewrite length_app.
  destruct (Nat.ltb_spec (length cid + S (length (recipient_bytes rec)
                                           + length trailing)) (32 + 1))
    as [?|_]; [lia|].
  rewrite (take_app_length' cid), (copy_at_whole (make 32)) by done.
  rewrite list_lookup_middle by done. cbn [default from_option id].
  destruct rec as [r|]; cbn [recipient_flag recipient_bytes].
  - pose proof (Bytes_length r Hrec) as Hb. unfold RecipientLength in *.
    destruct (Nat.ltb_spec (length cid + S (length (Bytes r) + length trailing))
                           (32 + 1 + 96)) as [?|_]; [lia|].
    unfold slice.
    change (cid ++ x01 :: Bytes r ++ trailing)
      with (cid ++ [x01] ++ Bytes r ++ trailing).
    rewrite (app_assoc cid [x01]).
    rewrite (drop_app_length' (cid ++ [x01]) _ (32 + 1))
      by (rewrite length_app; cbn [length]; lia).
    rewrite (take_app_length' (Bytes r)) by lia.
    rewrite RecipientFromBytes_Bytes by done.
    destruct (Nat.leb_spec (length cid + S (length (Bytes r) + length trailing))
                           (32 + 1 + 96)) as [?|_]; [lia|].
    rewrite (app_assoc _ (Bytes r)).
    rewrite (drop_app_length' _ trailing (32 + 1 + 96))
      by (rewrite !length_app; cbn [length]; lia).
    done.
  - cbn [app].
    change (cid ++ x00 :: trailing) with (cid ++ [x00] ++ trailing).
    rewrite app_assoc.
    rewrite (drop_app_length' _ trailing (32 + 1))
      by (rewrite !length_app; cbn [length]; lia).
    match goal with
    | |- context [(?a <=? ?b)%nat] =>
        destruct (Nat.leb_spec a b) as [?|_]; [cbn [length] in *; lia|]
    end.
    done.
Qed.

Lemma decode_encode_connection (cm : ConnectionMessage) :
  wf_connection IDFromBytes cm →
  decodeConnectionMessage IDFromBytes (encodeConnectionMessage cm) = Some cm.
Proof.
  intros (Hid & Hrec & Hne & Hpeer).
  rewrite encodeConnectionMessage_layout by done.
  rewrite decodeConnectionMessage_layout by done.
  rewrite Hpeer. by destruct cm.
Qed.

Lemma Encode_layout (ty : byte) (payload : bytes) :
  Some (copy_at (<[0%nat := ty]> (make (1 + length payload))) 1 payload)
  = Some (ty :: payload).
Proof.
  f_equal. rewrite make_add. change (make 1) with [x00]. cbn [app].
  change (<[0%nat:=ty]> (x00 :: make (length payload)))
    with ([ty] ++ make (length payload)).
  rewrite (copy_at_tail [ty] (make (length payload)) payload);
    rewrite ?make_length; done.
Qed.

(** C2. Codec round trip: a well-formed top-level message encodes, and
    decoding the bytes gives the message back. *)
Theorem codec_round_trip (msg : Message) :
  wf_message IDFromBytes msg →
  ∃ data, Encode (Some msg) = Some data
          ∧ Decode IDFromBytes data = Some msg.
Proof.
  unfold wf_message, Encode. intros Hwf.
  destruct msg as [ty conn tr]; cbn [Type_ Connection Transport] in *.
  destruct ty; try done;
    destruct Hwf as (x & -> & Hx & ->);
    (eexists; split; [apply Encode_layout|]);
    unfold Decode; cbn [Type_ length Nat.ltb Nat.leb lookup list_lookup
                        default from_option id drop].
  - by rewrite drop_0, decode_encode_connection.
  - by rewrite drop_0, decode_encode_connection.
  - by rewrite drop_0, decode_encode_transport.
Qed.

(** C7, as the code has it.  For a payload with a 32-byte ConnectionID,
    a recipient flag 0 or 1 with the matching recipient, and non-empty
    trailing bytes, [decodeConnectionMessage] succeeds exactly when
    [peer.IDFromBytes] accepts the trailing bytes, and the peer identity
    it returns is the one [peer.IDFromBytes] returned. *)
Theorem decode_connection_peer_identity (cid : ConnectionID)
    (rec : option Recipient) (trailing : bytes) :
  length cid = ConnectionIDLength →
  match rec with Some r => wf_recipient r | None => True end →
  trailing ≠ [] →
  let payload := cid ++ recipient_flag rec :: recipient_bytes rec ++ trailing in
  (∀ peerID, IDFromBytes trailing = Some peerID →
     decodeConnectionMessage IDFromBytes payload
     = Some (mkConnectionMessage peerID rec cid))
  ∧ (IDFromBytes trailing = None →
     decodeConnectionMessage IDFromBytes payload = None).
Proof.
  intros Hid Hrec Htr payload. unfold payload.
  rewrite decodeConnectionMessage_layout by done.
  split; [intros p ->|intros ->]; done.
Qed.

End Connection.

Lemma sample_recipient_wf : wf_recipient sample_recipient.
Proof. by split_and!. Qed.

Lemma codec_round_trip_witness :
  wf_message Peer.IDFromBytes sample_request
  ∧ ∃ data, Encode (Some sample_request) = Some data
            ∧ Decode Peer.IDFromBytes data = Some sample_request.
Proof.
  assert (Hwf : wf_message Peer.IDFromBytes sample_request).
  { cbn. eexists. split; [reflexivity|]. split; [|reflexivity].
    by split_and!. }
  split; [exact Hwf|]. exact (codec_round_trip Peer.IDFromBytes sample_request Hwf).
Defined.

Lemma decode_connection_peer_identity_witness :
  let payload := replicate 32 x44 ++ x00 :: [] ++ sample_peer in
  (∀ peerID, Peer.IDFromBytes sample_peer = Some peerID →
     decodeConnectionMessage Peer.IDFromBytes payload
     = Some (mkConnectionMessage peerID None (replicate 32 x44)))
  ∧ (Peer.IDFromBytes sample_peer = None →
     decodeConnectionMessage Peer.IDFromBytes payload = None).
Proof.
  apply (decode_connection_peer_identity Peer.IDFromBytes
           (replicate 32 x44) None sample_peer); done.
Defined.

(** C7 as stated fails: the single trailing byte [0x01] is not empty,
    but it is no multihash, [peer.IDFromBytes] rejects it and so does
    the decoder. *)
Lemma decode_connection_rejects_peer_identity :
  ¬ (∀ (cid : ConnectionID) (rec : option Recipient) (trailing : bytes),
       length cid = ConnectionIDLength →
       match rec with Some r => wf_recipient r | None => True end →
       trailing ≠ [] →
       decodeConnectionMessage Peer.IDFromBytes
         (cid ++ recipient_flag rec :: recipient_bytes rec ++ trailing)
       = Some (mkConnectionMessage trailing rec cid)).
Proof.
  intros H. specialize (H (replicate 32 x44) None [x01] eq_refl I ltac:(done)).
  vm_compute in H. discriminate H.
Qed.

End CodecFacts.

(** ** The gateway request *)

Module MixnetFacts.
Import Message Mixnet ByteFacts CodecFacts.




End MixnetFacts.

(** ** Positional numerals *)

Module DigitFacts.
Local Open Scope N_scope.

Section Base.
Variable B : N.
Hypothesis HB : 2 ≤ B.

Local Abbreviation canonical := (canonical B).

Lemma of_digits_snoc (ds : list N) (d : N) :
  of_digits B (ds ++ [d]) = of_digits B ds * B + d.
Proof. unfold of_digits. by rewrite fold_left_app. Qed.

Lemma of_digits_zeros (z : nat) (ds : list N) :
  of_digits B (replicate z 0 ++ ds) = of_digits B ds.
Proof. induction z as [|z IH]; [done|]. cbn. exact IH. Qed.

Lemma canonical_snoc (ds : list N) (d : N) :
  canonical (ds ++ [d]) →
  canonical ds ∧ d < B ∧ (ds = [] → d ≠ 0).
Proof.
  intros [Hall Hhd]. apply Forall_app in Hall as [Hds Hd].
  apply Forall_inv in Hd. cbv beta in Hd. split_and!; [|done|].
  - split; [done|]. destruct ds; [done|]. exact Hhd.
  - intros ->. cbn in Hhd. congruence.
Qed.

Lemma canonical_pos (ds : list N) :
  canonical ds → ds ≠ [] → 0 < of_digits B ds.
Proof.
  induction ds as [|d ds IH] using rev_ind; [done|]. intros Hc _.
  apply canonical_snoc in Hc as (Hc & Hd & Hnil). rewrite of_digits_snoc.
  destruct ds as [|d' ds'] using rev_ind.
  - specialize (Hnil eq_refl). cbn. lia.
  - assert (0 < of_digits B (ds' ++ [d'])) by (apply IH; [done|by destruct ds']).
    nia.
Qed.

Lemma to_digits_aux_zero (fuel : nat) (acc : list N) :
  to_digits_aux fuel B 0 acc = acc.
Proof. by destruct fuel. Qed.

(** [to_digits] undoes [of_digits] on canonical numerals. *)
Lemma to_digits_aux_of_digits (ds : list N) :
  canonical ds →
  ∀ (fuel : nat) (acc : list N),
    of_digits B ds < 2 ^ N.of_nat fuel →
    to_digits_aux fuel B (of_digits B ds) acc = ds ++ acc.
Proof.
  induction ds as [|d ds IH] using rev_ind; intros Hc fuel acc Hfuel.
  - apply to_digits_aux_zero.
  - pose proof (canonical_pos _ Hc ltac:(by destruct ds)) as Hpos.
    apply canonical_snoc in Hc as (Hc & Hd & Hnil).
    rewrite of_digits_snoc in *.
    destruct fuel as [|fuel]; [cbn in Hfuel; lia|].
    cbn [to_digits_aux]. destruct (N.eqb_spec (of_digits B ds * B + d) 0); [lia|].
    replace ((of_digits B ds * B + d) / B) with (of_digits B ds)
      by (apply N.div_unique with d; lia).
    replace ((of_digits B ds * B + d) mod B) with d
      by (apply N.mod_unique with (of_digits B ds); lia).
    rewrite IH; [by rewrite <- app_assoc|done|].
    rewrite Nat2N.inj_succ, N.pow_succ_r' in Hfuel.
    assert (of_digits B ds * 2 ≤ of_digits B ds * B)
      by (apply N.mul_le_mono_l; lia).
    lia.
Qed.

Lemma to_digits_of_digits (ds : list N) :
  canonical ds → to_digits B (of_digits B ds) = ds.
Proof.
  intros Hc. unfold to_digits. rewrite to_digits_aux_of_digits; [apply app_nil_r|done|].
  rewrite N2Nat.id. apply N.size_gt.
Qed.

(** [to_digits] produces a canonical numeral of its argument. *)
Lemma to_digits_aux_spec (fuel : nat) :
  ∀ (n : N) (acc : list N),
    n < 2 ^ N.of_nat fuel →
    ∃ ds, to_digits_aux fuel B n acc = ds ++ acc
          ∧ of_digits B ds = n ∧ canonical ds.
Proof.
  induction fuel as [|fuel IH]; intros n acc Hn.
  - exists []. cbn in *. assert (n = 0) by lia. subst. by split_and!; [..|split].
  - cbn [to_digits_aux]. destruct (N.eqb_spec n 0) as [->|Hnz].
    { exists []. by split_and!; [..|split]. }
    pose proof (N.div_mod n B ltac:(lia)) as Hdm.
    pose proof (N.mod_upper_bound n B ltac:(lia)) as Hmb.
    destruct (IH (n / B) (n mod B :: acc)) as (ds & Hrun & Hval & Hall & Hhd).
    { rewrite Nat2N.inj_succ, N.pow_succ_r' in Hn.
      assert (2 * (n / B) ≤ B * (n / B)) by (apply N.mul_le_mono_r; lia).
      clear IH. generalize dependent (2 ^ N.of_nat fuel).
      generalize dependent (n / B). generalize dependent (n mod B). intros. nia. }
    exists (ds ++ [n mod B]). rewrite Hrun, <- app_assoc. split; [done|].
    rewrite of_digits_snoc, Hval. split; [lia|]. split.
    + apply Forall_app. split; [done|]. by apply Forall_singleton.
    + destruct ds as [|d ds]; [|exact Hhd]. cbn in *. intros [= H0]. lia.
Qed.

Lemma to_digits_spec (n : N) :
  of_digits B (to_digits B n) = n ∧ canonical (to_digits B n).
Proof.
  unfold to_digits.
  destruct (to_digits_aux_spec (N.to_nat (N.size n)) n []) as (ds & -> & H1 & H2).
  { rewrite N2Nat.id. apply N.size_gt. }
  by rewrite app_nil_r.
Qed.

End Base.

End DigitFacts.

(** ** base58 and the textual form of a recipient *)

Module RecipientFacts.
Import Message ByteFacts CodecFacts DigitFacts.
Local Open Scope N_scope.

Lemma decode_encode_digit (d : N) :
  d < 58 → Base58.decode_digit (Base58.encode_digit d) = Some d.
Proof.
  intros Hd. rewrite <- (N2Nat.id d) in *.
  assert (Hn : (N.to_nat d < 58)%nat) by lia. revert Hn.
  generalize (N.to_nat d) as n. intros n Hn.
  do 58 (destruct n as [|n]; [reflexivity|]). lia.
Qed.

Lemma encode_digit_zero_char (d : N) :
  d < 58 → Base58.encode_digit d = Base58.zero_char → d = 0.
Proof.
  intros Hd H. pose proof (decode_encode_digit d Hd) as Hdec.
  rewrite H in Hdec. cbn in Hdec. congruence.
Qed.

Lemma encode_digit_alphabet (d : N) :
  Base58.encode_digit d ∈ Base58.alphabet.
Proof.
  unfold Base58.encode_digit. apply list_elem_of_In.
  destruct (Nat.lt_ge_cases (N.to_nat d) (length Base58.alphabet)) as [Hlt|Hge].
  - by apply nth_In.
  - rewrite nth_overflow by done. by left.
Qed.

Lemma alphabet_no_separator (c : ascii) :
  c ∈ Base58.alphabet → c ≠ "."%char ∧ c ≠ "@"%char.
Proof.
  intros Hc. split; intros ->; revert Hc; unfold Base58.alphabet;
    cbn [list_ascii_of_string]; rewrite !elem_of_cons, elem_of_nil;
    intros H; repeat (destruct H as [H|H]; [discriminate H|]); done.
Qed.

Lemma decode_digits_encode (ds : list N) :
  Forall (λ d, d < 58) ds →
  Base58.decode_digits (map Base58.encode_digit ds) = Some ds.
Proof.
  induction 1 as [|d ds Hd _ IH]; [done|]. cbn [map Base58.decode_digits].
  by rewrite decode_encode_digit, IH.
Qed.

Lemma decode_digits_zeros (z : nat) (str : list ascii) :
  Base58.decode_digits (replicate z Base58.zero_char ++ str)
  = (λ ds, replicate z 0 ++ ds) <$> Base58.decode_digits str.
Proof.
  induction z as [|z IH]; cbn [replicate app Base58.decode_digits].
  - by destruct (Base58.decode_digits str).
  - rewrite IH. change (Base58.decode_digit Base58.zero_char) with (Some 0).
    by destruct (Base58.decode_digits str).
Qed.

Lemma count_leading_zeros (z : nat) (str : list ascii) :
  Base58.count_leading (Ascii.eqb Base58.zero_char)
    (replicate z Base58.zero_char ++ str)
  = (z + Base58.count_leading (Ascii.eqb Base58.zero_char) str)%nat.
Proof. induction z as [|z IH]; [done|]. cbn. by rewrite IH. Qed.

Lemma count_leading_digits (ds : list N) :
  canonical 58 ds →
  Base58.count_leading (Ascii.eqb Base58.zero_char)
    (map Base58.encode_digit ds) = 0%nat.
Proof.
  intros [Hall Hhd]. destruct ds as [|d ds]; [done|]. cbn [map Base58.count_leading].
  apply Forall_cons in Hall as [Hd _].
  destruct (Ascii.eqb_spec Base58.zero_char (Base58.encode_digit d)) as [E|_]; [|done].
  symmetry in E. apply encode_digit_zero_char in E; [|done]. subst. done.
Qed.

Lemma bytes_below_256 (bin : bytes) :
  Forall (λ d, d < 256) (map Byte.to_N bin).
Proof.
  induction bin as [|b bin IH]; constructor; [|done].
  pose proof (Byte.to_N_bounded b). lia.
Qed.

(** The bytes after the leading zero bytes. *)
Lemma leading_zero_split (bin : bytes) :
  let z := Base58.count_leading Base58.is_zero_byte bin in
  bin = replicate z x00 ++ drop z bin
  ∧ canonical 256 (map Byte.to_N (drop z bin)).
Proof.
  cbv zeta. induction bin as [|b bin IH]; cbn [Base58.count_leading].
  - split; [done|]. by split.
  - destruct (Base58.is_zero_byte b) eqn:Hb; unfold Base58.is_zero_byte in Hb.
    + apply N.eqb_eq in Hb. destruct IH as [IH1 IH2].
      cbn [replicate drop app]. split; [|done].
      f_equal; [|done]. rewrite <- (byte_of_N_to_N b), Hb. done.
    + apply N.eqb_neq in Hb. cbn [replicate drop app map]. split; [done|]. split.
      * apply (bytes_below_256 (b :: bin)).
      * cbn. congruence.
Qed.

Lemma map_byte_of_N_to_N (bin : bytes) :
  map byte_of_N (map Byte.to_N bin) = bin.
Proof.
  induction bin as [|b bin IH]; [done|]. cbn. by rewrite byte_of_N_to_N, IH.
Qed.

(** Decoding what [Encode] produced gives the bytes back. *)
Lemma Base58_Decode_Encode (bin : bytes) :
  bin ≠ [] → Base58.Decode (Base58.Encode bin) = Some bin.
Proof.
  intros Hne. destruct (leading_zero_split bin) as [Hsplit Hcan].
  set (z := Base58.count_leading Base58.is_zero_byte bin) in *.
  set (rest := drop z bin) in *.
  assert (Hnum : of_digits 256 (map Byte.to_N bin)
                 = of_digits 256 (map Byte.to_N rest)).
  { rewrite Hsplit at 1. rewrite map_app.
    replace (map Byte.to_N (replicate z x00)) with (replicate z 0)
      by (clear; induction z; [done|cbn; by f_equal]).
    apply of_digits_zeros. }
  unfold Base58.Encode. fold z. rewrite Hnum.
  set (num := of_digits 256 (map Byte.to_N rest)) in *.
  destruct (to_digits_spec 58 ltac:(lia) num) as [Hval H58].
  set (ds := to_digits 58 num) in *.
  assert (Hstr : replicate z Base58.zero_char ++ map Base58.encode_digit ds ≠ []).
  { destruct z as [|z]; [|done]. destruct ds as [|d ds]; [|done]. exfalso.
    cbn in Hval. assert (Hr : rest ≠ []) by (unfold rest; by rewrite drop_0).
    pose proof (canonical_pos 256 ltac:(lia) _ Hcan) as Hpos. fold num in Hpos.
    destruct rest; [done|]. specialize (Hpos ltac:(done)). lia. }
  unfold Base58.Decode.
  destruct (replicate z Base58.zero_char ++ map Base58.encode_digit ds)
    as [|c str] eqn:E; [done|]. rewrite <- E. clear Hstr.
  rewrite decode_digits_zeros, decode_digits_encode by apply H58.
  cbn [fmap option_fmap option_map].
  rewrite count_leading_zeros, count_leading_digits, Nat.add_0_r by done.
  rewrite of_digits_zeros, Hval. unfold num.
  rewrite (to_digits_of_digits 256 ltac:(lia)) by done.
  by rewrite map_byte_of_N_to_N, <- Hsplit.
Qed.

Lemma Base58_Encode_no_separator (bin : bytes) :
  Forall (λ c, c ≠ "."%char ∧ c ≠ "@"%char) (Base58.Encode bin).
Proof.
  apply Forall_forall. intros c Hc. apply alphabet_no_separator.
  unfold Base58.Encode in Hc. apply elem_of_app in Hc as [Hc|Hc].
  - apply elem_of_replicate in Hc as [-> _]. by left.
  - apply list_elem_of_fmap in Hc as (d & -> & _). apply encode_digit_alphabet.
Qed.

Lemma Split_no_sep (s : list ascii) (sep : ascii) :
  Forall (λ c, c ≠ sep) s → Split s sep = [s].
Proof.
  induction 1 as [|c s Hc _ IH]; [done|]. cbn [Split].
  destruct (Ascii.eqb_spec c sep); [done|]. by rewrite IH.
Qed.

Lemma Split_app (s1 s2 : list ascii) (sep : ascii) :
  Forall (λ c, c ≠ sep) s1 →
  Split (s1 ++ sep :: s2) sep = s1 :: Split s2 sep.
Proof.
  induction 1 as [|c s Hc _ IH]; cbn [Split app].
  - by rewrite Ascii.eqb_refl.
  - destruct (Ascii.eqb_spec c sep); [done|]. by rewrite IH.
Qed.

Lemma decodeBase58To32_Encode (key : bytes) :
  length key = 32%nat → decodeBase58To32 (Base58.Encode key) = Some key.
Proof.
  intros Hlen. unfold decodeBase58To32.
  rewrite Base58_Decode_Encode by (by destruct key).
  rewrite Hlen. cbn [Nat.eqb negb]. by rewrite copy_at_whole.
Qed.

(** C3. Address round trip: the text [ident.enc@gw] whose three parts
    are the base58 renderings of 32-byte keys parses, the value prints
    as the same text, and its binary form is the 96 bytes of the three
    keys in this order. *)
Theorem parse_recipient_round_trip (ident enc gw : bytes) :
  length ident = 32%nat → length enc = 32%nat → length gw = 32%nat →
  let T := Base58.Encode ident ++ ["."%char] ++ Base58.Encode enc
             ++ ["@"%char] ++ Base58.Encode gw in
  ∃ r, ParseRecipient T = Some r
       ∧ String_ r = T
       ∧ Bytes r = ident ++ enc ++ gw
       ∧ length (Bytes r) = 96%nat.
Proof.
  intros H1 H2 H3 T. exists (mkRecipient ident enc gw).
  assert (Hwf : wf_recipient (mkRecipient ident enc gw)) by done.
  split_and!.
  - unfold ParseRecipient, T.
    pose proof (Base58_Encode_no_separator ident) as N1.
    pose proof (Base58_Encode_no_separator enc) as N2.
    pose proof (Base58_Encode_no_separator gw) as N3.
    rewrite !app_assoc, <- (app_assoc _ ["@"%char]). cbn [app].
    rewrite Split_app, Split_no_sep.
    + rewrite <- app_assoc. cbn [app]. rewrite Split_app, Split_no_sep.
      * by rewrite !decodeBase58To32_Encode.
      * eapply Forall_impl; [exact N2|]. by intros c [? _].
      * eapply Forall_impl; [exact N1|]. by intros c [? _].
    + eapply Forall_impl; [exact N3|]. by intros c [_ ?].
    + rewrite <- app_assoc. apply Forall_app. split.
      * eapply Forall_impl; [exact N1|]. by intros c [_ ?].
      * constructor; [done|]. eapply Forall_impl; [exact N2|]. by intros c [_ ?].
  - done.
  - by rewrite Bytes_layout.
  - by apply (Bytes_length (mkRecipient ident enc gw)).
Qed.

Lemma parse_recipient_round_trip_witness :
  let T := Base58.Encode (ClientIdentity sample_recipient) ++ ["."%char]
             ++ Base58.Encode (ClientEncryptionKey sample_recipient)
             ++ ["@"%char] ++ Base58.Encode (Gateway sample_recipient) in
  ∃ r, ParseRecipient T = Some r
       ∧ String_ r = T
       ∧ Bytes r = ClientIdentity sample_recipient
                     ++ ClientEncryptionKey sample_recipient
                     ++ Gateway sample_recipient
       ∧ length (Bytes r) = 96%nat.
Proof.
  apply (parse_recipient_round_trip (ClientIdentity sample_recipient)
           (ClientEncryptionKey sample_recipient) (Gateway sample_recipient));
    reflexivity.
Defined.

End RecipientFacts.

(** ** The transport indices *)

Module TransportFacts.
Import Message Queue Transport.

Lemma step_disjoint (t : TransportState) (e : Event) :
  indices_disjoint t → no_clash t e → indices_disjoint (step t e).
Proof.
  intros Hd Hc key [Hp Hl]. destruct e as [cid r|cid|cm a d|cm a|cid|]; cbn in *.
  - unfold Dial_register in *.
    destruct (pendingDials t !! connKey cid) eqn:E; cbn in *;
      [by apply (Hd key)|].
    rewrite lookup_insert in Hp. case_decide; subst.
    + rewrite Hc in Hl. by destruct Hl.
    + by apply (Hd key).
  - unfold removePendingDial in *.
    destruct (pendingDials t !! connKey cid) eqn:E; cbn in *;
      [|by apply (Hd key)].
    rewrite lookup_delete in Hp. case_decide; [by destruct Hp|by apply (Hd key)].
  - unfold handleConnectionRequest in *.
    destruct (cm_Recipient cm); [|by apply (Hd key)].
    destruct (connections t !! connKey (cm_ID cm)) eqn:E; [by apply (Hd key)|].
    destruct a; cbn in *; [|by apply (Hd key)].
    destruct d; cbn in *.
    + rewrite lookup_insert in Hl. case_decide; subst.
      * rewrite Hc in Hp. by destruct Hp.
      * by apply (Hd key).
    + rewrite lookup_delete in Hl. case_decide; [by destruct Hl|].
      rewrite lookup_insert_ne in Hl by done. by apply (Hd key).
  - unfold handleConnectionResponse in *.
    destruct (pendingDials t !! connKey (cm_ID cm)) eqn:E; [|by apply (Hd key)].
    destruct a; [destruct (length (resultCh d) <? 1)%nat|]; cbn in *.
    + rewrite lookup_delete in Hp. case_decide; [by destruct Hp|].
      rewrite lookup_insert_ne in Hl by done. by apply (Hd key).
    + rewrite lookup_delete in Hp. case_decide; [by destruct Hp|].
      rewrite lookup_delete_ne, lookup_insert_ne in Hl by done.
      by apply (Hd key).
    + rewrite lookup_delete in Hp. case_decide; [by destruct Hp|].
      by apply (Hd key).
  - rewrite lookup_delete in Hl. case_decide; [by destruct Hl|]. by apply (Hd key).
  - rewrite lookup_empty in Hp. by destruct Hp.
Qed.

(** [handleConnectionResponse], the removal of a dial, the removal of a
    connection and [Close] keep the two indices disjoint whatever the
    ConnectionID. *)
Lemma step_disjoint_unguarded (t : TransportState) (e : Event) :
  indices_disjoint t →
  match e with EvDial _ _ | EvRequest _ _ _ => False | _ => True end →
  indices_disjoint (step t e).
Proof. intros Hd He. apply step_disjoint; [done|]. by destruct e. Qed.

(** C5, as the code has it.  From the empty transport, along every
    sequence of dial registrations, connection requests, connection
    responses, dial removals, connection closes and transport closes in
    which no dial registers the ID of a live connection and no request
    arrives under the ID of a pending dial, no ConnectionID is a key of
    both indices. *)
Theorem indices_disjoint_run (es : list Event) :
  no_clashes newTransport es → indices_disjoint (run newTransport es).
Proof.
  assert (Hgen : ∀ t, indices_disjoint t → no_clashes t es →
                      indices_disjoint (run t es)).
  { induction es as [|e es IH]; intros t Hd Hc; [done|].
    destruct Hc as [Hc1 Hc2]. cbn. apply IH; [|done]. by apply step_disjoint. }
  apply Hgen. intros key [Hp _]. cbn in Hp. rewrite lookup_empty in Hp.
  by destruct Hp.
Qed.

Lemma indices_disjoint_run_witness :
  let es := [EvDial sample_id sample_recipient;
             EvResponse sample_conn_response true;
             EvConnClose sample_id;
             EvRequest sample_conn_request true true] in
  no_clashes newTransport es ∧ indices_disjoint (run newTransport es).
Proof.
  assert (H : no_clashes newTransport
                [EvDial sample_id sample_recipient;
                 EvResponse sample_conn_response true;
                 EvConnClose sample_id;
                 EvRequest sample_conn_request true true]).
  { cbn. split_and!; try done; vm_compute; reflexivity. }
  split; [exact H|]. exact (indices_disjoint_run _ H).
Defined.

(** C5 as stated fails: [Dial] looks for a collision among the pending
    dials only and [handleConnectionRequest] among the connections only,
    so a request that arrives under the ID of a pending dial leaves the
    ID in both indices. *)
Lemma pending_dial_and_connection_coexist :
  ¬ (∀ es, indices_disjoint (run newTransport es)).
Proof.
  intros H.
  apply (H [EvDial sample_id sample_recipient;
            EvRequest sample_conn_request true true] (connKey sample_id)).
  split; vm_compute; eauto.
Qed.

End TransportFacts.

(** ** Substreams *)

Module SubstreamFacts.
Import Message Queue Transport ByteFacts.

(** After [closeWithControl] the flags are set and the channel is
    closed; what was buffered is still there. *)
Lemma closed_substream_state (s : Substream) :
  channelOnce s = inbound_closed s →
  let s' := close_inbound_once (set_remoteClosed (set_localClosed s)) in
  localClosed s' = true ∧ remoteClosed s' = true
  ∧ inbound_closed s' = true ∧ channelOnce s' = true
  ∧ inbound s' = inbound s ∧ buffer s' = buffer s ∧ s_id s' = s_id s.
Proof.
  intros Hone. unfold close_inbound_once. cbn.
  destruct (channelOnce s) eqn:E; cbn; rewrite ?E, <- ?Hone; by split_and!.
Qed.

(** A read after the close finds what a read before it would have
    found, and end of stream where that one would have blocked. *)
Lemma Read_after_close (s s' : Substream) (n : nat) :
  inbound s' = inbound s → buffer s' = buffer s → inbound_closed s' = true →
  fst (Read s' n)
  = match fst (Read s n) with
    | ReadBlocks => ReadEOF
    | r => r
    end.
Proof.
  intros Hi Hb Hc. unfold Read. rewrite Hi, Hb, Hc.
  destruct (n =? 0)%nat; [done|].
  destruct (length (buffer s) =? 0)%nat; [|done].
  destruct (inbound s) as [|data rest]; [by destruct (inbound_closed s)|].
  destruct (length data =? 0)%nat; cbn [fst buffer set_inbound]; by rewrite ?Hb.
Qed.

Lemma pushData_closed (cc tc : bool) (s : Substream) (data : bytes) :
  remoteClosed s = true → pushData cc tc s data = Some s.
Proof. intros H. unfold pushData. by rewrite H. Qed.

Lemma length_zero_nil {A} (l : list A) : (length l =? 0)%nat = true → l = [].
Proof. intros H. apply Nat.eqb_eq in H. by apply nil_length_inv. Qed.

(** What one [Read] does to the bytes held for the reader. *)
Lemma Read_cases (s : Substream) (n : nat) :
  match Read s n with
  | (ReadOk data, s') =>
      data ++ unread s' = unread s ∧ (length data ≤ n)%nat
      ∧ inbound_closed s' = inbound_closed s
      ∧ ((1 ≤ n)%nat → (read_budget s' < read_budget s)%nat)
  | (ReadEOF, s') => s' = s ∧ unread s = [] ∧ inbound_closed s = true
  | (ReadBlocks, s') => s' = s ∧ unread s = [] ∧ inbound_closed s = false
  end.
Proof.
  unfold Read, unread, read_budget.
  destruct (Nat.eqb_spec n 0) as [->|Hn].
  { split_and!; try done. lia. }
  destruct (length (buffer s) =? 0)%nat eqn:Hbuf.
  - apply length_zero_nil in Hbuf. rewrite Hbuf.
    destruct (inbound s) as [|data rest] eqn:Hin.
    + by destruct (inbound_closed s).
    + destruct (length data =? 0)%nat eqn:Hdata.
      * apply length_zero_nil in Hdata. subst data.
        cbn [set_inbound buffer inbound inbound_closed]. rewrite Hbuf.
        cbn [app concat length]. split_and!; try done; lia.
      * cbn [set_inbound set_buffer buffer inbound inbound_closed].
        rewrite Hbuf. cbn [app concat length].
        apply Nat.eqb_neq in Hdata.
        split_and!; try done.
        -- by rewrite app_assoc, take_drop.
        -- rewrite length_take. lia.
        -- intros _. rewrite length_drop, !length_app. lia.
  - apply Nat.eqb_neq in Hbuf.
    cbn [set_buffer buffer inbound inbound_closed]. split_and!; try done.
    + by rewrite app_assoc, take_drop.
    + rewrite length_take. lia.
    + intros _. rewrite length_drop. lia.
Qed.

Lemma read_all_run (n : nat) :
  (1 ≤ n)%nat →
  ∀ (fuel : nat) (s : Substream),
    (read_budget s < fuel)%nat →
    ∃ s', read_all fuel s n
          = (unread s,
             Some (if inbound_closed s then ReadEOF else ReadBlocks), s')
          ∧ unread s' = [] ∧ inbound_closed s' = inbound_closed s.
Proof.
  intros Hn. induction fuel as [|fuel IH]; intros s Hfuel; [lia|].
  cbn [read_all]. pose proof (Read_cases s n) as Hr.
  destruct (Read s n) as [[data| |] s1].
  - destruct Hr as (Hdata & _ & Hclosed & Hdec). specialize (Hdec Hn).
    destruct (IH s1 ltac:(lia)) as (s' & -> & Hun & Hc).
    exists s'. rewrite Hdata, Hclosed. split; [done|]. split; [done|congruence].
  - destruct Hr as (-> & Hun & Hc). exists s. by rewrite Hun, Hc.
  - destruct Hr as (-> & Hun & Hc). exists s. by rewrite Hun, Hc.
Qed.

(** On a substream whose channel is closed, [Read] reports end of
    stream exactly when it is asked for at least one byte and nothing is
    held; it never blocks. *)
Lemma Read_closed (s : Substream) (n : nat) :
  inbound_closed s = true →
  (fst (Read s n) = ReadEOF ↔ (1 ≤ n)%nat ∧ buffer s = [] ∧ inbound s = [])
  ∧ fst (Read s n) ≠ ReadBlocks.
Proof.
  intros Hc. unfold Read.
  destruct (Nat.eqb_spec n 0) as [->|Hn]; cbn [fst].
  { split; [|done]. split; [done|]. intros [? _]. lia. }
  destruct (length (buffer s) =? 0)%nat eqn:Hbuf.
  - apply length_zero_nil in Hbuf. rewrite Hbuf.
    destruct (inbound s) as [|data rest].
    + rewrite Hc. cbn [fst]. split; [|done]. split; [intros _; split; [lia|done]|done].
    + destruct (length data =? 0)%nat; cbn [fst]; (split; [|done]);
        (split; [done|]); by intros (_ & _ & ?).
  - cbn [fst]. split; [|done]. split; [done|]. intros (_ & Hb & _).
    rewrite Hb in Hbuf. done.
Qed.

(** [Read] touches the channel and the residual buffer only. *)
Lemma Read_flags (s : Substream) (n : nat) :
  remoteClosed (snd (Read s n)) = remoteClosed s
  ∧ localClosed (snd (Read s n)) = localClosed s.
Proof.
  unfold Read. destruct (n =? 0)%nat; [done|].
  destruct (length (buffer s) =? 0)%nat; [|done].
  destruct (inbound s) as [|data rest]; [by destruct (inbound_closed s)|].
  by destruct (length data =? 0)%nat.
Qed.

Lemma read_seq_flags (ns : list nat) :
  ∀ s, remoteClosed (snd (read_seq s ns)) = remoteClosed s
       ∧ localClosed (snd (read_seq s ns)) = localClosed s.
Proof.
  induction ns as [|n ns IH]; intros s; [done|]. cbn [read_seq].
  pose proof (Read_flags s n) as Hf. destruct (Read s n) as [r s1].
  pose proof (IH s1) as Hs. destruct (read_seq s1 ns) as [rs s2].
  cbn [snd] in *. destruct Hf as [Hf1 Hf2], Hs as [Hs1 Hs2].
  split; congruence.
Qed.

Lemma Read_empty_chunk (s : Substream) (n : nat) (rest : list bytes) :
  (1 ≤ n)%nat → buffer s = [] → inbound s = [] :: rest →
  Read s n = (ReadOk [], set_inbound s rest).
Proof.
  intros Hn Hb Hi. unfold Read. rewrite Hb, Hi.
  by destruct (Nat.eqb_spec n 0); [lia|].
Qed.

(** Any sequence of reads on a substream whose channel is closed: none
    blocks, and the bytes they return, followed by what is still held,
    are what was held. *)
Lemma read_seq_closed (ns : list nat) :
  ∀ s, inbound_closed s = true →
       (ReadBlocks ∉ fst (read_seq s ns))
       ∧ concat (outcome_data <$> fst (read_seq s ns))
           ++ unread (snd (read_seq s ns)) = unread s
       ∧ inbound_closed (snd (read_seq s ns)) = true.
Proof.
  induction ns as [|n ns IH]; intros s Hc; cbn [read_seq].
  - cbn. split_and!; try done. apply not_elem_of_nil.
  - pose proof (Read_cases s n) as Hr.
    destruct (Read s n) as [r s1] eqn:Hread.
    assert (Hc1 : inbound_closed s1 = true).
    { destruct r; [by destruct Hr as (_ & _ & -> & _)|by destruct Hr as (-> & _)..]. }
    destruct (IH s1 Hc1) as (Hnb & Hdata & Hc2).
    destruct (read_seq s1 ns) as [rs s2]. cbn [fst snd] in *.
    split_and!; [|by destruct r; cbn [fmap list_fmap outcome_data concat app];
                      [destruct Hr as (<- & _); rewrite <- Hdata, app_assoc
                      |destruct Hr as (-> & _)..]|done].
    apply not_elem_of_cons. split; [|done].
    destruct r; [done|done|]. destruct Hr as (_ & _ & Hr). congruence.
Qed.

(** C8, as the code has it.  [closeWithControl] does nothing when the
    substream is locally closed already.  Otherwise it sets
    local-closed, sets remote-closed and closes the inbound channel
    once; a second call changes nothing.  When it is asked to send
    control ([Close], [CloseWrite], [Reset]; [CloseRead] is not) and
    the connection is not closed, it takes the next nonce, sends a
    Close frame if the send goes through, and takes the stream out of
    the index; otherwise it sends nothing, takes no nonce and leaves the
    index alone.  Afterwards no data frame is accepted any more and no
    [Read] blocks, but what was buffered before is still read: along
    any sequence of reads the bytes returned, followed by what is still
    held, are what was held at the close; a [Read] reports end of stream
    exactly when it asks for at least one byte while the residual
    buffer and the channel are both empty; a zero-size [Read], and one
    that takes an empty chunk off the channel, return no bytes and no
    error; a reader that reads until end of stream gets everything. *)
Theorem local_close (c : Conn) (a : nat) (s : Substream)
    (sendCtl delivered : bool) :
  substreams c !! a = Some s →
  channelOnce s = inbound_closed s →
  (localClosed s = true → closeWithControl c a sendCtl delivered = c)
  ∧ (localClosed s = false →
     let c' := closeWithControl c a sendCtl delivered in
     ∃ s',
       substreams c' !! a = Some s'
       ∧ localClosed s' = true ∧ remoteClosed s' = true
       ∧ inbound_closed s' = true ∧ channelOnce s' = true
       ∧ inbound s' = inbound s ∧ buffer s' = buffer s
       ∧ (sendCtl = true → closed c = false → delivered = true →
          sent c' = sent c ++ [(remoteRecipient c,
                                mkFrame (uint64_incr (nonce c)) (c_id c) (s_id s)
                                        SubstreamMessageClose None)]
          ∧ nonce c' = uint64_incr (nonce c)
          ∧ streams c' = delete (substreamKey (s_id s)) (streams c))
       ∧ (sendCtl = true → closed c = false → delivered = false →
          sent c' = sent c
          ∧ nonce c' = uint64_incr (nonce c)
          ∧ streams c' = delete (substreamKey (s_id s)) (streams c))
       ∧ (sendCtl = false ∨ closed c = true →
          sent c' = sent c ∧ nonce c' = nonce c ∧ streams c' = streams c)
       ∧ (∀ sendCtl' delivered',
            closeWithControl c' a sendCtl' delivered' = c')
       ∧ (∀ cc tc data, pushData cc tc s' data = Some s')
       ∧ (∀ n, fst (Read s' n)
               = match fst (Read s n) with
                 | ReadBlocks => ReadEOF
                 | r => r
                 end)
       ∧ (∀ ns,
            let rs := fst (read_seq s' ns) in
            let s2 := snd (read_seq s' ns) in
            (ReadBlocks ∉ rs)
            ∧ concat (outcome_data <$> rs) ++ unread s2 = unread s
            ∧ (∀ n, fst (Read s2 n) = ReadEOF
                    ↔ (1 ≤ n)%nat ∧ buffer s2 = [] ∧ inbound s2 = [])
            ∧ (∀ n, fst (Read s2 n) ≠ ReadBlocks)
            ∧ fst (Read s2 0) = ReadOk []
            ∧ (∀ n rest, (1 ≤ n)%nat → buffer s2 = [] → inbound s2 = [] :: rest →
                         Read s2 n = (ReadOk [], set_inbound s2 rest))
            ∧ (∀ cc tc data, pushData cc tc s2 data = Some s2))
       ∧ (∀ n fuel, (1 ≤ n)%nat → (read_budget s < fuel)%nat →
            ∃ s2, read_all fuel s' n = (unread s, Some ReadEOF, s2))).
Proof.
  intros Hs Hone. split.
  - intros Hl. unfold closeWithControl. by rewrite Hs, Hl.
  - intros Hl c'.
    destruct (closed_substream_state s Hone) as (H1 & H2 & H3 & H4 & H5 & H6 & H7).
    set (s' := close_inbound_once (set_remoteClosed (set_localClosed s))) in *.
    assert (Hc' : substreams c' !! a = Some s').
    { unfold c', closeWithControl. rewrite Hs, Hl. cbn. apply lookup_insert_eq. }
    assert (Hun : unread s' = unread s) by (unfold unread; by rewrite H5, H6).
    exists s'. split_and!; try done.
    + intros -> Hopen ->. unfold c', closeWithControl. rewrite Hs, Hl.
      unfold closeLocalStream. cbn. rewrite Hopen. cbn. done.
    + intros -> Hopen ->. unfold c', closeWithControl. rewrite Hs, Hl.
      unfold closeLocalStream. cbn. rewrite Hopen. cbn. done.
    + intros Hno. unfold c', closeWithControl. rewrite Hs, Hl.
      unfold closeLocalStream. destruct sendCtl; [|done].
      destruct Hno as [?|Hclosed]; [done|]. cbn. by rewrite Hclosed.
    + intros sc' d'. unfold closeWithControl at 1. by rewrite Hc', H1.
    + intros cc tc data. by apply pushData_closed.
    + intros n. by apply Read_after_close.
    + intros ns rs s2.
      destruct (read_seq_closed ns s' H3) as (Hnb & Hdata & Hc2).
      fold rs s2 in Hnb, Hdata, Hc2. rewrite Hun in Hdata.
      destruct (read_seq_flags ns s') as [Hr2 _]. fold s2 in Hr2.
      split_and!; try done.
      * intros n. by apply Read_closed.
      * intros n. by apply Read_closed.
      * intros n rest. apply Read_empty_chunk.
      * intros cc tc data. apply pushData_closed. by rewrite Hr2.
    + intros n fuel Hn Hfuel.
      destruct (read_all_run n Hn fuel s') as (s2 & Hread & _).
      { unfold read_budget in *. by rewrite H5, H6. }
      exists s2. by rewrite Hread, H3, Hun.
Qed.

Lemma local_close_witness :
  let c := sample_conn [[x68]; []] [] in
  let s := sample_substream [[x68]; []] [] in
  (localClosed s = true → closeWithControl c 0%nat true true = c)
  ∧ (localClosed s = false →
     let c' := closeWithControl c 0%nat true true in
     ∃ s',
       substreams c' !! 0%nat = Some s'
       ∧ localClosed s' = true ∧ remoteClosed s' = true
       ∧ inbound_closed s' = true ∧ channelOnce s' = true
       ∧ inbound s' = inbound s ∧ buffer s' = buffer s
       ∧ (true = true → closed c = false → true = true →
          sent c' = sent c ++ [(remoteRecipient c,
                                mkFrame (uint64_incr (nonce c)) (c_id c) (s_id s)
                                        SubstreamMessageClose None)]
          ∧ nonce c' = uint64_incr (nonce c)
          ∧ streams c' = delete (substreamKey (s_id s)) (streams c))
       ∧ (true = true → closed c = false → true = false →
          sent c' = sent c
          ∧ nonce c' = uint64_incr (nonce c)
          ∧ streams c' = delete (substreamKey (s_id s)) (streams c))
       ∧ (true = false ∨ closed c = true →
          sent c' = sent c ∧ nonce c' = nonce c ∧ streams c' = streams c)
       ∧ (∀ sendCtl' delivered',
            closeWithControl c' 0%nat sendCtl' delivered' = c')
       ∧ (∀ cc tc data, pushData cc tc s' data = Some s')
       ∧ (∀ n, fst (Read s' n)
               = match fst (Read s n) with
                 | ReadBlocks => ReadEOF
                 | r => r
                 end)
       ∧ (∀ ns,
            let rs := fst (read_seq s' ns) in
            let s2 := snd (read_seq s' ns) in
            (ReadBlocks ∉ rs)
            ∧ concat (outcome_data <$> rs) ++ unread s2 = unread s
            ∧ (∀ n, fst (Read s2 n) = ReadEOF
                    ↔ (1 ≤ n)%nat ∧ buffer s2 = [] ∧ inbound s2 = [])
            ∧ (∀ n, fst (Read s2 n) ≠ ReadBlocks)
            ∧ fst (Read s2 0) = ReadOk []
            ∧ (∀ n rest, (1 ≤ n)%nat → buffer s2 = [] → inbound s2 = [] :: rest →
                         Read s2 n = (ReadOk [], set_inbound s2 rest))
            ∧ (∀ cc tc data, pushData cc tc s2 data = Some s2))
       ∧ (∀ n fuel, (1 ≤ n)%nat → (read_budget s < fuel)%nat →
            ∃ s2, read_all fuel s' n = (unread s, Some ReadEOF, s2))).
Proof.
  apply (local_close (sample_conn [[x68]; []] []) 0 (sample_substream [[x68]; []] [])
           true true); reflexivity.
Defined.

(** C8 as stated fails: a chunk that arrived before [Close] is still
    returned by a [Read] issued after it. *)
Lemma read_after_close_returns_data :
  ¬ (∀ (c : Conn) (a : nat) (delivered : bool) (n : nat) (r : ReadOutcome)
       (c' : Conn),
       Substream_Read (Close c a delivered) a n = Some (r, c') →
       r = ReadOk [] ∨ r = ReadEOF).
Proof.
  intros H.
  destruct (H (sample_conn [[x68]] []) 0%nat true 1%nat (ReadOk [x68])
              (update_substream (Close (sample_conn [[x68]] []) 0 true) 0
                 (mkSubstream sample_stream_id [] true [] true true true)))
    as [E|E]; [reflexivity|discriminate E..].
Qed.

(** C9. [Write] on a locally closed substream returns the error
    "substream closed" and changes nothing.  On a substream that is not
    locally closed, when the send goes through, it returns the length of
    the caller's slice; the Data frame it sent carries the next nonce
    and a fresh slice with the caller's bytes, so that the message the
    frame stands for keeps these bytes whatever the caller writes into
    its own slice afterwards. *)
Theorem write_all_or_closed (c : Conn) (a p : nat) (s : Substream)
    (content : bytes) :
  substreams c !! a = Some s →
  slices c !! p = Some content →
  (localClosed s = true →
   ∀ delivered, Write c a p delivered = Some (WriteErr ErrSubstreamClosed, c))
  ∧ (localClosed s = false →
     ∃ c' f buf,
       Write c a p true = Some (WriteOk (length content), c')
       ∧ sent c' = sent c ++ [(remoteRecipient c, f)]
       ∧ f = mkFrame (uint64_incr (nonce c)) (c_id c) (s_id s)
                     SubstreamMessageData (Some buf)
       ∧ buf ≠ p
       ∧ slices c !! buf = None
       ∧ slices c' !! buf = Some content
       ∧ slices c' !! p = Some content
       ∧ ∀ content',
           frame_message (<[p := content']> (slices c')) f
           = mkMessage MessageTypeTransport None
               (Some (mkTransportMessage (uint64_incr (nonce c))
                        (mkSubstreamMessage (s_id s) SubstreamMessageData content)
                        (c_id c)))).
Proof.
  intros Hs Hp. split.
  - intros Hl delivered. unfold Write. by rewrite Hs, Hp, Hl.
  - intros Hl. set (buf := fresh (dom (slices c))).
    assert (Hfresh : slices c !! buf = None).
    { apply not_elem_of_dom. apply is_fresh. }
    assert (Hne : buf ≠ p) by (intros ->; congruence).
    eexists _, _, buf. unfold Write. rewrite Hs, Hp, Hl.
    unfold sendData, sendSubstreamMessage. fold buf.
    cbn [slices set_conn sent nonce c_id remoteRecipient].
    rewrite copy_at_whole by (by rewrite make_length).
    split_and!; try done.
    + cbn [slices set_conn]. apply lookup_insert_eq.
    + cbn [slices set_conn]. by rewrite lookup_insert_ne.
    + intros content'. unfold frame_message.
      cbn [slices set_conn f_Data f_Nonce f_ID f_Stream f_Type].
      by rewrite lookup_insert_ne, lookup_insert_eq by done.
Qed.

Lemma write_all_or_closed_witness :
  let c := sample_conn [] [] in
  let s := sample_substream [] [] in
  let content := [x68; x69] in
  (localClosed s = true →
   ∀ delivered, Write c 0 7 delivered = Some (WriteErr ErrSubstreamClosed, c))
  ∧ (localClosed s = false →
     ∃ c' f buf,
       Write c 0 7 true = Some (WriteOk (length content), c')
       ∧ sent c' = sent c ++ [(remoteRecipient c, f)]
       ∧ f = mkFrame (uint64_incr (nonce c)) (c_id c) (s_id s)
                     SubstreamMessageData (Some buf)
       ∧ buf ≠ 7%nat
       ∧ slices c !! buf = None
       ∧ slices c' !! buf = Some content
       ∧ slices c' !! 7%nat = Some content
       ∧ ∀ content',
           frame_message (<[7%nat := content']> (slices c')) f
           = mkMessage MessageTypeTransport None
               (Some (mkTransportMessage (uint64_incr (nonce c))
                        (mkSubstreamMessage (s_id s) SubstreamMessageData content)
                        (c_id c)))).
Proof.
  apply (write_all_or_closed (sample_conn [] []) 0 7 (sample_substream [] [])
           [x68; x69]); reflexivity.
Defined.

(** C10. An empty Data frame delivered to an open substream is queued
    as an empty chunk; a [Read] with room for at least one byte that
    finds it first, with nothing left over from earlier reads, takes it
    off the channel and returns 0 bytes with a nil error: it neither
    blocks nor reports end of stream. *)
Theorem empty_data_frame_read (c : Conn) (id : SubstreamID) (a : nat)
    (s : Substream) (n : nat) (take_close : bool) :
  getStream c id = Some a →
  substreams c !! a = Some s →
  closed c = false →
  localClosed s = false → remoteClosed s = false → inbound_closed s = false →
  (length (inbound s) < inbound_capacity)%nat →
  (1 ≤ n)%nat →
  ∃ c1 s1,
    handleData c id [] take_close = Some c1
    ∧ substreams c1 !! a = Some s1
    ∧ s1 = set_inbound s (inbound s ++ [[]])
    ∧ (inbound s = [] → buffer s = [] →
       Substream_Read c1 a n = Some (ReadOk [], update_substream c1 a s)
       ∧ inbound_closed s = false)
    ∧ (∀ s2 rest, buffer s2 = [] → inbound s2 = [] :: rest →
         Read s2 n = (ReadOk [], set_inbound s2 rest)).
Proof.
  intros Hg Hs Hopen Hl Hr Hc Hroom Hn.
  eexists _, (set_inbound s (inbound s ++ [[]])).
  unfold handleData, pushData. rewrite Hg, Hs, Hl, Hr, Hc, Hopen.
  destruct (Nat.ltb_spec (length (inbound s)) inbound_capacity) as [_|?]; [|lia].
  cbn [orb andb negb]. split; [reflexivity|].
  split; [apply lookup_insert_eq|]. split; [done|].
  assert (Hread : ∀ s2 rest, buffer s2 = [] → inbound s2 = [] :: rest →
                    Read s2 n = (ReadOk [], set_inbound s2 rest)).
  { intros s2 rest Hb Hi. unfold Read. rewrite Hb, Hi.
    destruct (Nat.eqb_spec n 0); [lia|]. done. }
  split; [|exact Hread].
  intros Hi Hb. split; [|done]. unfold Substream_Read.
  cbn [substreams update_substream set_conn]. rewrite lookup_insert_eq.
  rewrite (Hread _ []) by (cbn; by rewrite ?Hi).
  do 3 f_equal. destruct s; cbn in *; by subst.
Qed.

Lemma empty_data_frame_read_witness :
  let c := sample_conn [] [] in
  let s := sample_substream [] [] in
  ∃ c1 s1,
    handleData c sample_stream_id [] false = Some c1
    ∧ substreams c1 !! 0%nat = Some s1
    ∧ s1 = set_inbound s (inbound s ++ [[]])
    ∧ (inbound s = [] → buffer s = [] →
       Substream_Read c1 0 1 = Some (ReadOk [], update_substream c1 0 s)
       ∧ inbound_closed s = false)
    ∧ (∀ s2 rest, buffer s2 = [] → inbound s2 = [] :: rest →
         Read s2 1 = (ReadOk [], set_inbound s2 rest)).
Proof.
  apply (empty_data_frame_read (sample_conn [] []) sample_stream_id 0
           (sample_substream [] []) 1 false);
    first [reflexivity | cbn; unfold inbound_capacity; lia].
Defined.

End SubstreamFacts.

(** ** More on the reordering queue *)

Module QueueMore.
Import Message Queue QueueFacts.

Lemma TryPush_inv (mq : MessageQueue) (msg : TransportMessage) :
  queue_inv mq → queue_inv (snd (TryPush mq msg)).
Proof.
  intros Hinv. unfold TryPush.
  destruct (nextExpectedNonce mq =? 0); [by apply insertLocked_inv|].
  destruct (Nonce msg =? nextExpectedNonce mq); [by destruct Hinv|].
  destruct (Nonce msg <? nextExpectedNonce mq); [done|].
  destruct (pending mq !! Nonce msg); [done|]. by apply insertLocked_inv.
Qed.

Lemma Pop_inv (mq : MessageQueue) :
  queue_inv mq → queue_inv (snd (Pop mq)).
Proof.
  intros Hinv. unfold Pop.
  destruct (nextExpectedNonce mq =? 0); [done|].
  destruct (nonces mq) as [|n rest] eqn:Hn; [done|].
  destruct (n =? nextExpectedNonce mq); [|done]. cbn [negb snd].
  destruct (Pop_fire_inv mq n rest Hinv Hn) as (H & _).
  destruct H. by split.
Qed.

Lemma reachable_inv (mq : MessageQueue) : reachable mq → queue_inv mq.
Proof.
  induction 1 as [|mq msg _ IH|mq _ IH|mq mq' _ IH Harm|mq _ IH].
  - apply New_inv.
  - by apply TryPush_inv.
  - by apply Pop_inv.
  - unfold SetConnectionMessageReceived in Harm.
    destruct (negb (nextExpectedNonce mq =? 0)); [done|].
    injection Harm as <-. destruct IH. by split.
  - apply New_inv.
Qed.

(** X1. In every state of a queue, whatever was pushed, popped, armed
    or reset, the nonces [PendingNonces] lists are strictly increasing,
    they are exactly the keys of the pending map, and every frame is
    stored under its own nonce. *)
Theorem reachable_queue_invariant (mq : MessageQueue) :
  reachable mq →
  StronglySorted Z.lt (PendingNonces mq)
  ∧ (∀ n, n ∈ PendingNonces mq ↔ is_Some (pending mq !! n))
  ∧ (∀ n m, pending mq !! n = Some m → Nonce m = n).
Proof. intros H. by destruct (reachable_inv mq H). Qed.

Lemma reachable_queue_invariant_witness :
  let mq := snd (TryPush (snd (TryPush New (frame 5))) (frame 3)) in
  StronglySorted Z.lt (PendingNonces mq)
  ∧ (∀ n, n ∈ PendingNonces mq ↔ is_Some (pending mq !! n))
  ∧ (∀ n m, pending mq !! n = Some m → Nonce m = n).
Proof.
  apply (reachable_queue_invariant
           (snd (TryPush (snd (TryPush New (frame 5))) (frame 3)))).
  apply reach_TryPush, reach_TryPush, reach_New.
Defined.

(** X2. A [Pop] that returns a frame returns the frame stored under the
    expected nonce, never the zero value of a missing map entry; this
    nonce was the smallest one pending; the frame is gone from the
    queue afterwards and the expected nonce has moved on by one. *)
Theorem Pop_returns_expected (mq mq' : MessageQueue) (m : TransportMessage)
    (ok : bool) :
  reachable mq →
  Pop mq = (Some m, ok, mq') →
  ok = true
  ∧ Nonce m = nextExpectedNonce mq
  ∧ pending mq !! nextExpectedNonce mq = Some m
  ∧ PendingNonces mq = nextExpectedNonce mq :: PendingNonces mq'
  ∧ pending mq' = delete (nextExpectedNonce mq) (pending mq)
  ∧ nextExpectedNonce mq' = uint64_incr (nextExpectedNonce mq).
Proof.
  intros Hr HP. pose proof (reachable_inv mq Hr) as Hinv. unfold Pop in HP.
  destruct (nextExpectedNonce mq =? 0); [done|].
  destruct (nonces mq) as [|n rest] eqn:Hn; [done|].
  destruct (Z.eqb_spec n (nextExpectedNonce mq)) as [Heq|]; [|done].
  cbn [negb] in HP. subst n.
  destruct (Pop_fire_inv mq _ rest Hinv Hn) as (_ & _ & m0 & Hm0 & Hnonce).
  rewrite Hm0 in HP. cbn in HP. injection HP as <- <- <-.
  unfold PendingNonces. by rewrite Hn.
Qed.

Lemma Pop_returns_expected_witness :
  let mq := mkQueue 1 {[1 := frame 1]} [1] in
  let m := frame 1 in
  let mq' := mkQueue 2 (delete 1 {[1 := frame 1]}) [] in
  true = true
  ∧ Nonce m = nextExpectedNonce mq
  ∧ pending mq !! nextExpectedNonce mq = Some m
  ∧ PendingNonces mq = nextExpectedNonce mq :: PendingNonces mq'
  ∧ pending mq' = delete (nextExpectedNonce mq) (pending mq)
  ∧ nextExpectedNonce mq' = uint64_incr (nextExpectedNonce mq).
Proof.
  apply (Pop_returns_expected (mkQueue 1 {[1 := frame 1]} [1])
           (mkQueue 2 (delete 1 {[1 := frame 1]}) []) (frame 1) true).
  - apply (reach_arm (snd (TryPush New (frame 1)))); [|reflexivity].
    apply reach_TryPush, reach_New.
  - reflexivity.
Defined.

(** The invariant of a run of arbitrary arrivals on an armed queue. *)
Record order_inv (pushed out : list TransportMessage) (mq : MessageQueue)
  : Prop := mkOrderInv {
  oi_out : Nonce <$> out = seqZ 1 (Z.of_nat (length out));
  oi_next : nextExpectedNonce mq = 1 + Z.of_nat (length out);
  oi_bound : 1 + Z.of_nat (length out) < uint64_max;
  oi_inv : queue_inv mq;
  oi_above : Forall (λ n, 1 + Z.of_nat (length out) < n < uint64_max) (nonces mq);
  oi_out_in : ∀ m, m ∈ out → m ∈ pushed;
  oi_pend_in : ∀ n m, pending mq !! n = Some m → m ∈ pushed
}.

Lemma released_no_more_than_pushed (pushed out : list TransportMessage) :
  Nonce <$> out = seqZ 1 (Z.of_nat (length out)) →
  (∀ m, m ∈ out → m ∈ pushed) →
  (length out ≤ length pushed)%nat.
Proof.
  intros Hout Hin. apply submseteq_length, NoDup_submseteq; [|done].
  apply (NoDup_fmap_1 Nonce). rewrite Hout. apply NoDup_seqZ.
Qed.

Lemma drain_blocked (mq : MessageQueue) :
  Pop mq = (None, false, mq) → drain mq = ([], mq).
Proof. intros H. unfold drain. cbn [pop_loop]. by rewrite H. Qed.

Lemma blocked_above (mq : MessageQueue) (k : Z) :
  nextExpectedNonce mq = 1 + k →
  Forall (λ n, 1 + k < n < uint64_max) (nonces mq) →
  Pop mq = (None, false, mq).
Proof.
  intros Hnext Hall. apply Pop_blocked.
  destruct (nonces mq) as [|n rest]; [done|].
  apply Forall_cons in Hall as [Hn _]. cbv beta in Hn. lia.
Qed.

Lemma push_then_drain_order (pushed out : list TransportMessage)
    (mq : MessageQueue) (msg : TransportMessage) :
  order_inv pushed out mq →
  0 ≤ Nonce msg < uint64_max →
  Z.of_nat (length (pushed ++ [msg])) < uint64_max - 1 →
  ∃ out1 mq1,
    push_then_drain mq msg = (out1, mq1)
    ∧ order_inv (pushed ++ [msg]) (out ++ out1) mq1.
Proof.
  intros [Hout Hnext Hbound Hinv Habove Hoin Hpin] Hn Hlen.
  set (k := Z.of_nat (length out)) in *.
  assert (Hk : 0 ≤ k) by (unfold k; lia).
  assert (Hsame : ∀ mq0,
    nextExpectedNonce mq0 = 1 + k → queue_inv mq0 →
    Forall (λ n, 1 + k < n < uint64_max) (nonces mq0) →
    (∀ n m, pending mq0 !! n = Some m → m ∈ pushed ++ [msg]) →
    ∃ out1 mq1, (let '(ms, mq') := drain mq0 in ([] ++ ms, mq')) = (out1, mq1)
                ∧ order_inv (pushed ++ [msg]) (out ++ out1) mq1).
  { intros mq0 Hnx Hq Hab Hp. exists [], mq0.
    rewrite (drain_blocked mq0) by (by apply (blocked_above mq0 k)).
    split; [done|]. rewrite app_nil_r. split; try done.
    intros m Hm. apply elem_of_app. left. auto. }
  unfold push_then_drain, TryPush.
  destruct (Z.eqb_spec (nextExpectedNonce mq) 0) as [?|_]; [lia|].
  destruct (Z.eqb_spec (Nonce msg) (nextExpectedNonce mq)) as [Heq|Hne].
  - cbn [snd released]. set (mq0 := mkQueue _ _ _).
    destruct (drain_run mq0 (k + 2)) as (j & out' & mq' & Hrun & Hj & Hej & Hout'
        & Hfrom & Hnext' & Hinv' & Hall' & Hmem & Hsub & Hlast).
    { destruct Hinv. by split. }
    { lia. }
    { cbn. unfold uint64_incr. f_equal. lia. }
    { cbn. eapply Forall_impl; [exact Habove|]. intros x Hx. cbv beta in *. lia. }
    exists ([msg] ++ out'), mq'. rewrite Hrun. split; [done|].
    pose proof (fmap_seqZ_length _ _ _ Hj Hout') as Hlen'.
    assert (Hlenk : Z.of_nat (length (out ++ [msg] ++ out')) = k + 1 + j).
    { rewrite !length_app. cbn [length]. unfold k. lia. }
    assert (Hseq : Nonce <$> out ++ [msg] ++ out'
                   = seqZ 1 (Z.of_nat (length (out ++ [msg] ++ out')))).
    { rewrite Hlenk, !fmap_app, Hout, Hout'. cbn [fmap list_fmap]. fold k.
      replace (k + 1 + j) with (k + (1 + j)) by lia.
      rewrite (seqZ_app 1 k (1 + j)) by lia.
      rewrite (seqZ_cons (1 + k)) by lia. cbn [app]. f_equal. f_equal.
      - lia.
      - f_equal; lia. }
    assert (Hin : ∀ m, m ∈ out ++ [msg] ++ out' → m ∈ pushed ++ [msg]).
    { intros m. rewrite !elem_of_app, list_elem_of_singleton.
      intros [?|[->|Hm]]; auto. left. eapply Hpin. apply (Hfrom m Hm). }
    pose proof (released_no_more_than_pushed _ _ Hseq Hin) as Hcount.
    split; [exact Hseq|rewrite Hlenk|rewrite Hlenk|done|rewrite Hlenk
            |exact Hin|].
    + rewrite Hnext', uint64_mod_small; lia.
    + lia.
    + eapply Forall_impl; [exact Hall'|]. intros x Hx. cbv beta in *. lia.
    + intros n m Hm. apply elem_of_app. left. eapply Hpin. apply (Hsub _ _ Hm).
  - destruct (Z.ltb_spec (Nonce msg) (nextExpectedNonce mq)) as [Hlt|Hge].
    { cbn [snd released]. apply Hsame; try done.
      intros n m Hm. apply elem_of_app. left. eauto. }
    destruct (pending mq !! Nonce msg) eqn:Hex; cbn [snd released].
    { apply Hsame; try done. intros n m Hm. apply elem_of_app. left. eauto. }
    apply Hsame.
    + by rewrite insertLocked_next.
    + by apply insertLocked_inv.
    + apply Forall_forall. intros x Hx. apply insertLocked_elem in Hx; [|apply Hinv].
      destruct Hx as [->|Hx]; [lia|]. rewrite Forall_forall in Habove.
      by apply Habove.
    + intros n m. rewrite insertLocked_pending, lookup_insert, elem_of_app.
      case_decide; intros Hm; simplify_eq.
      * right. by apply list_elem_of_singleton.
      * left. eauto.
Qed.

Lemma feed_order (msgs : list TransportMessage) :
  ∀ pushed out mq,
    order_inv pushed out mq →
    Forall (λ m, 0 ≤ Nonce m < uint64_max) msgs →
    Z.of_nat (length (pushed ++ msgs)) < uint64_max - 1 →
    ∃ out' mq',
      feed mq msgs = (out', mq') ∧ order_inv (pushed ++ msgs) (out ++ out') mq'.
Proof.
  induction msgs as [|msg msgs IH]; intros pushed out mq Hinv Hall Hlen.
  - exists [], mq. by rewrite !app_nil_r.
  - apply Forall_cons in Hall as [Hmsg Hall].
    destruct (push_then_drain_order pushed out mq msg Hinv Hmsg)
      as (out1 & mq1 & Hstep & Hinv1).
    { rewrite !length_app in *. cbn [length] in *. lia. }
    destruct (IH (pushed ++ [msg]) (out ++ out1) mq1 Hinv1 Hall)
      as (out2 & mq2 & Hrun & Hinv2).
    { by rewrite <- app_assoc. }
    exists (out1 ++ out2), mq2. cbn [feed]. rewrite Hstep, Hrun.
    split; [done|]. by rewrite <- !app_assoc in Hinv2.
Qed.

(** X3. Whatever arrives at an armed queue, in whatever order, with
    gaps, duplicates or late frames: the frames released, by [TryPush]
    or by the calls of [Pop] after it, carry the nonces [1, 2, ..., k]
    in this order, each once; every one of them is a frame that was
    pushed, and the queue then expects [k + 1].  (A queue sees fewer
    than [2^64 - 1] frames.) *)
Theorem release_in_order (frames : list TransportMessage) :
  Forall (λ m, 0 ≤ Nonce m < uint64_max) frames →
  Z.of_nat (length frames) < uint64_max - 1 →
  ∃ out mq,
    feed armed frames = (out, mq)
    ∧ Nonce <$> out = seqZ 1 (Z.of_nat (length out))
    ∧ (∀ m, m ∈ out → m ∈ frames)
    ∧ nextExpectedNonce mq = 1 + Z.of_nat (length out)
    ∧ Forall (λ n, 1 + Z.of_nat (length out) < n) (PendingNonces mq)
    ∧ Pop mq = (None, false, mq).
Proof.
  intros Hall Hlen.
  destruct (feed_order frames [] [] armed) as (out & mq & Hrun & Hinv); try done.
  { split; cbn; try done; try (unfold uint64_max; lia).
    split; [constructor| |]; cbn.
    - intros n. rewrite lookup_empty, elem_of_nil. split; [done|]. by intros [? ?].
    - intros n m. by rewrite lookup_empty. }
  cbn [app] in Hinv. destruct Hinv as [H1 H2 H3 H4 H5 H6 H7].
  exists out, mq. split_and!; try done.
  - eapply Forall_impl; [exact H5|]. intros x Hx. cbv beta in *. lia.
  - by apply (blocked_above mq (Z.of_nat (length out))).
Qed.

Lemma release_in_order_witness :
  let frames := frame <$> [3; 1; 1; 0; 5; 2; 3] in
  ∃ out mq,
    feed armed frames = (out, mq)
    ∧ Nonce <$> out = seqZ 1 (Z.of_nat (length out))
    ∧ (∀ m, m ∈ out → m ∈ frames)
    ∧ nextExpectedNonce mq = 1 + Z.of_nat (length out)
    ∧ Forall (λ n, 1 + Z.of_nat (length out) < n) (PendingNonces mq)
    ∧ Pop mq = (None, false, mq).
Proof.
  apply (release_in_order (frame <$> [3; 1; 1; 0; 5; 2; 3])).
  - repeat constructor; cbn; unfold uint64_max; lia.
  - cbn. unfold uint64_max. lia.
Defined.

(** X4. A second frame under a nonce that is already buffered: before
    the handshake it takes the place of the first one, and the index of
    nonces does not change; after the handshake, when the nonce is not
    the expected one, it is ignored and the first frame stays. *)
Theorem duplicate_nonce (mq : MessageQueue) (msg old : TransportMessage) :
  reachable mq →
  pending mq !! Nonce msg = Some old →
  (nextExpectedNonce mq = 0 →
   TryPush mq msg
   = (None, false,
      mkQueue 0 (<[Nonce msg := msg]> (pending mq)) (nonces mq)))
  ∧ (nextExpectedNonce mq ≠ 0 → Nonce msg ≠ nextExpectedNonce mq →
     TryPush mq msg = (None, false, mq)).
Proof.
  intros Hr Hold. pose proof (reachable_inv mq Hr) as Hinv. split.
  - intros Hz. rewrite (TryPush_unarmed mq msg Hz). f_equal.
    assert (Hin : Nonce msg ∈ nonces mq) by (apply (inv_dom _ Hinv); eauto).
    destruct (insertLocked_shape mq msg (inv_sorted _ Hinv))
      as (l1 & l2 & Hshape & Hnew & Hlo & Hhi).
    assert (Hsame : nonces (insertLocked mq msg) = nonces mq).
    { destruct Hshape as [H|H]; [|by rewrite Hnew, H]. exfalso.
      rewrite H in Hin. rewrite Forall_forall in Hlo, Hhi.
      apply elem_of_app in Hin as [Hin|Hin];
        [specialize (Hlo _ Hin)|specialize (Hhi _ Hin)]; cbv beta in *; lia. }
    pose proof (insertLocked_pending mq msg) as Hp.
    pose proof (insertLocked_next mq msg) as Hx.
    rewrite Hz in Hx. destruct (insertLocked mq msg) as [nx pd ns].
    cbn [nonces pending nextExpectedNonce] in Hsame, Hp, Hx. by subst.
  - intros Hnz Hne. unfold TryPush.
    destruct (Z.eqb_spec (nextExpectedNonce mq) 0); [done|].
    destruct (Z.eqb_spec (Nonce msg) (nextExpectedNonce mq)); [done|].
    destruct (Nonce msg <? nextExpectedNonce mq); [done|]. by rewrite Hold.
Qed.

Lemma duplicate_nonce_witness :
  let mq := snd (TryPush New (frame 4)) in
  let msg := mkTransportMessage 4 zeroSubstreamMessage [x01] in
  (nextExpectedNonce mq = 0 →
   TryPush mq msg
   = (None, false,
      mkQueue 0 (<[Nonce msg := msg]> (pending mq)) (nonces mq)))
  ∧ (nextExpectedNonce mq ≠ 0 → Nonce msg ≠ nextExpectedNonce mq →
     TryPush mq msg = (None, false, mq)).
Proof.
  apply (duplicate_nonce (snd (TryPush New (frame 4)))
           (mkTransportMessage 4 zeroSubstreamMessage [x01]) (frame 4)).
  - apply reach_TryPush, reach_New.
  - reflexivity.
Defined.

End QueueMore.

(** ** More on the wire codec: what the decoders accept *)

Module CodecMore.
Import Message ByteFacts CodecFacts.

Lemma byte_bits_high (b : byte) (n : Z) :
  8 ≤ n → Z.testbit (byte_to_Z b) n = false.
Proof.
  intros Hn. pose proof (byte_to_Z_range b) as Hb.
  rewrite <- (Z.mod_small (byte_to_Z b) (2 ^ 8)) by (change (2 ^ 8) with 256; lia).
  by rewrite Z.mod_pow2_bits_high by lia.
Qed.

Lemma byte_of_Z_bits (v : Z) (b : byte) :
  (∀ n, 0 ≤ n < 8 → Z.testbit v n = Z.testbit (byte_to_Z b) n) →
  byte_of_Z v = b.
Proof.
  intros H.
  assert (Heq : v mod 256 = byte_to_Z b).
  { apply Z.bits_inj'. intros n Hn. change 256 with (2 ^ 8).
    destruct (Z.ltb_spec n 8).
    - rewrite Z.mod_pow2_bits_low by lia. apply H. lia.
    - rewrite Z.mod_pow2_bits_high by lia. by rewrite byte_bits_high. }
  transitivity (byte_of_Z (byte_to_Z b)); [|apply byte_of_Z_to_Z].
  unfold byte_of_Z. rewrite Heq.
  by rewrite (Z.mod_small (byte_to_Z b)) by apply byte_to_Z_range.
Qed.

Local Ltac other_bytes :=
  repeat match goal with
         | |- context [Z.testbit (byte_to_Z ?x) ?i] =>
             first [ rewrite (Z.testbit_neg_r (byte_to_Z x) i) by lia
                   | rewrite (byte_bits_high x i) by lia ]
         end.

(** The eight bytes [Uint64] reads are the ones [PutUint64] writes for
    the number. *)
Lemma PutUint64_Uint64 (b : bytes) :
  length b = 8%nat → PutUint64 (Uint64 b) = b.
Proof.
  intros Hlen. do 8 (destruct b as [|? b]; [done|]). destruct b; [|done].
  unfold PutUint64, Uint64.
  repeat f_equal; apply byte_of_Z_bits; intros n Hn;
    rewrite ?Z.shiftr_spec by lia; rewrite !Z.lor_spec, !Z.shiftl_spec by lia;
    other_bytes; rewrite ?orb_false_r, ?orb_false_l; f_equal; lia.
Qed.

Lemma bits_high_lt (v : Z) :
  0 ≤ v → (∀ n, 64 ≤ n → Z.testbit v n = false) → v < 2 ^ 64.
Proof.
  intros Hv H. destruct (Z.lt_ge_cases v (2 ^ 64)) as [|Hge]; [done|].
  assert (64 ≤ Z.log2 v) by (apply Z.log2_le_pow2; lia).
  pose proof (Z.bit_log2 v ltac:(lia)) as Hb. by rewrite H in Hb.
Qed.

Lemma Uint64_range (b : bytes) : 0 ≤ Uint64 b < uint64_max.
Proof.
  unfold Uint64, uint64_max.
  do 8 (destruct b as [|? b]; [lia|]).
  assert (Hb : ∀ x, 0 ≤ byte_to_Z x) by (intros x; apply byte_to_Z_range).
  assert (Hnn : ∀ x k, 0 ≤ Z.shiftl (byte_to_Z x) k)
    by (intros; by apply Z.shiftl_nonneg).
  assert (Hlor : ∀ x y, 0 ≤ x → 0 ≤ y → 0 ≤ Z.lor x y)
    by (intros; by apply Z.lor_nonneg).
  split; [auto 10|].
  apply bits_high_lt; [auto 10|].
  intros n Hn. rewrite !Z.lor_spec, !Z.shiftl_spec by lia.
  other_bytes. done.
Qed.

Lemma RecipientFromBytes_inv (b : bytes) (r : Recipient) :
  RecipientFromBytes b = Some r → wf_recipient r ∧ Bytes r = b.
Proof.
  unfold RecipientFromBytes, RecipientLength.
  destruct (Nat.eqb_spec (length b) 96) as [Hlen|]; [|done].
  cbn [negb]. intros [= <-].
  assert (H1 : length (slice b 0 32) = 32%nat)
    by (unfold slice; rewrite length_take, length_drop; lia).
  assert (H2 : length (slice b 32 64) = 32%nat)
    by (unfold slice; rewrite length_take, length_drop; lia).
  assert (H3 : length (drop 64 b) = 32%nat) by (rewrite length_drop; lia).
  rewrite !copy_at_whole by done.
  assert (Hwf : wf_recipient (mkRecipient (slice b 0 32) (slice b 32 64) (drop 64 b)))
    by done.
  split; [done|]. rewrite Bytes_layout by done.
  cbn [ClientIdentity ClientEncryptionKey Gateway]. unfold slice.
  rewrite drop_0. change (32 - 0)%nat with 32%nat. change (64 - 32)%nat with 32%nat.
  rewrite app_assoc, take_take_drop. change (32 + 32)%nat with 64%nat.
  apply take_drop.
Qed.

Lemma decodeSubstreamMessage_inv (data : bytes) (sm : SubstreamMessage) :
  decodeSubstreamMessage data = Some sm →
  wf_substream sm ∧ encodeSubstreamMessage sm = data.
Proof.
  unfold decodeSubstreamMessage, SubstreamIDLength.
  destruct (Nat.ltb_spec (length data) (32 + 1)) as [|Hlen]; [done|].
  assert (Hid : length (take 32 data) = 32%nat) by (rewrite length_take; lia).
  rewrite copy_at_whole by done.
  destruct (data !! 32%nat) as [ty|] eqn:Hty;
    [|apply lookup_ge_None in Hty; lia].
  cbn [default from_option id].
  pose proof (take_drop_middle data 32 ty Hty) as Hdata.
  change (S 32) with (32 + 1)%nat in Hdata.
  assert (Hpay : length (drop (32 + 1) data) = 0%nat → drop (32 + 1) data = [])
    by (intros H; by apply nil_length_inv).
  intros Hdec. rewrite copy_at_whole in Hdec by (by rewrite make_length).
  assert (Hgoal : ∀ payload,
             sm = mkSubstreamMessage (take 32 data) ty payload →
             payload = drop (32 + 1) data →
             match ty with
             | x00 | x01 | x02 => payload = []
             | x03 => True
             | _ => False
             end →
             wf_substream sm ∧ encodeSubstreamMessage sm = data).
  { intros payload -> -> Hm. split; [by split|].
    rewrite encodeSubstreamMessage_layout by done. done. }
  destruct ty; try done;
    try (destruct (Nat.eqb_spec (length (drop (32 + 1) data)) 0) as [H0|]; [|done];
         cbn [negb] in Hdec; injection Hdec as <-;
         apply (Hgoal []); [done|by rewrite Hpay|done]).
  injection Hdec as <-. by apply (Hgoal (drop (32 + 1) data)).
Qed.

Lemma decodeTransportMessage_inv (data : bytes) (tm : TransportMessage) :
  decodeTransportMessage data = Some tm →
  wf_transport tm ∧ encodeTransportMessage tm = data.
Proof.
  unfold decodeTransportMessage, ConnectionIDLength, SubstreamIDLength.
  destruct (Nat.ltb_spec (length data) (8 + 32 + 32 + 1)) as [|Hlen]; [done|].
  destruct (decodeSubstreamMessage (drop (8 + 32) data)) as [sm|] eqn:Hsm; [|done].
  apply decodeSubstreamMessage_inv in Hsm as [Hwf Hsm].
  assert (Hid : length (slice data 8 (8 + 32)) = 32%nat)
    by (unfold slice; rewrite length_take, length_drop; lia).
  rewrite copy_at_whole by done. intros [= <-].
  split; [split_and!; try done; apply Uint64_range|].
  rewrite encodeTransportMessage_layout by done.
  cbn [Nonce tm_ID tm_Message]. rewrite Hsm.
  rewrite PutUint64_Uint64 by (rewrite length_take; lia).
  unfold slice. change (8 + 32 - 8)%nat with 32%nat.
  rewrite app_assoc, take_take_drop. apply take_drop.
Qed.

Section Connection.

Variable IDFromBytes : bytes → option PeerID.

(** [peer.IDFromBytes] returns the bytes it was given. *)
Hypothesis IDFromBytes_same : ∀ b p, IDFromBytes b = Some p → p = b.

Lemma decodeConnectionMessage_inv (data : bytes) (cm : ConnectionMessage) :
  decodeConnectionMessage IDFromBytes data = Some cm →
  wf_connection IDFromBytes cm ∧ encodeConnectionMessage cm = data.
Proof.
  unfold decodeConnectionMessage, ConnectionIDLength, RecipientLength.
  destruct (Nat.ltb_spec (length data) (32 + 1)) as [|Hlen]; [done|].
  assert (Hid : length (take 32 data) = 32%nat) by (rewrite length_take; lia).
  rewrite copy_at_whole by done.
  destruct (data !! 32%nat) as [flag|] eqn:Hflag;
    [|apply lookup_ge_None in Hflag; lia].
  cbn [default from_option id].
  pose proof (take_drop_middle data 32 flag Hflag) as Hdata.
  change (S 32) with (32 + 1)%nat in Hdata.
  assert (Hgoal : ∀ rec cursor,
             flag = recipient_flag rec →
             match rec with Some r => wf_recipient r | None => True end →
             drop (32 + 1) data = recipient_bytes rec ++ drop cursor data →
             (if (length data <=? cursor)%nat then None
              else match IDFromBytes (drop cursor data) with
                   | Some peerID =>
                       Some (mkConnectionMessage peerID rec (take 32 data))
                   | None => None
                   end) = Some cm →
             wf_connection IDFromBytes cm ∧ encodeConnectionMessage cm = data).
  { intros rec cursor Hf Hrec Hrest.
    destruct (Nat.leb_spec (length data) cursor) as [|Hcur]; [done|].
    destruct (IDFromBytes (drop cursor data)) as [peerID|] eqn:Hpeer; [|done].
    pose proof (IDFromBytes_same _ _ Hpeer) as ->.
    intros [= <-]. split.
    - split_and!; try done.
      cbn [cm_PeerID]. intros Hnil. apply (f_equal length) in Hnil.
      rewrite length_drop in Hnil. cbn [length] in Hnil. lia.
    - rewrite encodeConnectionMessage_layout by done.
      cbn [cm_ID cm_Recipient cm_PeerID]. by rewrite <- Hrest, <- Hf. }
  destruct flag; try done.
  - apply (Hgoal None); done.
  - destruct (Nat.ltb_spec (length data) (32 + 1 + 96)) as [|Hlen']; [done|].
    destruct (RecipientFromBytes (slice data (32 + 1) (32 + 1 + 96)))
      as [r|] eqn:Hr; [|done].
    apply RecipientFromBytes_inv in Hr as [Hwf Hr].
    apply (Hgoal (Some r)); try done.
    cbn [recipient_bytes]. rewrite Hr. unfold slice.
    change (32 + 1 + 96 - (32 + 1))%nat with 96%nat.
    rewrite <- (take_drop 96 (drop (32 + 1) data)) at 1.
    by rewrite drop_drop.
Qed.

Lemma Decode_inv (data : bytes) (msg : Message) :
  Decode IDFromBytes data = Some msg →
  wf_message IDFromBytes msg ∧ Encode (Some msg) = Some data.
Proof.
  unfold Decode.
  destruct data as [|ty payload]; [done|].
  cbn [length Nat.ltb Nat.leb lookup list_lookup default from_option id drop].
  rewrite drop_0. intros Hdec.
  destruct ty; try done.
  - destruct (decodeConnectionMessage IDFromBytes payload) as [cm|] eqn:Hcm; [|done].
    apply decodeConnectionMessage_inv in Hcm as [Hwf Hcm]. injection Hdec as <-.
    split; [by exists cm|]. unfold Encode. cbn [Type_ Connection].
    rewrite Encode_layout. by rewrite Hcm.
  - destruct (decodeConnectionMessage IDFromBytes payload) as [cm|] eqn:Hcm; [|done].
    apply decodeConnectionMessage_inv in Hcm as [Hwf Hcm]. injection Hdec as <-.
    split; [by exists cm|]. unfold Encode. cbn [Type_ Connection].
    rewrite Encode_layout. by rewrite Hcm.
  - destruct (decodeTransportMessage payload) as [tm|] eqn:Htm; [|done].
    apply decodeTransportMessage_inv in Htm as [Hwf Htm]. injection Hdec as <-.
    split; [by exists tm|]. unfold Encode. cbn [Type_ Transport].
    rewrite Encode_layout. by rewrite Htm.
Qed.

End Connection.

Section Frames.

Variable IDFromBytes : bytes → option PeerID.

Lemma Decode_Encode (msg : Message) (data : bytes) :
  wf_message IDFromBytes msg → Encode (Some msg) = Some data →
  Decode IDFromBytes data = Some msg.
Proof.
  unfold wf_message, Encode. intros Hwf.
  destruct msg as [ty conn tr]; cbn [Type_ Connection Transport] in *.
  destruct ty; try done; destruct Hwf as (x & -> & Hx & ->);
    rewrite Encode_layout; intros [= <-]; unfold Decode;
    cbn [Type_ length Nat.ltb Nat.leb lookup list_lookup
         default from_option id drop];
    by rewrite drop_0, ?decode_encode_connection, ?decode_encode_transport.
Qed.

Lemma Encode_wf (msg : Message) :
  wf_message IDFromBytes msg → is_Some (Encode (Some msg)).
Proof.
  unfold wf_message, Encode.
  destruct msg as [ty conn tr]; cbn [Type_ Connection Transport].
  destruct ty; try done; intros (x & -> & _ & ->); rewrite Encode_layout; eauto.
Qed.

Lemma decodeConnectionMessage_short (data : bytes) :
  (length data < 34)%nat → decodeConnectionMessage IDFromBytes data = None.
Proof.
  intros Hlen. unfold decodeConnectionMessage, ConnectionIDLength, RecipientLength.
  destruct (Nat.ltb_spec (length data) (32 + 1)) as [|Hge]; [done|].
  destruct (default x00 (data !! 32%nat)); try done.
  - destruct (Nat.leb_spec (length data) (32 + 1)); [done|lia].
  - destruct (Nat.ltb_spec (length data) (32 + 1 + 96)); [done|lia].
Qed.

Lemma decodeTransportMessage_short (data : bytes) :
  (length data < 73)%nat → decodeTransportMessage data = None.
Proof.
  intros Hlen. unfold decodeTransportMessage, ConnectionIDLength, SubstreamIDLength.
  destruct (Nat.ltb_spec (length data) (8 + 32 + 32 + 1)); [done|lia].
Qed.

(** X5. The decoder accepts exactly the encodings of well-formed
    messages: a frame decodes to a message if and only if the message is
    well formed and encodes to that very frame.  So no byte of an
    accepted frame is ignored, and no two frames decode to the same
    message. *)
Theorem Decode_accepts_encodings
    (IDFromBytes_same : ∀ b p, IDFromBytes b = Some p → p = b)
    (data : bytes) (msg : Message) :
  Decode IDFromBytes data = Some msg
  ↔ wf_message IDFromBytes msg ∧ Encode (Some msg) = Some data.
Proof.
  split.
  - by apply Decode_inv.
  - intros [Hwf Henc]. by apply Decode_Encode.
Qed.

(** X6. Short frames are rejected: no frame of fewer than 35 bytes
    decodes, and no frame with the transport tag of fewer than 74. *)
Theorem Decode_short_frame (data : bytes) :
  (length data < match data with x02 :: _ => 74 | _ => 35 end)%nat →
  Decode IDFromBytes data = None.
Proof.
  intros Hlen. unfold Decode. destruct data as [|ty payload]; [done|].
  cbn [length Nat.ltb Nat.leb lookup list_lookup default from_option id drop].
  rewrite drop_0. cbn [length] in Hlen.
  destruct ty;
    rewrite ?decodeConnectionMessage_short, ?decodeTransportMessage_short by lia;
    done.
Qed.

End Frames.

(** X7. [RecipientFromBytes] and [Bytes] are inverse to each other:
    a slice is read as a recipient exactly when it is the 96 bytes
    [Bytes] writes for that recipient. *)
Theorem RecipientFromBytes_iff (b : bytes) (r : Recipient) :
  RecipientFromBytes b = Some r ↔ wf_recipient r ∧ Bytes r = b.
Proof.
  split.
  - apply RecipientFromBytes_inv.
  - intros [Hwf <-]. by apply RecipientFromBytes_Bytes.
Qed.

Lemma Peer_IDFromBytes_same (b p : bytes) : Peer.IDFromBytes b = Some p → p = b.
Proof. unfold Peer.IDFromBytes. destruct (Peer.multihash_ok b); congruence. Qed.

Lemma Decode_accepts_encodings_witness :
  (∀ b p, Peer.IDFromBytes b = Some p → p = b)
  ∧ (Decode Peer.IDFromBytes sample_transport_frame = Some sample_transport
     ↔ wf_message Peer.IDFromBytes sample_transport
       ∧ Encode (Some sample_transport) = Some sample_transport_frame).
Proof.
  split; [exact Peer_IDFromBytes_same|].
  exact (Decode_accepts_encodings Peer.IDFromBytes Peer_IDFromBytes_same
           sample_transport_frame sample_transport).
Defined.

Lemma Decode_short_frame_witness :
  (length (take 73 sample_transport_frame) < 74)%nat
  ∧ Decode Peer.IDFromBytes (take 73 sample_transport_frame) = None.
Proof.
  split; [vm_compute; lia|].
  apply (Decode_short_frame Peer.IDFromBytes (take 73 sample_transport_frame)).
  vm_compute. lia.
Defined.

End CodecMore.

(** ** More on the gateway framing: the response decoder *)

Module MixnetMore.
Import Message Mixnet ByteFacts CodecFacts CodecMore.

(** A length as a [uint64] read back as an [int]. *)
Lemma int_of_uint64_length (v : Z) (n : nat) :
  0 ≤ v < uint64_max → int_of_uint64 v = Z.of_nat n → v = Z.of_nat n.
Proof.
  unfold int_of_uint64, uint64_max. intros Hv.
  destruct (Z.ltb_spec v (2 ^ 63)); lia.
Qed.

Lemma int_of_uint64_small (v : Z) : v < 2 ^ 63 → int_of_uint64 v = v.
Proof. unfold int_of_uint64. intros Hv. destruct (Z.ltb_spec v (2 ^ 63)); lia. Qed.

(** A frame of at least ten bytes whose bytes 2 to 9 announce the
    length of what follows them. *)
Lemma length_prefix_inv (data : bytes) :
  (10 ≤ length data)%nat →
  int_of_uint64 (Uint64 (slice data 2 (2 + 8))) = Z.of_nat (length data - (2 + 8)) →
  ∃ t c, data = [t; c] ++ PutUint64 (Z.of_nat (length (drop 10 data)))
                  ++ drop 10 data
         ∧ Uint64 (slice data 2 (2 + 8)) = Z.of_nat (length (drop 10 data))
         ∧ data !! 0%nat = Some t ∧ data !! 1%nat = Some c.
Proof.
  intros Hlen Hint.
  apply int_of_uint64_length in Hint; [|apply Uint64_range].
  destruct data as [|t [|c rest]]; [cbn in Hlen; lia..|].
  exists t, c. rewrite length_drop. change (2 + 8)%nat with 10%nat in *.
  split; [|done]. rewrite <- Hint.
  rewrite PutUint64_Uint64
    by (unfold slice; rewrite length_take, length_drop; cbn [length] in *; lia).
  unfold slice. cbn [drop app]. rewrite ?drop_0. change (2 + 8 - 2)%nat with 8%nat.
  change (drop 10 (t :: c :: rest)) with (drop 8 rest).
  by rewrite take_drop.
Qed.

Lemma length_prefix_frame (t c : byte) (body : bytes) :
  Z.of_nat (length body) < 2 ^ 63 →
  let data := [t; c] ++ PutUint64 (Z.of_nat (length body)) ++ body in
  (length data <? 2 + 8)%nat = false
  ∧ data !! 1%nat = Some c
  ∧ int_of_uint64 (Uint64 (slice data 2 (2 + 8))) = Z.of_nat (length data - (2 + 8))
  ∧ Uint64 (slice data 2 (2 + 8)) = Z.of_nat (length body)
  ∧ drop 10 data = body.
Proof.
  intros Hb data. unfold data.
  assert (Hu : Uint64 (slice ([t; c] ++ PutUint64 (Z.of_nat (length body)) ++ body)
                         2 (2 + 8)) = Z.of_nat (length body)).
  { unfold slice. cbn [drop app]. rewrite drop_0. change (2 + 8 - 2)%nat with 8%nat.
    rewrite (take_app_length' (PutUint64 _)) by done.
    apply Uint64_PutUint64_exact. unfold uint64_max. lia. }
  split_and!.
  - apply Nat.ltb_ge. cbn [app length]. rewrite length_app, PutUint64_length. lia.
  - done.
  - rewrite Hu, int_of_uint64_small by done. cbn [app length].
    rewrite length_app, PutUint64_length. lia.
  - done.
  - done.
Qed.

Lemma serializeSendRequest_frame (recipient : Recipient) (payload : bytes) :
  wf_recipient recipient →
  serializeSendRequest recipient payload
  = [x00] ++ Bytes recipient ++ make 8
      ++ PutUint64 (Z.of_nat (length payload)) ++ payload.
Proof.
  intros Hr. pose proof (Bytes_length recipient Hr) as Hb.
  unfold RecipientLength in Hb.
  unfold serializeSendRequest, RecipientLength, requestTagSend.
  rewrite <- !Nat.add_assoc, !make_add. change (make 1) with [x00].
  change (<[0%nat:=x00]> ([x00] ++ ?t)) with ([x00] ++ t).
  rewrite (copy_range_mid [x00] (make 96) _ (Bytes recipient)); try done.
  rewrite (app_assoc [x00]), (app_assoc _ (make 8)).
  rewrite (copy_range_mid _ (make 8) _ (PutUint64 _));
    rewrite ?length_app, ?Hb, ?make_length; try done.
  rewrite (app_assoc _ (PutUint64 _)).
  rewrite (copy_at_tail _ (make (length payload)) payload);
    rewrite ?length_app, ?Hb, ?make_length; try done.
  by rewrite <- !app_assoc.
Qed.

Lemma decodeReceivedPayload_inv (data payload : bytes) :
  decodeReceivedPayload data = Ok payload →
  ∃ t, data = [t; x00] ++ PutUint64 (Z.of_nat (length payload)) ++ payload.
Proof.
  unfold decodeReceivedPayload.
  destruct (Nat.ltb_spec (length data) (2 + 8)) as [|Hlen]; [done|].
  destruct (default x00 (data !! 1%nat)) eqn:Hmark; try done;
    [|by destruct (_ <? _)%nat].
  destruct (Z.eqb_spec (int_of_uint64 (Uint64 (slice data 2 (2 + 8))))
              (Z.of_nat (length data - (2 + 8)))) as [Hint|]; [|done].
  cbn [negb].
  destruct (length_prefix_inv _ Hlen Hint) as (t & c & Hdata & Hu & _ & Hc).
  rewrite Hu, Nat2Z.id. change (2 + 8)%nat with 10%nat.
  rewrite copy_at_whole by (by rewrite make_length).
  intros [= <-]. exists t. rewrite Hc in Hmark. cbn in Hmark. by subst c.
Qed.

Lemma decodeServerResponse_received (payload : bytes) :
  Z.of_nat (length payload) < 2 ^ 63 →
  decodeServerResponse ([responseTagReceived; x00]
                          ++ PutUint64 (Z.of_nat (length payload)) ++ payload)
  = Ok (RespReceived payload).
Proof.
  intros Hp.
  destruct (length_prefix_frame x01 x00 payload Hp) as (Hlen & Hc & Hint & Hu & Hdrop).
  unfold decodeServerResponse, responseTagReceived. cbn [app].
  unfold decodeReceivedPayload. cbn [app] in *.
  rewrite Hlen, Hc. cbn [default from_option id].
  rewrite Hint, Z.eqb_refl. cbn [negb].
  rewrite Hu, Nat2Z.id. change (2 + 8)%nat with 10%nat. rewrite Hdrop.
  by rewrite copy_at_whole by (by rewrite make_length).
Qed.

(** X8. A [Received] response is accepted exactly when it is the tag,
    a zero sender-tag marker, the length of the payload as eight
    big-endian bytes and the payload; the payload is returned whole. *)
Theorem received_response_format (data payload : bytes) :
  Z.of_nat (length payload) < 2 ^ 63 →
  decodeServerResponse data = Ok (RespReceived payload)
  ↔ data = [responseTagReceived; x00]
             ++ PutUint64 (Z.of_nat (length payload)) ++ payload.
Proof.
  intros Hp. split.
  - unfold decodeServerResponse. destruct data as [|tag rest]; [done|].
    destruct tag; try done.
    + intros H; by repeat case_match.
    + destruct (decodeReceivedPayload (x01 :: rest)) as [p|] eqn:Hdec; [|done].
      intros [= ->]. apply decodeReceivedPayload_inv in Hdec as [t Hdec].
      rewrite Hdec. by injection Hdec as <- _.
    + intros H; by repeat case_match.
  - intros ->. by apply decodeServerResponse_received.
Qed.

(** X9. A response that carries a sender tag is never delivered:
    whatever follows the marker, the decoder returns an error. *)
Theorem sender_tag_rejected (data : bytes) :
  data !! 0%nat = Some responseTagReceived →
  data !! 1%nat = Some x01 →
  ∃ e, decodeServerResponse data = Err e
       ∧ (e = ErrReceivedTooShort ∨ e = ErrMissingSenderTag
          ∨ e = ErrUnsupportedSenderTag).
Proof.
  unfold responseTagReceived. intros H0 H1. destruct data as [|tag rest]; [done|].
  injection H0 as ->. unfold decodeServerResponse, decodeReceivedPayload.
  rewrite H1. cbn [default from_option id].
  destruct (_ <? _)%nat; [eauto|].
  destruct (_ <? _)%nat; eauto.
Qed.

(** X10. The self-address response is accepted exactly when it is the
    tag followed by the 96 bytes of the recipient. *)
Theorem self_address_response_format (data : bytes) (r : Recipient) :
  decodeServerResponse data = Ok (RespSelfAddress r)
  ↔ wf_recipient r ∧ data = responseTagSelfAddress :: Bytes r.
Proof.
  split.
  - unfold decodeServerResponse. destruct data as [|tag rest]; [done|].
    destruct tag; try done.
    + intros H; by repeat case_match.
    + intros H; by repeat case_match.
    + destruct (negb _); [done|]. cbn [drop]. rewrite drop_0.
      destruct (RecipientFromBytes rest) as [r'|] eqn:Hr; [|done].
      intros [= ->]. apply RecipientFromBytes_inv in Hr as [Hwf <-]. done.
  - intros [Hwf ->]. unfold decodeServerResponse, responseTagSelfAddress.
    cbn [length]. rewrite Bytes_length by done.
    rewrite Nat.eqb_refl. cbn [negb drop]. rewrite drop_0.
    by rewrite RecipientFromBytes_Bytes.
Qed.

(** X11. An error response is accepted exactly when it is the tag, a
    code, the length of the text as eight big-endian bytes and the
    text; anything else under this tag is an error of the decoder. *)
Theorem error_response_format (data text : bytes) :
  Z.of_nat (length data) < 2 ^ 63 →
  decodeServerResponse data = Ok (RespError text)
  ↔ ∃ code msg, data = [responseTagError; code]
                         ++ PutUint64 (Z.of_nat (length msg)) ++ msg
                ∧ text = error_text code msg.
Proof.
  intros Hd. split.
  - unfold decodeServerResponse. destruct data as [|tag rest]; [done|].
    destruct tag; try done.
    + remember (x00 :: rest) as frame eqn:Hframe.
      destruct (Nat.ltb_spec (length frame) (2 + 8)) as [|Hlen]; [done|].
      destruct (Z.eqb_spec (int_of_uint64 (Uint64 (slice frame 2 (2 + 8))))
                  (Z.of_nat (length frame - (2 + 8)))) as [Hint|]; [|done].
      cbn [negb]. intros [= <-].
      destruct (length_prefix_inv _ Hlen Hint) as (t & c & Hdata & Hu & Ht & Hc).
      rewrite Hc. exists c, (drop 10 frame). split; [|done].
      rewrite Hframe in Ht. injection Ht as <-. exact Hdata.
    + intros H; by repeat case_match.
    + intros H; by repeat case_match.
  - intros (code & msg & -> & ->).
    assert (Hm : Z.of_nat (length msg) < 2 ^ 63).
    { cbn [app length] in Hd. rewrite length_app in Hd. lia. }
    destruct (length_prefix_frame x00 code msg Hm) as (Hlen & Hc & Hint & Hu & Hdrop).
    unfold decodeServerResponse, responseTagError. cbn [app] in *.
    rewrite Hlen, Hc, Hint, Z.eqb_refl. cbn [negb default from_option id].
    by rewrite Hdrop.
Qed.

Section EndToEnd.

Variable IDFromBytes : bytes → option PeerID.

(** X12. What the writer sends, the reader recovers: for a well-formed
    message the writer hands to the websocket a [SendRequest] whose
    payload, behind the 113-byte header for the recipient, is the
    encoding of the message.  When that payload comes back in a binary
    [Received] response without sender tag, the reader puts the same
    message on the inbound channel if the channel holds fewer than 32
    messages, with a signal when the notification channel takes one,
    and drops it if the channel is full; a frame that is not binary is
    skipped. *)
Theorem written_message_is_read (recipient : Recipient) (msg : Message)
    (payload : bytes) (notify : option bool) (st : ReaderState) :
  wf_recipient recipient →
  wf_message IDFromBytes msg →
  Encode (Some msg) = Some payload →
  Z.of_nat (length payload) < 2 ^ 63 →
  let response := [responseTagReceived; x00]
                    ++ PutUint64 (Z.of_nat (length payload)) ++ payload in
  writer_frame recipient (Some msg)
  = Some ([requestTagSend] ++ Bytes recipient ++ make 8
            ++ PutUint64 (Z.of_nat (length payload)) ++ payload)
  ∧ ((length (r_inbound st) < inbound_queue_size)%nat →
     reader_step IDFromBytes notify st true response
     = mkReader (r_inbound st ++ [msg])
                (if decide (notify = Some true)
                 then S (r_notified st) else r_notified st))
  ∧ ((inbound_queue_size ≤ length (r_inbound st))%nat →
     reader_step IDFromBytes notify st true response = st)
  ∧ reader_step IDFromBytes notify st false response = st.
Proof.
  intros Hr Hwf Henc Hp response. split_and!.
  - unfold writer_frame, encodeMessagePayload. rewrite Henc.
    by rewrite serializeSendRequest_frame.
  - intros Hroom. unfold reader_step, decodeMessagePayload, response. cbn [negb].
    rewrite decodeServerResponse_received by done.
    rewrite (Decode_Encode IDFromBytes msg payload) by done.
    destruct (Nat.ltb_spec (length (r_inbound st)) inbound_queue_size); [|lia].
    by destruct notify as [[]|].
  - intros Hfull. unfold reader_step, decodeMessagePayload, response. cbn [negb].
    rewrite decodeServerResponse_received by done.
    rewrite (Decode_Encode IDFromBytes msg payload) by done.
    by destruct (Nat.ltb_spec (length (r_inbound st)) inbound_queue_size); [lia|].
  - done.
Qed.

End EndToEnd.

Lemma sample_transport_wf : wf_message Peer.IDFromBytes sample_transport.
Proof.
  cbn. eexists. split; [reflexivity|]. split; [|reflexivity].
  split_and!; try done; unfold uint64_max; cbn; lia.
Qed.

Lemma received_response_format_witness :
  Z.of_nat (length [x68; x69]) < 2 ^ 63
  ∧ (decodeServerResponse ([x01; x00] ++ PutUint64 2 ++ [x68; x69])
     = Ok (RespReceived [x68; x69])
     ↔ [x01; x00] ++ PutUint64 2 ++ [x68; x69]
       = [responseTagReceived; x00]
           ++ PutUint64 (Z.of_nat (length [x68; x69])) ++ [x68; x69]).
Proof.
  split; [cbn; lia|].
  apply (received_response_format ([x01; x00] ++ PutUint64 2 ++ [x68; x69])
           [x68; x69]).
  cbn. lia.
Defined.

Lemma sender_tag_rejected_witness :
  ∃ e, decodeServerResponse ([x01; x01] ++ replicate 40 x07 ++ PutUint64 0) = Err e
       ∧ (e = ErrReceivedTooShort ∨ e = ErrMissingSenderTag
          ∨ e = ErrUnsupportedSenderTag).
Proof.
  apply (sender_tag_rejected ([x01; x01] ++ replicate 40 x07 ++ PutUint64 0));
    reflexivity.
Defined.

Lemma error_response_format_witness :
  Z.of_nat (length ([x00; x07] ++ PutUint64 2 ++ [x68; x69])) < 2 ^ 63
  ∧ (decodeServerResponse ([x00; x07] ++ PutUint64 2 ++ [x68; x69])
     = Ok (RespError (error_text x07 [x68; x69]))
     ↔ ∃ code msg, [x00; x07] ++ PutUint64 2 ++ [x68; x69]
                   = [responseTagError; code]
                       ++ PutUint64 (Z.of_nat (length msg)) ++ msg
                   ∧ error_text x07 [x68; x69] = error_text code msg).
Proof.
  split; [cbn; lia|].
  apply (error_response_format ([x00; x07] ++ PutUint64 2 ++ [x68; x69])).
  cbn. lia.
Defined.

Lemma written_message_is_read_witness :
  let st := mkReader [sample_request] 0 in
  let payload := sample_transport_frame in
  let response := [responseTagReceived; x00]
                    ++ PutUint64 (Z.of_nat (length payload)) ++ payload in
  writer_frame sample_recipient (Some sample_transport)
  = Some ([requestTagSend] ++ Bytes sample_recipient ++ make 8
            ++ PutUint64 (Z.of_nat (length payload)) ++ payload)
  ∧ ((length (r_inbound st) < inbound_queue_size)%nat →
     reader_step Peer.IDFromBytes (Some true) st true response
     = mkReader (r_inbound st ++ [sample_transport])
                (if decide (Some true = Some true)
                 then S (r_notified st) else r_notified st))
  ∧ ((inbound_queue_size ≤ length (r_inbound st))%nat →
     reader_step Peer.IDFromBytes (Some true) st true response = st)
  ∧ reader_step Peer.IDFromBytes (Some true) st false response = st.
Proof.
  apply (written_message_is_read Peer.IDFromBytes sample_recipient sample_transport
           sample_transport_frame (Some true) (mkReader [sample_request] 0)
           sample_recipient_wf sample_transport_wf).
  - vm_compute. reflexivity.
  - vm_compute. reflexivity.
Defined.

End MixnetMore.

(** ** More on substreams: reading, pushing, closing *)

Module SubstreamMore.
Import Message Queue Transport ByteFacts SubstreamFacts.

(** X13. One [Read] neither loses nor reorders bytes: what it returns,
    followed by what the substream still holds, is what the substream
    held; it returns no more than the buffer takes; and it reports end
    of stream, or blocks, only when nothing is left. *)
Theorem Read_conserves (s : Substream) (n : nat) :
  match Read s n with
  | (ReadOk data, s') => data ++ unread s' = unread s ∧ (length data ≤ n)%nat
  | (ReadEOF, s') => s' = s ∧ unread s = [] ∧ inbound_closed s = true
  | (ReadBlocks, s') => s' = s ∧ unread s = [] ∧ inbound_closed s = false
  end.
Proof.
  pose proof (Read_cases s n) as H.
  destruct (Read s n) as [[data| |] s']; [|done..].
  by destruct H as (? & ? & _).
Qed.

(** X14. A reader that calls [Read] with a non-empty buffer until it
    meets end of stream or would block gets every byte the substream
    held, in order: left-over bytes first, then the chunks as queued.
    It ends with end of stream when the channel is closed, and would
    block otherwise. *)
Theorem read_all_drains (s : Substream) (n fuel : nat) :
  (1 ≤ n)%nat → (read_budget s < fuel)%nat →
  ∃ s', read_all fuel s n
        = (unread s, Some (if inbound_closed s then ReadEOF else ReadBlocks), s')
        ∧ unread s' = [].
Proof.
  intros Hn Hfuel. destruct (read_all_run n Hn fuel s Hfuel) as (s' & H & Hun & _).
  by exists s'.
Qed.

(** What [pushData] does: it queues a copy of the data on an open
    substream with room in its channel, when it does not take the
    close of the connection instead; otherwise it drops the data or
    blocks. *)
Lemma pushData_cases (cc tc : bool) (s : Substream) (data : bytes) :
  substream_inv s →
  match pushData cc tc s data with
  | Some s' =>
      s' = s
      ∨ (s' = set_inbound s (inbound s ++ [data])
         ∧ remoteClosed s = false ∧ localClosed s = false
         ∧ (length (inbound s) < inbound_capacity)%nat)
  | None =>
      remoteClosed s = false ∧ localClosed s = false ∧ cc = false
      ∧ length (inbound s) = inbound_capacity
  end.
Proof.
  intros (Honce & Hclosed & Hcap). unfold pushData.
  destruct (remoteClosed s) eqn:Hr; [by left|].
  destruct (localClosed s) eqn:Hl; [by left|]. cbn [orb].
  rewrite Hclosed. cbn [orb].
  rewrite copy_at_whole by (by rewrite make_length).
  destruct (Nat.ltb_spec (length (inbound s)) inbound_capacity) as [Hroom|Hfull].
  - destruct cc, tc; cbn [andb orb negb]; try by left.
    all: right; by split_and!.
  - destruct cc; cbn [andb orb negb]; rewrite ?orb_true_r; [by left|].
    split_and!; try done. lia.
Qed.

(** X15. The invariant of a substream, kept by every operation: the
    channel is closed exactly when the substream is remote-closed, its
    [sync.Once] has run exactly then, and the channel holds at most 32
    chunks. *)
Theorem substream_invariant (s : Substream) :
  substream_inv s →
  (∀ n, substream_inv (snd (Read s n)))
  ∧ (∀ cc tc data s', pushData cc tc s data = Some s' → substream_inv s')
  ∧ substream_inv (remoteClose s)
  ∧ substream_inv (close_inbound_once (set_remoteClosed (set_localClosed s))).
Proof.
  intros Hinv. pose proof Hinv as (Honce & Hclosed & Hcap). split_and!.
  - intros n. unfold Read.
    destruct (n =? 0)%nat; [done|].
    destruct (length (buffer s) =? 0)%nat; [|done].
    destruct (inbound s) as [|data rest] eqn:Hin; [by destruct (inbound_closed s)|].
    cbn [length] in Hcap.
    destruct (length data =? 0)%nat; split_and!; cbn; try done; lia.
  - intros cc tc data s' Hpush.
    pose proof (pushData_cases cc tc s data ltac:(done)) as H.
    rewrite Hpush in H. destruct H as [->|(-> & Hr & Hl & Hroom)]; [done|].
    split_and!; cbn; try done. rewrite length_app. cbn. lia.
  - unfold remoteClose. destruct (remoteClosed s) eqn:Hr; [done|].
    unfold close_inbound_once. cbn. rewrite Honce, Hclosed. by split_and!.
  - unfold close_inbound_once. cbn.
    destruct (channelOnce s) eqn:Ho; split_and!; cbn; congruence || done.
Qed.

(** X16. Data pushed to an open substream is read after what was there
    before it, whole and unchanged. *)
Theorem pushed_data_is_read (s : Substream) (data : bytes) (tc : bool)
    (n fuel : nat) :
  substream_inv s →
  remoteClosed s = false → localClosed s = false →
  (length (inbound s) < inbound_capacity)%nat →
  (1 ≤ n)%nat → (read_budget s + length data + 1 < fuel)%nat →
  ∃ s1 s2,
    pushData false tc s data = Some s1
    ∧ read_all fuel s1 n = (unread s ++ data, Some ReadBlocks, s2).
Proof.
  intros Hinv Hr Hl Hroom Hn Hfuel. pose proof Hinv as (Honce & Hclosed & Hcap).
  exists (set_inbound s (inbound s ++ [data])).
  assert (Hpush : pushData false tc s data
                  = Some (set_inbound s (inbound s ++ [data]))).
  { unfold pushData. rewrite Hr, Hl, Hclosed, Hr. cbn [orb andb].
    rewrite copy_at_whole by (by rewrite make_length).
    by destruct (Nat.ltb_spec (length (inbound s)) inbound_capacity); [|lia]. }
  destruct (read_all_run n Hn fuel (set_inbound s (inbound s ++ [data])))
    as (s2 & Hread & _).
  { unfold read_budget in *. cbn [set_inbound buffer inbound].
    rewrite concat_app, !length_app. cbn [concat length]. rewrite app_nil_r. lia. }
  exists s2. split; [done|]. rewrite Hread.
  unfold unread. cbn [set_inbound buffer inbound inbound_closed].
  rewrite Hclosed, Hr, concat_app. cbn [concat]. by rewrite app_nil_r, app_assoc.
Qed.

(** X17. After the remote side closed a substream, data frames for it
    are dropped, a second close changes nothing, and the reader still
    gets every byte that had arrived, followed by end of stream. *)
Theorem remote_close_then_eof (s : Substream) (n fuel : nat) :
  substream_inv s →
  (1 ≤ n)%nat → (read_budget s < fuel)%nat →
  let s1 := remoteClose s in
  remoteClose s1 = s1
  ∧ (∀ cc tc data, pushData cc tc s1 data = Some s1)
  ∧ ∃ s2, read_all fuel s1 n = (unread s, Some ReadEOF, s2).
Proof.
  intros (Honce & Hclosed & Hcap) Hn Hfuel s1.
  assert (Hs1 : remoteClosed s1 = true ∧ inbound_closed s1 = true
                ∧ buffer s1 = buffer s ∧ inbound s1 = inbound s).
  { unfold s1, remoteClose. destruct (remoteClosed s) eqn:Hr.
    - by rewrite Hclosed, Hr.
    - unfold close_inbound_once. cbn. rewrite Honce, Hclosed. by rewrite ?Hr. }
  destruct Hs1 as (Hr1 & Hc1 & Hb1 & Hi1). split_and!.
  - unfold remoteClose at 1. by rewrite Hr1.
  - intros cc tc data. unfold pushData. by rewrite Hr1.
  - destruct (read_all_run n Hn fuel s1) as (s2 & Hread & _).
    { unfold read_budget. rewrite Hb1, Hi1. exact Hfuel. }
    exists s2. rewrite Hread, Hc1. unfold unread. by rewrite Hb1, Hi1.
Qed.

Lemma sample_substream_inv (chunks : list bytes) (residual : bytes) :
  (length chunks ≤ 32)%nat → substream_inv (sample_substream chunks residual).
Proof. intros H. by split_and!. Qed.

Lemma read_all_drains_witness :
  ∃ s', read_all 9 (sample_substream [[x68; x69]; []; [x21]] [x3e]) 2
        = (unread (sample_substream [[x68; x69]; []; [x21]] [x3e]),
           Some (if inbound_closed (sample_substream [[x68; x69]; []; [x21]] [x3e])
                 then ReadEOF else ReadBlocks), s')
        ∧ unread s' = [].
Proof.
  apply (read_all_drains (sample_substream [[x68; x69]; []; [x21]] [x3e]) 2 9);
    vm_compute; lia.
Defined.

Lemma substream_invariant_witness :
  (∀ n, substream_inv (snd (Read (sample_substream [[x68]] []) n)))
  ∧ (∀ cc tc data s', pushData cc tc (sample_substream [[x68]] []) data = Some s' →
                      substream_inv s')
  ∧ substream_inv (remoteClose (sample_substream [[x68]] []))
  ∧ substream_inv (close_inbound_once
                     (set_remoteClosed (set_localClosed (sample_substream [[x68]] [])))).
Proof.
  apply (substream_invariant (sample_substream [[x68]] [])).
  apply sample_substream_inv. cbn. lia.
Defined.

Lemma pushed_data_is_read_witness :
  ∃ s1 s2,
    pushData false false (sample_substream [[x68]] [x3e]) [x69; x21] = Some s1
    ∧ read_all 8 s1 1
      = (unread (sample_substream [[x68]] [x3e]) ++ [x69; x21], Some ReadBlocks, s2).
Proof.
  apply (pushed_data_is_read (sample_substream [[x68]] [x3e]) [x69; x21] false 1 8);
    first [ apply sample_substream_inv; cbn; lia
          | reflexivity
          | vm_compute; lia ].
Defined.

Lemma remote_close_then_eof_witness :
  let s1 := remoteClose (sample_substream [[x68]] [x3e]) in
  remoteClose s1 = s1
  ∧ (∀ cc tc data, pushData cc tc s1 data = Some s1)
  ∧ ∃ s2, read_all 5 s1 1
          = (unread (sample_substream [[x68]] [x3e]), Some ReadEOF, s2).
Proof.
  apply (remote_close_then_eof (sample_substream [[x68]] [x3e]) 1 5);
    first [ apply sample_substream_inv; cbn; lia | vm_compute; lia ].
Defined.

End SubstreamMore.

(** ** More on the transport: index keys, the dial and the streams of a
       connection *)

Module TransportMore.
Import Message Queue Transport ByteFacts QueueFacts SubstreamMore.

(** *** Keys *)

Lemma hex_digit_inj (n m : N) :
  (n < 16)%N → (m < 16)%N → hex_digit n = hex_digit m → n = m.
Proof.
  intros Hn Hm H. apply N2Nat.inj. unfold hex_digit in H.
  assert (Ha : (N.to_nat n < 16)%nat) by lia.
  assert (Hb : (N.to_nat m < 16)%nat) by lia.
  revert H Ha Hb. generalize (N.to_nat n) (N.to_nat m). intros a b H Ha Hb.
  do 16 (destruct a as [|a];
         [do 16 (destruct b as [|b]; [first [reflexivity|discriminate H]|]); lia|]).
  lia.
Qed.

Lemma hex_byte_inj (x y : byte) :
  hex_digit (Byte.to_N x / 16) = hex_digit (Byte.to_N y / 16) →
  hex_digit (Byte.to_N x mod 16) = hex_digit (Byte.to_N y mod 16) →
  x = y.
Proof.
  intros Hhi Hlo.
  pose proof (Byte.to_N_bounded x) as Hx. pose proof (Byte.to_N_bounded y) as Hy.
  apply hex_digit_inj in Hhi;
    [|apply N.Div0.div_lt_upper_bound; lia|apply N.Div0.div_lt_upper_bound; lia].
  apply hex_digit_inj in Hlo; [|by apply N.mod_lt..].
  assert (Heq : Byte.to_N x = Byte.to_N y).
  { rewrite (N.div_mod (Byte.to_N x) 16), (N.div_mod (Byte.to_N y) 16) by done.
    by rewrite Hhi, Hlo. }
  apply (f_equal Byte.of_N) in Heq. rewrite !Byte.of_to_N in Heq. congruence.
Qed.

Lemma hex_EncodeToString_inj (a b : bytes) :
  hex_EncodeToString a = hex_EncodeToString b → a = b.
Proof.
  unfold hex_EncodeToString. intros H.
  apply (f_equal list_ascii_of_string) in H.
  rewrite !list_ascii_of_string_of_list_ascii in H.
  revert b H. induction a as [|x a IH]; intros [|y b] H; try done.
  cbn [flat_map app] in H. injection H as Hhi Hlo Hrest.
  f_equal; [by apply hex_byte_inj|by apply IH].
Qed.

(** X18. Distinct identifiers have distinct keys: the hexadecimal key
    of a connection or of a substream determines the identifier, so two
    identifiers never share an entry of an index. *)
Theorem key_determines_id (a b : bytes) :
  (connKey a = connKey b → a = b) ∧ (substreamKey a = substreamKey b → a = b).
Proof. split; apply hex_EncodeToString_inj. Qed.

(** *** The index of connections *)

Lemma step_keyed (t : TransportState) (e : Event) :
  keyed_by_id t → keyed_by_id (step t e).
Proof.
  intros Hk key conn. destruct e as [cid r|cid|cm a d|cm a|cid|]; cbn [step].
  - unfold Dial_register. destruct (pendingDials t !! connKey cid); apply Hk.
  - unfold removePendingDial. destruct (pendingDials t !! connKey cid); apply Hk.
  - unfold handleConnectionRequest.
    destruct (cm_Recipient cm); [|apply Hk].
    destruct (connections t !! connKey (cm_ID cm)); [apply Hk|].
    destruct a; cbn [negb snd]; [|apply Hk].
    destruct d; cbn [snd connections removeConnection].
    + rewrite lookup_insert. case_decide; [|apply Hk]. by intros [= <-].
    + rewrite lookup_delete. case_decide; [done|].
      rewrite lookup_insert_ne by done. apply Hk.
  - unfold handleConnectionResponse.
    destruct (pendingDials t !! connKey (cm_ID cm)); [|apply Hk].
    destruct a; cbn [negb snd]; [|apply Hk].
    destruct (length (resultCh d) <? 1)%nat; cbn [snd connections removeConnection].
    + rewrite lookup_insert. case_decide; [|apply Hk]. by intros [= <-].
    + rewrite lookup_delete. case_decide; [done|].
      rewrite lookup_insert_ne by done. apply Hk.
  - cbn [removeConnection connections]. rewrite lookup_delete.
    case_decide; [done|]. apply Hk.
  - cbn. by rewrite lookup_empty.
Qed.

(** X19. Along every sequence of dials, requests, responses, removals
    and closes, each connection of the index is filed under the key of
    its own ConnectionID. *)
Theorem connections_keyed_by_id (es : list Event) :
  keyed_by_id (run newTransport es).
Proof.
  assert (Hgen : ∀ t, keyed_by_id t → keyed_by_id (run t es)).
  { induction es as [|e es IH]; intros t Hk; [done|].
    cbn. apply IH. by apply step_keyed. }
  apply Hgen. intros key conn. cbn. by rewrite lookup_empty.
Qed.

(** X20. A dial that is answered: after [Dial] registered a fresh
    ConnectionID, a second registration of it is a collision; the
    ConnectionResponse for it yields a connection in the index, to the
    recipient that was dialed, with the peer identity of the response
    and a queue that expects nonce 1, and the pending dial is gone, so
    that a second response is rejected and changes nothing. *)
Theorem dial_then_response (t t1 : TransportState) (connID : ConnectionID)
    (recipient : Recipient) (connMsg : ConnectionMessage) :
  Dial_register t connID recipient = Some t1 →
  cm_ID connMsg = connID →
  let conn := newConn connID (cm_PeerID connMsg) recipient armed in
  let t2 := snd (handleConnectionResponse t1 connMsg true) in
  Dial_register t1 connID recipient = None
  ∧ fst (handleConnectionResponse t1 connMsg true) = true
  ∧ connections t2 !! connKey connID = Some conn
  ∧ nextExpectedNonce (queue conn) = 1
  ∧ pendingDials t2 !! connKey connID = None
  ∧ (∀ connMsg' ok, cm_ID connMsg' = connID →
       handleConnectionResponse t2 connMsg' ok = (false, t2)).
Proof.
  intros Hreg <- conn t2. unfold Dial_register in Hreg.
  destruct (pendingDials t !! connKey (cm_ID connMsg)) eqn:Hp; [done|].
  injection Hreg as <-.
  assert (Ht2 : handleConnectionResponse
                  (mkTransport (connections t)
                     (<[connKey (cm_ID connMsg) := mkDialState recipient []]>
                        (pendingDials t))) connMsg true
                = (true, mkTransport
                           (<[connKey (cm_ID connMsg) := conn]> (connections t))
                           (delete (connKey (cm_ID connMsg))
                              (<[connKey (cm_ID connMsg) := mkDialState recipient []]>
                                 (pendingDials t))))).
  { unfold handleConnectionResponse. cbn [pendingDials connections].
    by rewrite lookup_insert_eq. }
  subst t2. rewrite Ht2. cbn [fst snd connections pendingDials].
  split_and!.
  - unfold Dial_register. cbn [pendingDials]. by rewrite lookup_insert_eq.
  - done.
  - apply lookup_insert_eq.
  - done.
  - apply lookup_delete_eq.
  - intros connMsg' ok Hid. unfold handleConnectionResponse.
    cbn [pendingDials]. by rewrite Hid, lookup_delete_eq.
Qed.

(** X21. A response that comes too late: once the pending dial was
    removed, as [Dial] does when its context ends, the
    ConnectionResponse for it is rejected and changes nothing. *)
Theorem late_response_rejected (t : TransportState) (connMsg : ConnectionMessage)
    (addr_ok : bool) :
  let t1 := removePendingDial t (connKey (cm_ID connMsg)) in
  handleConnectionResponse t1 connMsg addr_ok = (false, t1).
Proof.
  intros t1. unfold handleConnectionResponse.
  assert (H : pendingDials t1 !! connKey (cm_ID connMsg) = None).
  { unfold t1, removePendingDial.
    destruct (pendingDials t !! connKey (cm_ID connMsg)) eqn:E; [|done].
    apply lookup_delete_eq. }
  by rewrite H.
Qed.

(** X22. A ConnectionRequest either registers a connection under its
    ConnectionID, with the recipient and the peer identity of the
    request and a queue that expects nonce 1, or it fails and leaves
    the transport as it was; a request for an ID that has a connection
    fails. *)
Theorem request_registers_or_nothing (t : TransportState)
    (connMsg : ConnectionMessage) (addr_ok delivered : bool) :
  match handleConnectionRequest t connMsg addr_ok delivered with
  | (true, t') =>
      ∃ recipient,
        cm_Recipient connMsg = Some recipient
        ∧ connections t !! connKey (cm_ID connMsg) = None
        ∧ connections t'
          = <[connKey (cm_ID connMsg) :=
                newConn (cm_ID connMsg) (cm_PeerID connMsg) recipient armed]>
              (connections t)
        ∧ pendingDials t' = pendingDials t
        ∧ ∀ connMsg' ok d,
            cm_ID connMsg' = cm_ID connMsg →
            handleConnectionRequest t' connMsg' ok d = (false, t')
  | (false, t') => t' = t
  end.
Proof.
  unfold handleConnectionRequest.
  destruct (cm_Recipient connMsg) as [recipient|]; [|done].
  destruct (connections t !! connKey (cm_ID connMsg)) eqn:Hc; [done|].
  destruct addr_ok; cbn [negb]; [|done].
  destruct delivered.
  - exists recipient. split_and!; try done.
    intros connMsg' ok d Hid. unfold handleConnectionRequest.
    cbn [connections]. rewrite Hid, lookup_insert_eq.
    by destruct (cm_Recipient connMsg').
  - unfold removeConnection. cbn [connections pendingDials c_id newConn].
    rewrite delete_insert_eq, delete_id by done. by destruct t.
Qed.

(** *** The nonces of a connection *)

Local Abbreviation nonces_sent c := ((λ rf : Recipient * Frame, f_Nonce rf.2) <$> sent c).

Lemma send_all_run (ops : list (SubstreamID * byte * option nat * bool)) :
  ∀ c : Conn,
    0 ≤ nonce c → nonce c + Z.of_nat (length ops) < uint64_max →
    let c' := send_all c ops in
    nonce c' = nonce c + Z.of_nat (length ops)
    ∧ c_id c' = c_id c ∧ remoteRecipient c' = remoteRecipient c
    ∧ streams c' = streams c ∧ substreams c' = substreams c
    ∧ ∃ new, sent c' = sent c ++ new
             ∧ StronglySorted Z.lt ((λ rf, f_Nonce rf.2) <$> new)
             ∧ Forall (λ rf, rf.1 = remoteRecipient c ∧ f_ID rf.2 = c_id c
                             ∧ nonce c < f_Nonce rf.2 ≤ nonce c'
                             ∧ ∃ id typ data,
                                 (id, typ, data, true) ∈ ops
                                 ∧ f_Stream rf.2 = id ∧ f_Type rf.2 = typ
                                 ∧ f_Data rf.2 = data) new
             ∧ (Forall (λ op, op.2 = true) ops →
                (λ rf, f_Nonce rf.2) <$> new
                = seqZ (nonce c + 1) (Z.of_nat (length ops))).
Proof.
  induction ops as [|[[[id typ] data] delivered] ops IH]; intros c Hn Hmax c'.
  - subst c'. cbn [send_all fold_left length]. split_and!; try done; [lia|].
    exists []. rewrite app_nil_r. split_and!; try done; constructor.
  - cbn [length] in Hmax. subst c'.
    pose (c1 := snd (sendSubstreamMessage c id typ data delivered)).
    change (send_all c ((id, typ, data, delivered) :: ops)) with (send_all c1 ops).
    assert (Hincr : uint64_incr (nonce c) = nonce c + 1).
    { unfold uint64_incr. apply Z.mod_small. lia. }
    assert (H1 : nonce c1 = nonce c + 1 ∧ c_id c1 = c_id c
                 ∧ remoteRecipient c1 = remoteRecipient c
                 ∧ streams c1 = streams c ∧ substreams c1 = substreams c
                 ∧ sent c1 = sent c
                     ++ (if delivered
                         then [(remoteRecipient c,
                                mkFrame (nonce c + 1) (c_id c) id typ data)]
                         else [])).
    { unfold c1, sendSubstreamMessage. rewrite Hincr.
      destruct delivered; cbn; by rewrite ?app_nil_r. }
    destruct H1 as (Hn1 & Hid1 & Hr1 & Hs1 & Hss1 & Hsent1).
    destruct (IH c1 ltac:(lia) ltac:(lia))
      as (Hn' & Hid' & Hr' & Hs' & Hss' & new & Hsent' & Hsorted & Hall & Hseq).
    cbn [length]. split_and!; try congruence; [lia|].
    rewrite Hsent', Hsent1, <- app_assoc. eexists. split; [reflexivity|].
    assert (Hall' : Forall (λ rf, rf.1 = remoteRecipient c ∧ f_ID rf.2 = c_id c
                             ∧ nonce c + 1 < f_Nonce rf.2 ≤ nonce (send_all c1 ops)
                             ∧ ∃ id0 typ0 data0,
                                 (id0, typ0, data0, true)
                                   ∈ (id, typ, data, delivered) :: ops
                                 ∧ f_Stream rf.2 = id0 ∧ f_Type rf.2 = typ0
                                 ∧ f_Data rf.2 = data0) new).
    { eapply Forall_impl; [exact Hall|]. cbv beta.
      intros rf (? & ? & ? & id0 & typ0 & data0 & Hin & ?).
      split_and!; try congruence; try lia.
      exists id0, typ0, data0. split; [by right|done]. }
    split_and!.
    + destruct delivered; cbn [app fmap list_fmap]; [|done].
      constructor; [done|]. cbn [snd f_Nonce].
      apply Forall_fmap. eapply Forall_impl; [exact Hall'|]. cbv beta.
      intros rf (_ & _ & ? & _). unfold compose. lia.
    + apply Forall_app. split.
      * destruct delivered; constructor; [|constructor].
        cbn [fst snd f_Nonce f_ID f_Stream f_Type f_Data].
        split_and!; [done|done|lia|lia|].
        exists id, typ, data. split; [by left|done].
      * eapply Forall_impl; [exact Hall'|]. cbv beta.
        intros rf (? & ? & ? & ?). split_and!; try done; lia.
    + intros Hdel. apply Forall_cons in Hdel as [Hd Hdel]. cbn in Hd. subst delivered.
      rewrite fmap_app, (Hseq Hdel), Hn1. cbn [fmap list_fmap snd f_Nonce app].
      rewrite Nat2Z.inj_succ.
      by rewrite (seqZ_cons (nonce c + 1)), Z.pred_succ by lia.
Qed.

(** X23. The nonces a connection puts on its frames: a new connection
    that sends a sequence of substream messages numbers them in the
    order of the calls, a failed send using up its number, so the
    nonces that go out increase strictly and each frame carries the
    recipient and the ID of the connection; when every send goes
    through the nonces are 1, 2, ..., the ones the queue of the peer
    releases in order. *)
Theorem sent_nonces (connID : ConnectionID) (peer : PeerID)
    (recipient : Recipient) (q : MessageQueue)
    (ops : list (SubstreamID * byte * option nat * bool)) :
  Z.of_nat (length ops) < uint64_max →
  let c := send_all (newConn connID peer recipient q) ops in
  nonce c = Z.of_nat (length ops)
  ∧ StronglySorted Z.lt (nonces_sent c)
  ∧ Forall (λ rf, rf.1 = recipient ∧ f_ID rf.2 = connID
                  ∧ 1 ≤ f_Nonce rf.2 ≤ Z.of_nat (length ops)) (sent c)
  ∧ (Forall (λ op, op.2 = true) ops →
     nonces_sent c = seqZ 1 (Z.of_nat (length ops))).
Proof.
  intros Hlen c.
  destruct (send_all_run ops (newConn connID peer recipient q))
    as (Hn & _ & _ & _ & _ & new & Hsent & Hsorted & Hall & Hseq);
    [cbn [newConn nonce]; lia..|].
  fold c in Hn, Hsent. cbn [newConn nonce sent c_id remoteRecipient app] in *.
  rewrite Hsent. split_and!.
  - lia.
  - done.
  - eapply Forall_impl; [exact Hall|]. cbv beta.
    intros rf (? & ? & Hrf & _). fold c in Hrf.
    cbn [newConn nonce] in Hrf. split_and!; try done; lia.
  - intros Hdel. by rewrite (Hseq Hdel).
Qed.

(** The transport message a sent frame stands for. *)
Local Abbreviation sent_messages c :=
  (omap (λ rf : Recipient * Frame, Transport (frame_message (slices c) rf.2)) (sent c)).

Lemma perm_same_keys {A} (f : A → Z) (l1 l2 : list A) :
  l1 ≡ₚ l2 → f <$> l1 = f <$> l2 → NoDup (f <$> l1) → l1 = l2.
Proof.
  intros Hperm Hkeys Hnd. apply list_eq. intros i.
  destruct (l1 !! i) as [x|] eqn:Hx.
  - assert (Hin : x ∈ l2) by (rewrite <- Hperm; by eapply list_elem_of_lookup_2).
    apply list_elem_of_lookup in Hin as [j Hj].
    assert (Hi' : (f <$> l1) !! i = Some (f x)) by (by rewrite list_lookup_fmap, Hx).
    assert (Hj' : (f <$> l1) !! j = Some (f x))
      by (by rewrite Hkeys, list_lookup_fmap, Hj).
    by rewrite (NoDup_lookup _ _ _ _ Hnd Hi' Hj').
  - apply lookup_ge_None in Hx. symmetry. apply lookup_ge_None.
    by rewrite <- (Permutation_length Hperm).
Qed.

(** X24. In-order delivery over a connection: when every send of a new
    connection goes through and the frames reach the peer in any order,
    without loss or duplicate, the armed queue of the peer, fed with
    them one by one, releases exactly the messages that were sent, in
    the order in which they were sent. *)
Theorem in_order_delivery (connID : ConnectionID) (peer : PeerID)
    (recipient : Recipient) (q : MessageQueue)
    (ops : list (SubstreamID * byte * option nat * bool))
    (arrivals : list TransportMessage) :
  Z.of_nat (length ops) < uint64_max →
  Forall (λ op, op.2 = true) ops →
  let c := send_all (newConn connID peer recipient q) ops in
  arrivals ≡ₚ sent_messages c →
  ∃ mq, feed armed arrivals = (sent_messages c, mq)
        ∧ nonces mq = [] ∧ pending mq = ∅.
Proof.
  intros Hlen Hdel c Harr.
  destruct (send_all_run ops (newConn connID peer recipient q))
    as (_ & _ & _ & _ & _ & new & Hsent & _ & _ & Hseq);
    [cbn [newConn nonce]; lia..|].
  fold c in Hsent. cbn [newConn nonce sent app] in Hsent, Hseq.
  specialize (Hseq Hdel). rewrite <- Hsent in Hseq.
  change (0 + 1) with 1 in Hseq.
  assert (Hmsgs : Nonce <$> sent_messages c = seqZ 1 (Z.of_nat (length ops))).
  { rewrite <- Hseq. generalize (slices c). clear.
    induction (sent c) as [|rf l IH]; intros store; [done|].
    cbn. f_equal. apply IH. }
  assert (Hk : length (sent_messages c) = length ops).
  { apply (f_equal length) in Hmsgs.
    rewrite length_fmap, length_seqZ in Hmsgs. lia. }
  assert (Hka : length arrivals = length ops)
    by (by rewrite (Permutation_length Harr)).
  assert (Hperm : Nonce <$> arrivals ≡ₚ seqZ 1 (Z.of_nat (length arrivals)))
    by (by rewrite Hka, Harr, Hmsgs).
  assert (Hall : Forall (λ m, 0 ≤ Nonce m < uint64_max) arrivals).
  { apply Forall_forall. intros m Hm.
    assert (Hin : Nonce m ∈ Nonce <$> arrivals) by (apply list_elem_of_fmap; eauto).
    rewrite Hperm, elem_of_seqZ in Hin. lia. }
  destruct (perm_seqZ_bounds arrivals Hall Hperm) as [Hall1 Hnd].
  destruct (feed_run arrivals [] [] armed armed_feed_inv Hall1 Hnd)
    as (out & mq & Hrun & Hinv). cbn [app] in Hinv.
  destruct (feed_inv_total arrivals out mq Hinv Hperm) as (Ho & Hp & Hn & Hm).
  exists mq. rewrite Hrun. split_and!; try done. f_equal.
  apply (perm_same_keys Nonce).
  - by rewrite Hp.
  - by rewrite Ho, Hka, Hmsgs.
  - rewrite Ho. apply NoDup_seqZ.
Qed.

(** *** The streams of a connection *)

Lemma set_conn_same (c : Conn) :
  set_conn c (streams c) (pendingOutbound c) (nonce c) (sent c) (substreams c)
           (slices c) = c.
Proof. by destruct c. Qed.

Lemma handleData_remote_closed (c : Conn) (id : SubstreamID) (a : nat)
    (s : Substream) (data : bytes) (tc : bool) :
  getStream c id = Some a → substreams c !! a = Some s →
  remoteClosed s = true → handleData c id data tc = Some c.
Proof.
  intros Hg Hs Hr. unfold handleData, pushData. rewrite Hg, Hs, Hr. cbn [orb].
  unfold update_substream. rewrite insert_id by done. by rewrite set_conn_same.
Qed.

(** X25. Opening a stream: on an open connection [OpenStream] sends an
    OpenRequest with the next nonce and keeps the new substream aside;
    the OpenResponse for it puts the substream into the index, a
    second response changes nothing, and a Data frame that follows is
    queued on that substream.  A response that arrives after the
    caller gave up is ignored. *)
Theorem open_stream_handshake (c : Conn) (id : SubstreamID) :
  closed c = false →
  let a := fresh (dom (substreams c)) in
  let c1 := snd (OpenStream_request c id true) in
  let c2 := handleOpenResponse c1 id in
  fst (OpenStream_request c id true) = None
  ∧ sent c1 = sent c ++ [(remoteRecipient c,
                          mkFrame (uint64_incr (nonce c)) (c_id c) id
                                  SubstreamMessageOpenRequest None)]
  ∧ substreams c !! a = None
  ∧ getStream c1 id = getStream c id
  ∧ getStream c2 id = Some a
  ∧ substreams c2 !! a = Some (newSubstream id)
  ∧ handleOpenResponse c2 id = c2
  ∧ (∀ data tc, ∃ c3,
       handleData c2 id data tc = Some c3
       ∧ substreams c3 !! a = Some (set_inbound (newSubstream id) [data]))
  ∧ handleOpenResponse (OpenStream_cancel c1 id) id = OpenStream_cancel c1 id.
Proof.
  intros Hopen a c1 c2.
  assert (Hfresh : substreams c !! a = None).
  { apply not_elem_of_dom. apply is_fresh. }
  assert (Hc1 : OpenStream_request c id true
                = (None,
                   set_conn c (streams c) (<[substreamKey id := a]> (pendingOutbound c))
                     (uint64_incr (nonce c))
                     (sent c ++ [(remoteRecipient c,
                                  mkFrame (uint64_incr (nonce c)) (c_id c) id
                                          SubstreamMessageOpenRequest None)])
                     (<[a := newSubstream id]> (substreams c)) (slices c))).
  { unfold OpenStream_request. by rewrite Hopen. }
  subst c2 c1. rewrite Hc1. cbn [fst snd].
  set (c1 := set_conn c _ _ _ _ _ _).
  assert (Hc2 : handleOpenResponse c1 id
                = set_conn c1 (<[substreamKey id := a]> (streams c))
                    (delete (substreamKey id)
                       (<[substreamKey id := a]> (pendingOutbound c)))
                    (nonce c1) (sent c1) (substreams c1) (slices c1)).
  { unfold handleOpenResponse. cbn [c1 set_conn pendingOutbound streams].
    by rewrite lookup_insert_eq. }
  rewrite Hc2. set (c2 := set_conn c1 _ _ _ _ _ _).
  split_and!; try done.
  - apply lookup_insert_eq.
  - cbn. apply lookup_insert_eq.
  - unfold handleOpenResponse. cbn [c2 c1 set_conn pendingOutbound].
    by rewrite lookup_delete_eq.
  - intros data tc. eexists. split.
    + unfold handleData, getStream.
      cbn [c2 c1 set_conn streams substreams closed]. rewrite !lookup_insert_eq.
      unfold pushData. cbn [newSubstream remoteClosed localClosed inbound_closed
                            inbound length orb andb negb]. rewrite Hopen.
      rewrite copy_at_whole by (by rewrite make_length).
      cbn [andb]. reflexivity.
    + cbn. apply lookup_insert_eq.
  - unfold handleOpenResponse, OpenStream_cancel.
    cbn [c1 set_conn pendingOutbound]. by rewrite lookup_delete_eq.
Qed.

(** X26. A Close frame from the peer takes the stream out of the index
    and remote-closes its substream, without any frame in reply; a
    Data frame or a second Close for the stream then changes nothing. *)
Theorem remote_close_frame (c : Conn) (id : SubstreamID) (a : nat)
    (s : Substream) :
  getStream c id = Some a →
  substreams c !! a = Some s →
  let c' := handleClose c id in
  getStream c' id = None
  ∧ substreams c' !! a = Some (remoteClose s)
  ∧ sent c' = sent c ∧ nonce c' = nonce c
  ∧ (∀ data tc, handleData c' id data tc = Some c')
  ∧ handleClose c' id = c'.
Proof.
  intros Hg Hs c'.
  assert (Hc' : c' = update_substream (removeStream c id) a (remoteClose s)).
  { unfold c', handleClose. by rewrite Hg, Hs. }
  assert (Hget : getStream c' id = None).
  { rewrite Hc'. unfold getStream. cbn. apply lookup_delete_eq. }
  split_and!; try done.
  - rewrite Hc'. cbn. apply lookup_insert_eq.
  - by rewrite Hc'.
  - by rewrite Hc'.
  - intros data tc. unfold handleData. by rewrite Hget.
  - unfold handleClose at 1. rewrite Hget. rewrite Hc'.
    unfold removeStream, update_substream. cbn. by rewrite !delete_delete_eq.
Qed.

(** X27. [CloseRead] is silent: it sends no frame, uses up no nonce and
    leaves the stream in the index, but marks the substream closed on
    both sides, so that Data frames which still arrive for it are
    dropped. *)
Theorem close_read_is_silent (c : Conn) (id : SubstreamID) (a : nat)
    (s : Substream) (delivered : bool) :
  getStream c id = Some a →
  substreams c !! a = Some s →
  localClosed s = false →
  let c' := CloseRead c a delivered in
  sent c' = sent c ∧ nonce c' = nonce c ∧ streams c' = streams c
  ∧ (∃ s', substreams c' !! a = Some s'
           ∧ localClosed s' = true ∧ remoteClosed s' = true)
  ∧ (∀ data tc, handleData c' id data tc = Some c').
Proof.
  intros Hg Hs Hl c'.
  set (s' := close_inbound_once (set_remoteClosed (set_localClosed s))).
  assert (Hc' : c' = update_substream (update_substream c a (set_localClosed s)) a s').
  { unfold c', CloseRead, closeWithControl. by rewrite Hs, Hl. }
  assert (Hs' : substreams c' !! a = Some s').
  { rewrite Hc'. cbn. apply lookup_insert_eq. }
  assert (Hflags : localClosed s' = true ∧ remoteClosed s' = true).
  { unfold s', close_inbound_once. by destruct (channelOnce _). }
  split_and!; try by rewrite Hc'.
  - exists s'. by destruct Hflags.
  - intros data tc. apply (handleData_remote_closed c' id a s'); try done;
      [|by destruct Hflags].
    rewrite Hc'. exact Hg.
Qed.


Lemma dial_then_response_witness :
  let t1 := mkTransport ∅ {[connKey sample_id := mkDialState sample_recipient []]} in
  let conn := newConn sample_id (cm_PeerID sample_conn_response)
                      sample_recipient armed in
  let t2 := snd (handleConnectionResponse t1 sample_conn_response true) in
  Dial_register t1 sample_id sample_recipient = None
  ∧ fst (handleConnectionResponse t1 sample_conn_response true) = true
  ∧ connections t2 !! connKey sample_id = Some conn
  ∧ nextExpectedNonce (queue conn) = 1
  ∧ pendingDials t2 !! connKey sample_id = None
  ∧ (∀ connMsg' ok, cm_ID connMsg' = sample_id →
       handleConnectionResponse t2 connMsg' ok = (false, t2)).
Proof.
  apply (dial_then_response newTransport _ sample_id sample_recipient
           sample_conn_response); reflexivity.
Defined.

Lemma sent_nonces_witness :
  let ops := [(sample_stream_id, SubstreamMessageOpenRequest, None, true);
              (sample_stream_id, SubstreamMessageData, Some 7%nat, false);
              (sample_stream_id, SubstreamMessageClose, None, true)] in
  let c := send_all (newConn sample_id sample_peer sample_recipient armed) ops in
  nonce c = Z.of_nat (length ops)
  ∧ StronglySorted Z.lt (nonces_sent c)
  ∧ Forall (λ rf, rf.1 = sample_recipient ∧ f_ID rf.2 = sample_id
                  ∧ 1 ≤ f_Nonce rf.2 ≤ Z.of_nat (length ops)) (sent c)
  ∧ (Forall (λ op, op.2 = true) ops →
     nonces_sent c = seqZ 1 (Z.of_nat (length ops))).
Proof.
  apply (sent_nonces sample_id sample_peer sample_recipient armed
           [(sample_stream_id, SubstreamMessageOpenRequest, None, true);
            (sample_stream_id, SubstreamMessageData, Some 7%nat, false);
            (sample_stream_id, SubstreamMessageClose, None, true)]).
  vm_compute. reflexivity.
Defined.

Lemma in_order_delivery_witness :
  let ops := [(sample_stream_id, SubstreamMessageOpenRequest, None, true);
              (sample_stream_id, SubstreamMessageClose, None, true)] in
  let c := send_all (newConn sample_id sample_peer sample_recipient armed) ops in
  let arrivals :=
    [mkTransportMessage 2
       (mkSubstreamMessage sample_stream_id SubstreamMessageClose []) sample_id;
     mkTransportMessage 1
       (mkSubstreamMessage sample_stream_id SubstreamMessageOpenRequest [])
       sample_id] in
  ∃ mq, feed armed arrivals = (sent_messages c, mq)
        ∧ nonces mq = [] ∧ pending mq = ∅.
Proof.
  apply (in_order_delivery sample_id sample_peer sample_recipient armed
           [(sample_stream_id, SubstreamMessageOpenRequest, None, true);
            (sample_stream_id, SubstreamMessageClose, None, true)]).
  - vm_compute. reflexivity.
  - repeat constructor.
  - apply Permutation_swap.
Defined.

Lemma open_stream_handshake_witness :
  let c := sample_conn [] [] in
  let id := replicate 32 x55 in
  let a := fresh (dom (substreams c)) in
  let c1 := snd (OpenStream_request c id true) in
  let c2 := handleOpenResponse c1 id in
  fst (OpenStream_request c id true) = None
  ∧ sent c1 = sent c ++ [(remoteRecipient c,
                          mkFrame (uint64_incr (nonce c)) (c_id c) id
                                  SubstreamMessageOpenRequest None)]
  ∧ substreams c !! a = None
  ∧ getStream c1 id = getStream c id
  ∧ getStream c2 id = Some a
  ∧ substreams c2 !! a = Some (newSubstream id)
  ∧ handleOpenResponse c2 id = c2
  ∧ (∀ data tc, ∃ c3,
       handleData c2 id data tc = Some c3
       ∧ substreams c3 !! a = Some (set_inbound (newSubstream id) [data]))
  ∧ handleOpenResponse (OpenStream_cancel c1 id) id = OpenStream_cancel c1 id.
Proof.
  apply (open_stream_handshake (sample_conn [] []) (replicate 32 x55)).
  reflexivity.
Defined.

Lemma remote_close_frame_witness :
  let c := sample_conn [[x68]] [] in
  let c' := handleClose c sample_stream_id in
  getStream c' sample_stream_id = None
  ∧ substreams c' !! 0%nat = Some (remoteClose (sample_substream [[x68]] []))
  ∧ sent c' = sent c ∧ nonce c' = nonce c
  ∧ (∀ data tc, handleData c' sample_stream_id data tc = Some c')
  ∧ handleClose c' sample_stream_id = c'.
Proof.
  apply (remote_close_frame (sample_conn [[x68]] []) sample_stream_id 0
           (sample_substream [[x68]] [])); reflexivity.
Defined.

Lemma close_read_is_silent_witness :
  let c := sample_conn [[x68]] [] in
  let c' := CloseRead c 0 true in
  sent c' = sent c ∧ nonce c' = nonce c ∧ streams c' = streams c
  ∧ (∃ s', substreams c' !! 0%nat = Some s'
           ∧ localClosed s' = true ∧ remoteClosed s' = true)
  ∧ (∀ data tc, handleData c' sample_stream_id data tc = Some c').
Proof.
  apply (close_read_is_silent (sample_conn [[x68]] []) sample_stream_id 0
           (sample_substream [[x68]] []) true); reflexivity.
Defined.


End TransportMore.

(** ** More on the textual form of a recipient: what the parser accepts *)

Module RecipientMore.
Import Message ByteFacts CodecFacts DigitFacts RecipientFacts.
Local Open Scope N_scope.

Lemma index_of_spec (c : ascii) (l : list ascii) :
  ∀ i d, Base58.index_of c l i = Some d →
         i ≤ d ∧ (N.to_nat (d - i) < length l)%nat
         ∧ nth (N.to_nat (d - i)) l Base58.zero_char = c.
Proof.
  induction l as [|x l IH]; intros i d H; [done|]. cbn [Base58.index_of] in H.
  destruct (Ascii.eqb_spec c x) as [->|Hne].
  - injection H as <-. rewrite N.sub_diag. cbn. split_and!; [lia|lia|done].
  - apply IH in H as (Hle & Hlt & Hnth).
    replace (d - i) with (N.succ (d - (i + 1))) by lia.
    rewrite N2Nat.inj_succ. cbn [length nth]. split_and!; [lia|lia|done].
Qed.

Lemma decode_digit_spec (c : ascii) (d : N) :
  Base58.decode_digit c = Some d → d < 58 ∧ Base58.encode_digit d = c.
Proof.
  intros H. apply index_of_spec in H as (_ & Hlt & Hnth).
  rewrite N.sub_0_r in *. split; [|done].
  change (length Base58.alphabet) with 58%nat in Hlt. lia.
Qed.

Lemma decode_digits_spec (str : list ascii) :
  ∀ ds, Base58.decode_digits str = Some ds →
        Forall (λ d, d < 58) ds ∧ map Base58.encode_digit ds = str.
Proof.
  induction str as [|c str IH]; intros ds H; cbn [Base58.decode_digits] in H.
  - injection H as <-. by split.
  - destruct (Base58.decode_digit c) as [d|] eqn:Hd; [|done].
    destruct (Base58.decode_digits str) as [ds'|] eqn:Hds; [|done].
    injection H as <-. apply decode_digit_spec in Hd as [Hlt Henc].
    destruct (IH ds' eq_refl) as [Hall Hmap].
    split; [by constructor|]. cbn [map]. by rewrite Henc, Hmap.
Qed.

(** The digits of the leading ['1'] characters are zeros, and the digit
    after them is not. *)
Lemma decode_digits_leading (str : list ascii) :
  ∀ ds, Base58.decode_digits str = Some ds →
        let z := Base58.count_leading (Ascii.eqb Base58.zero_char) str in
        ds = replicate z 0 ++ drop z ds ∧ canonical 58 (drop z ds).
Proof.
  induction str as [|c str IH]; intros ds H; cbn [Base58.decode_digits] in H.
  - injection H as <-. cbn. split; [done|]. by split.
  - destruct (Base58.decode_digit c) as [d|] eqn:Hd; [|done].
    destruct (Base58.decode_digits str) as [ds'|] eqn:Hds; [|done].
    injection H as <-. cbn [Base58.count_leading].
    pose proof (decode_digit_spec c d Hd) as [Hlt Henc].
    pose proof (proj1 (decode_digits_spec str ds' Hds)) as Hall.
    destruct (Ascii.eqb_spec Base58.zero_char c) as [<-|Hne].
    + cbn in Hd. injection Hd as <-.
      destruct (IH ds' eq_refl) as [Heq Hcan]. cbn [replicate app drop].
      split; [by f_equal|done].
    + cbn [replicate app drop]. split; [done|]. split; [by constructor|].
      cbn [head]. intros [= ->]. by apply Hne.
Qed.

Lemma count_leading_zero_bytes (z : nat) (D : list N) :
  canonical 256 D →
  Base58.count_leading Base58.is_zero_byte (replicate z x00 ++ map byte_of_N D) = z.
Proof.
  intros [Hall Hhd]. induction z as [|z IH]; [|cbn; by rewrite IH].
  cbn [replicate app]. destruct D as [|d D]; [done|].
  cbn [map Base58.count_leading]. apply Forall_cons in Hall as [Hd _].
  unfold Base58.is_zero_byte. rewrite to_N_byte_of_N by lia.
  destruct (N.eqb_spec d 0) as [->|]; [|done]. by destruct Hhd.
Qed.

Lemma map_to_N_byte_of_N (D : list N) :
  Forall (λ d, d < 256) D → map Byte.to_N (map byte_of_N D) = D.
Proof.
  induction 1 as [|d D Hd _ IH]; [done|]. cbn.
  by rewrite to_N_byte_of_N, IH by lia.
Qed.

(** What [Decode] accepts is the text [Encode] writes for the bytes. *)
Lemma Base58_Encode_Decode (str : list ascii) (bin : bytes) :
  Base58.Decode str = Some bin → Base58.Encode bin = str.
Proof.
  unfold Base58.Decode. destruct str as [|c0 str0] eqn:Hstr; [done|].
  rewrite <- Hstr. clear Hstr c0 str0.
  destruct (Base58.decode_digits str) as [ds|] eqn:Hds; [|done].
  intros [= <-].
  destruct (decode_digits_spec str ds Hds) as [Hall Hmap].
  destruct (decode_digits_leading str ds Hds) as [Hsplit Hcan].
  set (z := Base58.count_leading (Ascii.eqb Base58.zero_char) str) in *.
  set (ds' := drop z ds) in *.
  assert (Hnum : of_digits 58 ds = of_digits 58 ds').
  { rewrite Hsplit. by apply of_digits_zeros. }
  rewrite Hnum. set (n := of_digits 58 ds').
  destruct (to_digits_spec 256 ltac:(lia) n) as [Hval H256].
  set (D := to_digits 256 n) in *.
  unfold Base58.Encode. rewrite count_leading_zero_bytes by done.
  rewrite map_app, map_to_N_byte_of_N by apply H256.
  replace (map Byte.to_N (replicate z x00)) with (replicate z 0)
    by (clear; induction z; [done|cbn; by f_equal]).
  rewrite of_digits_zeros, Hval. unfold n.
  rewrite (to_digits_of_digits 58 ltac:(lia)) by done.
  transitivity (map Base58.encode_digit ds); [|exact Hmap].
  rewrite Hsplit, map_app. f_equal.
  clear. induction z; [done|cbn; by f_equal].
Qed.

Lemma decodeBase58To32_inv (s : list ascii) (key : bytes) :
  decodeBase58To32 s = Some key → length key = 32%nat ∧ Base58.Encode key = s.
Proof.
  unfold decodeBase58To32.
  destruct (Base58.Decode s) as [decoded|] eqn:Hdec; [|done].
  destruct (Nat.eqb_spec (length decoded) 32) as [Hlen|]; [|done].
  cbn [negb]. rewrite copy_at_whole by done. intros [= <-].
  split; [done|]. by apply Base58_Encode_Decode.
Qed.

Lemma Split_nonempty (s : list ascii) (sep : ascii) : Split s sep ≠ [].
Proof.
  destruct s as [|c s]; [done|]. cbn [Split].
  destruct (Ascii.eqb c sep); [done|]. by destruct (Split s sep).
Qed.

Lemma Split_one (s : list ascii) (sep : ascii) :
  ∀ a, Split s sep = [a] → s = a ∧ Forall (λ c, c ≠ sep) a.
Proof.
  induction s as [|c s IH]; intros a H; cbn [Split] in H.
  - injection H as <-. by split.
  - destruct (Ascii.eqb_spec c sep) as [->|Hne].
    + injection H as <- H. by apply Split_nonempty in H.
    + destruct (Split s sep) as [|p ps] eqn:Hs; [by apply Split_nonempty in Hs|].
      injection H as <- ->. destruct (IH p eq_refl) as [-> Hall].
      split; [done|]. by constructor.
Qed.

Lemma Split_two (s : list ascii) (sep : ascii) :
  ∀ a b, Split s sep = [a; b] →
         s = a ++ sep :: b
         ∧ Forall (λ c, c ≠ sep) a ∧ Forall (λ c, c ≠ sep) b.
Proof.
  induction s as [|c s IH]; intros a b H; cbn [Split] in H; [done|].
  destruct (Ascii.eqb_spec c sep) as [->|Hne].
  - injection H as <- H. apply Split_one in H as [-> Hall]. by split_and!.
  - destruct (Split s sep) as [|p ps] eqn:Hs; [done|].
    injection H as <- ->. destruct (IH p b eq_refl) as (-> & Ha & Hb).
    split_and!; [done|by constructor|done].
Qed.

(** X29. The parser accepts exactly what [String] prints: a text parses
    to a recipient if and only if it is the text [String] gives for
    that recipient, that is the base58 forms of its three 32-byte keys,
    joined by one ['.'] and one ['@']. *)
Theorem ParseRecipient_iff (s : list ascii) (r : Recipient) :
  ParseRecipient s = Some r ↔ wf_recipient r ∧ String_ r = s.
Proof.
  split.
  - unfold ParseRecipient.
    destruct (Split s "@"%char) as [|part0 [|part1 [|]]] eqn:Hat; try done.
    destruct (Split part0 "."%char) as [|client0 [|client1 [|]]] eqn:Hdot; try done.
    destruct (decodeBase58To32 client0) as [ident|] eqn:H0; [|done].
    destruct (decodeBase58To32 client1) as [enc|] eqn:H1; [|done].
    destruct (decodeBase58To32 part1) as [gateway|] eqn:H2; [|done].
    intros [= <-].
    apply decodeBase58To32_inv in H0 as [L0 E0].
    apply decodeBase58To32_inv in H1 as [L1 E1].
    apply decodeBase58To32_inv in H2 as [L2 E2].
    apply Split_two in Hat as (-> & _ & _).
    apply Split_two in Hdot as (-> & _ & _).
    split; [done|]. unfold String_. cbn [ClientIdentity ClientEncryptionKey Gateway].
    rewrite E0, E1, E2. by rewrite <- !app_assoc.
  - intros [(L0 & L1 & L2) <-]. unfold ParseRecipient, String_.
    pose proof (Base58_Encode_no_separator (ClientIdentity r)) as N1.
    pose proof (Base58_Encode_no_separator (ClientEncryptionKey r)) as N2.
    pose proof (Base58_Encode_no_separator (Gateway r)) as N3.
    rewrite !app_assoc, <- (app_assoc _ ["@"%char]). cbn [app].
    rewrite Split_app, Split_no_sep.
    + rewrite <- app_assoc. cbn [app]. rewrite Split_app, Split_no_sep.
      * rewrite !decodeBase58To32_Encode by done. by destruct r.
      * eapply Forall_impl; [exact N2|]. by intros c [? _].
      * eapply Forall_impl; [exact N1|]. by intros c [? _].
    + eapply Forall_impl; [exact N3|]. by intros c [_ ?].
    + rewrite <- app_assoc. apply Forall_app. split.
      * eapply Forall_impl; [exact N1|]. by intros c [_ ?].
      * constructor; [done|]. eapply Forall_impl; [exact N2|]. by intros c [_ ?].
Qed.

End RecipientMore.
